(** * music-fingerprint: fingerprint algebra, text codec and index operators

    A shallow embedding of [src/fplib.h], [src/fplib.c] and of the GiST
    support functions of [postgres/pgfprint.c], followed by the properties
    checked against them.

    Conventions of the embedding.
    - C integers are [Z]; every conversion to a fixed width is written out
      ([u32], [u64], [i32], ...), as are the bit operations.
    - [uint8_t] arrays ([r], [dom]) are lists of bytes; the [uint32_t] and
      [uint16_t] views the kernels take of them are little-endian loads and
      stores ([load32], [store32], [load16], [store16]), as on the x86-64
      build the sources select with [_64_BIT].
    - [float] and [double] are IEEE-754 binary32 and binary64 values
      ([spec_float] of the standard library, rounded to nearest-even after
      every operation, each expression evaluated in its nominal type as with
      SSE arithmetic).  Decimal literals are the correctly rounded quotient
      of two exactly representable integers.
    - C strings are lists of characters; buffers hold their NUL bytes. *)

From Stdlib Require Import ZArith List Lia Bool Ascii.
From Stdlib Require Import Floats.SpecFloat.
Import ListNotations.
Open Scope Z_scope.

(* ================================================================== *)
(** * Machine integers *)
(* ================================================================== *)

Definition u8  (x : Z) : Z := x mod 2 ^ 8.
Definition u16 (x : Z) : Z := x mod 2 ^ 16.
Definition u32 (x : Z) : Z := x mod 2 ^ 32.
Definition u64 (x : Z) : Z := x mod 2 ^ 64.
Definition i32 (x : Z) : Z := (x + 2 ^ 31) mod 2 ^ 32 - 2 ^ 31.
Definition i64 (x : Z) : Z := (x + 2 ^ 63) mod 2 ^ 64 - 2 ^ 63.

Definition is_u8  (x : Z) : Prop := 0 <= x < 2 ^ 8.
Definition is_u16 (x : Z) : Prop := 0 <= x < 2 ^ 16.
Definition is_u32 (x : Z) : Prop := 0 <= x < 2 ^ 32.
Definition is_u64 (x : Z) : Prop := 0 <= x < 2 ^ 64.
Definition is_i32 (x : Z) : Prop := - 2 ^ 31 <= x < 2 ^ 31.

Definition INT_MAX : Z := 2 ^ 31 - 1.

(** The value of a C comparison. *)
Definition b2z (b : bool) : Z := if b then 1 else 0.

(** [fplib.h]: the branch-free minimum and maximum.
    [((((size_t)(-((int64_t)(y < x)))) & (x ^ y)) ^ y)] *)
Definition max_st (x y : Z) : Z :=
  Z.lxor (Z.land (u64 (- i64 (b2z (y <? x)))) (Z.lxor x y)) y.
Definition min_st (x y : Z) : Z :=
  Z.lxor (Z.land (u64 (- i64 (b2z (y >? x)))) (Z.lxor x y)) y.
Definition max_u32 (x y : Z) : Z :=
  Z.lxor (Z.land (u32 (- i32 (b2z (y <? x)))) (Z.lxor x y)) y.
Definition min_u32 (x y : Z) : Z :=
  Z.lxor (Z.land (u32 (- i32 (b2z (y >? x)))) (Z.lxor x y)) y.

(** A counted loop: [body] runs for [i = start, start+1, ..., start+n-1]. *)
Fixpoint for_loop {S : Type} (n : nat) (start : nat)
         (body : nat -> S -> S) (s : S) : S :=
  match n with
  | O => s
  | Datatypes.S n' => for_loop n' (Datatypes.S start) body (body start s)
  end.

(* ------------------------------------------------------------------ *)
(** ** Arrays and their word views *)

(** [a[i]]; reads are only made inside the array by the code modelled. *)
Definition rd (a : list Z) (i : nat) : Z := nth i a 0.

(** [a[i] = v]; an index outside the array leaves it as it is. *)
Fixpoint wr (a : list Z) (i : nat) (v : Z) : list Z :=
  match a, i with
  | [], _ => []
  | _ :: t, O => v :: t
  | h :: t, Datatypes.S j => h :: wr t j v
  end.

(** Element [i] of the [uint32_t] view of [a], on a little-endian machine. *)
Definition load32 (a : list Z) (i : nat) : Z :=
  Z.lor (rd a (4 * i))
    (Z.lor (Z.shiftl (rd a (4 * i + 1)) 8)
       (Z.lor (Z.shiftl (rd a (4 * i + 2)) 16)
          (Z.shiftl (rd a (4 * i + 3)) 24))).

Definition byte_of (w : Z) (k : Z) : Z := Z.land (Z.shiftr w (8 * k)) 255.

(** Store of [w] to element [i] of the [uint32_t] view of [a]. *)
Definition store32 (a : list Z) (i : nat) (w : Z) : list Z :=
  wr (wr (wr (wr a (4 * i) (byte_of w 0)) (4 * i + 1) (byte_of w 1))
        (4 * i + 2) (byte_of w 2)) (4 * i + 3) (byte_of w 3).

(** Element [i] of the [uint16_t] view of [a], and its store. *)
Definition load16 (a : list Z) (i : nat) : Z :=
  Z.lor (rd a (2 * i)) (Z.shiftl (rd a (2 * i + 1)) 8).

Definition store16 (a : list Z) (i : nat) (w : Z) : list Z :=
  wr (wr a (2 * i) (byte_of w 0)) (2 * i + 1) (byte_of w 1).

(* ------------------------------------------------------------------ *)
(** ** Bit counting ([fplib.c]) *)

Definition pop32 (x : Z) : Z :=
  let x := u32 (x - Z.land (Z.shiftr x 1) 0x55555555) in
  let x := u32 (Z.land x 0x33333333 + Z.land (Z.shiftr x 2) 0x33333333) in
  Z.shiftr (u32 (Z.land (u32 (x + Z.shiftr x 4)) 0x0F0F0F0F * 0x01010101)) 24.

(** The argument is a [uint16_t]: the two assignments truncate to 16 bits,
    the returned expression is evaluated in [int] and is not truncated. *)
Definition pop16 (x : Z) : Z :=
  let x := u16 (x - Z.land (Z.shiftr x 1) 0x5555) in
  let x := u16 (Z.land x 0x3333 + Z.land (Z.shiftr x 2) 0x3333) in
  u32 (Z.shiftr (Z.land (x + Z.shiftr x 4) 0x0F0F * 0x0101) 8).

(** [uint32_t rdiff[4]]. *)
Definition rdiff_t : Type := (Z * Z * Z * Z)%type.

Definition rdiff_incr (rdiff : rdiff_t) (k : Z) : rdiff_t :=
  let '(d0, d1, d2, d3) := rdiff in
  if k =? 0 then (u32 (d0 + 1), d1, d2, d3)
  else if k =? 1 then (d0, u32 (d1 + 1), d2, d3)
  else if k =? 2 then (d0, d1, u32 (d2 + 1), d3)
  else (d0, d1, d2, u32 (d3 + 1)).

Definition rdiff_fooid32 (x : Z) (rdiff : rdiff_t) : rdiff_t :=
  let rdiff := rdiff_incr rdiff (Z.land x 3) in
  for_loop 15 1
    (fun i rdiff =>
       rdiff_incr rdiff
         (Z.land (Z.shiftr x (Z.shiftl (Z.of_nat i) 1)) 3))
    rdiff.

(** [rdiff[1] + rdiff[2] * 4 + rdiff[3] * 9] *)
Definition rdiff_weight (rdiff : rdiff_t) : Z :=
  let '(_, d1, d2, d3) := rdiff in u32 (d1 + d2 * 4 + d3 * 9).

(** [(x & (-x)) == (y & (-y))] on [uint32_t]. *)
Definition cmp_low_bit (x y : Z) : Z :=
  b2z (Z.land x (u32 (- x)) =? Z.land y (u32 (- y))).

(* ================================================================== *)
(** * Floating point *)
(* ================================================================== *)

(** [double]: IEEE-754 binary64. *)
Module F64.
Definition prec : Z := 53.
Definition emax : Z := 1024.

Definition of_Z (z : Z) : spec_float := binary_normalize prec emax z 0 false.
Definition add : spec_float -> spec_float -> spec_float := SFadd prec emax.
Definition sub : spec_float -> spec_float -> spec_float := SFsub prec emax.
Definition mul : spec_float -> spec_float -> spec_float := SFmul prec emax.
Definition div : spec_float -> spec_float -> spec_float := SFdiv prec emax.

(** The decimal literal [n / d], for [n] and [d] below [2^53]. *)
Definition lit (n d : Z) : spec_float := div (of_Z n) (of_Z d).

Definition zero : spec_float := S754_zero false.
Definition one : spec_float := of_Z 1.

(** Conversion of a [float] to [double] (exact). *)
Definition of_float (x : spec_float) : spec_float :=
  match x with
  | S754_finite s m e => binary_round prec emax s m e
  | _ => x
  end.
End F64.

(** [float]: IEEE-754 binary32. *)
Module F32.
Definition prec : Z := 24.
Definition emax : Z := 128.

Definition of_Z (z : Z) : spec_float := binary_normalize prec emax z 0 false.
Definition add : spec_float -> spec_float -> spec_float := SFadd prec emax.
Definition sub : spec_float -> spec_float -> spec_float := SFsub prec emax.
Definition mul : spec_float -> spec_float -> spec_float := SFmul prec emax.
Definition div : spec_float -> spec_float -> spec_float := SFdiv prec emax.

Definition lit (n d : Z) : spec_float := div (of_Z n) (of_Z d).

Definition zero : spec_float := S754_zero false.
Definition one : spec_float := of_Z 1.

(** Conversion of a [double] to [float] (rounds to nearest-even). *)
Definition of_double (x : spec_float) : spec_float :=
  match x with
  | S754_finite s m e => binary_round prec emax s m e
  | _ => x
  end.
End F32.

(** Comparisons; any comparison with a NaN is false. *)
Definition flt (x y : spec_float) : bool := SFltb x y.
Definition fgt (x y : spec_float) : bool := SFltb y x.
Definition fle (x y : spec_float) : bool := SFleb x y.

Definition is_nan (x : spec_float) : bool :=
  match x with S754_nan => true | _ => false end.

(** [fmin], [fmax] (and [fminf], [fmaxf]): a NaN argument is ignored. *)
Definition fmin (x y : spec_float) : spec_float :=
  if is_nan x then y else if is_nan y then x
  else if flt y x then y else x.
Definition fmax (x y : spec_float) : spec_float :=
  if is_nan x then y else if is_nan y then x
  else if flt x y then y else x.

Definition fabs (x : spec_float) : spec_float := SFabs x.
Definition fneg (x : spec_float) : spec_float := SFopp x.

(* ================================================================== *)
(** * The fingerprint record ([fplib.h]) *)
(* ================================================================== *)

Definition R_SIZE : nat := 348.
Definition R_SIZE32 : nat := 87.      (* R_SIZE * sizeof(uint8_t) / sizeof(uint32_t) *)
Definition DOM_SIZE : nat := 66.
Definition DOM_LEN32 : nat := 16.     (* DOM_SIZE * sizeof(uint8_t) / sizeof(uint32_t) *)
Definition DOM_END16 : nat := 32.     (* DOM_SIZE * sizeof(uint8_t) / sizeof(uint16_t) - 1 *)
Definition KNOWN_CPRINT_LEN : Z := 948.

(** [struct FPrint].  [cprint] is the trailing array; [cprint_len] is the
    header field that says how many of its entries are in use. *)
Record FPrint : Type := mkFPrint {
  cprint_len : Z;        (* size_t *)
  songlen : Z;           (* uint32_t *)
  bit_rate : Z;          (* int32_t *)
  num_errors : Z;        (* int32_t *)
  r : list Z;            (* uint8_t[R_SIZE] *)
  dom : list Z;          (* uint8_t[DOM_SIZE] *)
  cprint : list Z        (* int32_t[cprint_len] *)
}.

(** [struct FPrintUnion]: the same layout, with the envelope in the place
    of [songlen] and [num_errors]. *)
Record FPrintUnion : Type := mkFPrintUnion {
  u_cprint_len : Z;      (* size_t *)
  min_songlen : Z;       (* uint32_t *)
  u_bit_rate : Z;        (* int32_t *)
  max_songlen : Z;       (* uint32_t *)
  u_r : list Z;
  u_dom : list Z;
  u_cprint : list Z
}.

(** The pointer casts between the two structs: the bytes of [num_errors]
    are read as [max_songlen] and back. *)
Definition as_union (a : FPrint) : FPrintUnion :=
  mkFPrintUnion (cprint_len a) (songlen a) (bit_rate a) (u32 (num_errors a))
                (r a) (dom a) (cprint a).
Definition as_fprint (u : FPrintUnion) : FPrint :=
  mkFPrint (u_cprint_len u) (min_songlen u) (u_bit_rate u) (i32 (max_songlen u))
           (u_r u) (u_dom u) (u_cprint u).

(** A well-formed record: the fixed widths, a [cprint] array of
    [cprint_len >= 1] entries, every field in the range of its C type. The
    length is bounded by [INT_MAX] because records are only made by
    [new_fprint(int)]. *)
Record valid_fprint (a : FPrint) : Prop := {
  vf_r_len : length (r a) = R_SIZE;
  vf_dom_len : length (dom a) = DOM_SIZE;
  vf_cp_len : cprint_len a = Z.of_nat (length (cprint a));
  vf_cp_pos : 1 <= cprint_len a <= INT_MAX;
  vf_songlen : is_u32 (songlen a);
  vf_bit_rate : is_i32 (bit_rate a);
  vf_num_errors : is_i32 (num_errors a);
  vf_r : Forall is_u8 (r a);
  vf_dom : Forall is_u8 (dom a);
  vf_cprint : Forall is_i32 (cprint a)
}.

Record valid_union (u : FPrintUnion) : Prop := {
  vu_r_len : length (u_r u) = R_SIZE;
  vu_dom_len : length (u_dom u) = DOM_SIZE;
  vu_cp_len : u_cprint_len u = Z.of_nat (length (u_cprint u));
  vu_cp_pos : 1 <= u_cprint_len u <= INT_MAX;
  vu_min : is_u32 (min_songlen u);
  vu_max : is_u32 (max_songlen u);
  vu_bit_rate : is_i32 (u_bit_rate u);
  vu_r : Forall is_u8 (u_r u);
  vu_dom : Forall is_u8 (u_dom u);
  vu_cprint : Forall is_i32 (u_cprint u)
}.

(** [sizeof(FPrint) + (max_st(cprint_len, 1) - 1) * sizeof(int32_t)];
    [sizeof(FPrint)] is 440 on x86-64 (8 + 3*4 + 348 + 66, two bytes of
    padding, one [int32_t]). *)
Definition sizeof_FPrint : Z := 440.
Definition CALC_FP_SIZE (cprint_len : Z) : Z :=
  u64 (sizeof_FPrint + u64 (u64 (max_st cprint_len 1 - 1) * 4)).

Definition FP_EXACT_CUTOFF : spec_float := F64.lit 98 100.
Definition FP_ISNEQ (val : spec_float) : bool := fle val FP_EXACT_CUTOFF.
Definition FP_ISEQ (val : spec_float) : bool := fgt val FP_EXACT_CUTOFF.
Definition FP_MATCH_CUTOFF : spec_float := F64.lit 6 10.
Definition FP_ISMATCH (val : spec_float) : bool := fgt val FP_MATCH_CUTOFF.

(** [new_fprint]: a zeroed record with room for [max(cprint_size, 1)]
    codewords; [cprint_len] is 0 when [cprint_size < 1]. *)
Definition new_fprint (cprint_size : Z) : FPrint :=
  let cp_sz := if cprint_size <? 1 then 0 else cprint_size in
  let cprint_size := if cprint_size <? 1 then 1 else cprint_size in
  mkFPrint cp_sz 0 0 0 (repeat 0 R_SIZE) (repeat 0 DOM_SIZE)
           (repeat 0 (Z.to_nat cprint_size)).

(* ================================================================== *)
(** * Similarity kernels ([fplib.c]) *)
(* ================================================================== *)

Definition CHAR_BIT : Z := 8.
Definition MAX_RDIFF : Z := 9 * Z.of_nat R_SIZE * CHAR_BIT.
Definition MAX_DOMDIFF : Z := Z.of_nat DOM_SIZE * CHAR_BIT.
Definition MAX_TOTDIFF : Z := MAX_RDIFF + MAX_DOMDIFF.

(** [hdist_r]: the weighted two-bit-lane distance of two [r] arrays. *)
Definition hdist_r (r_a r_b : list Z) : Z :=
  rdiff_weight
    (for_loop R_SIZE32 0
       (fun i rdiff => rdiff_fooid32 (Z.lxor (load32 r_a i) (load32 r_b i)) rdiff)
       (0, 0, 0, 0)).

(** The [dom] distance as [match_fooid_fp] computes it: two words per
    iteration, then the 16-bit tail. *)
Definition diff_dom_fooid (dom_a dom_b : list Z) : Z :=
  let diff_dom :=
    for_loop (DOM_LEN32 / 2) 0
      (fun k diff_dom =>
         let i := (2 * k)%nat in
         let diff_dom :=
           u32 (diff_dom + pop32 (Z.lxor (load32 dom_a i) (load32 dom_b i))) in
         u32 (diff_dom
              + pop32 (Z.lxor (load32 dom_a (i + 1)) (load32 dom_b (i + 1)))))
      0 in
  u32 (diff_dom
       + pop16 (u16 (Z.lxor (load16 dom_a DOM_END16) (load16 dom_b DOM_END16)))).

(** [conf = ((1.0 - perc) - 0.5) * 2.0] in [double]. *)
Definition conf64 (perc : spec_float) : spec_float :=
  F64.mul (F64.sub (F64.sub F64.one perc) (F64.lit 5 10)) (F64.of_Z 2).

Definition match_fooid_fp (r_a dom_a r_b dom_b : list Z) : spec_float :=
  let maxdiff := F64.of_Z MAX_TOTDIFF in
  let diff_r := hdist_r r_a r_b in
  let diff_dom := diff_dom_fooid dom_a dom_b in
  let perc := F64.div (F64.of_Z (u32 (diff_r + diff_dom))) maxdiff in
  let conf := conf64 perc in
  fmax (fmin conf F64.one) F64.zero.

(** One step [sm += cmp_low_bit( *cp1_32++, *cp2_32++ )]; the state is the
    sum and the common offset of the two pointers. *)
Definition chromab_step (cp1 cp2 : list Z) (st : Z * nat) : Z * nat :=
  let '(sm, p) := st in
  (u32 (sm + cmp_low_bit (u32 (rd cp1 p)) (u32 (rd cp2 p))), Datatypes.S p).

Definition match_chromab (cp1 : list Z) (cp1_len : Z)
                         (cp2 : list Z) (cp2_len : Z) : spec_float :=
  let maxsize := min_st cp1_len cp2_len in
  let end_ := maxsize in
  let rem := end_ mod 4 in
  let end_ := Z.shiftr end_ 2 in
  if maxsize =? 0 then F64.zero
  else
    let st :=
      for_loop (Z.to_nat end_) 0
        (fun _ st =>
           chromab_step cp1 cp2
             (chromab_step cp1 cp2
                (chromab_step cp1 cp2 (chromab_step cp1 cp2 st))))
        (0, O) in
    let st := for_loop (Z.to_nat rem) 0 (fun _ st => chromab_step cp1 cp2 st) st in
    let sm := fst st in
    if sm =? 0 then F64.zero
    else F64.div (F64.of_Z sm) (F64.of_Z (max_st cp1_len cp2_len)).

(** [match_chromat].  The main loop steps [i] by 4 up to [end = maxsize >> 2]
    and indexes from the pointers it also advances; the remainder loop
    assigns [tdiff].  The state is [(tdiff, tcomm, p)], [p] the common
    offset of the two pointers. *)
Definition match_chromat (cp1 : list Z) (cp1_len : Z)
                         (cp2 : list Z) (cp2_len : Z) : spec_float :=
  let maxsize := min_st cp1_len cp2_len in
  let end_ := maxsize in
  let rem := end_ mod 4 in
  let end_ := Z.shiftr end_ 2 in
  let w1 (k : nat) := u32 (rd cp1 k) in
  let w2 (k : nat) := u32 (rd cp2 k) in
  if maxsize =? 0 then F64.zero
  else
    let st :=
      for_loop (Z.to_nat ((end_ + 3) / 4)) 0
        (fun k st =>
           let '(tdiff, tcomm, p) := st in
           let i := (4 * k)%nat in
           let a := pop32 (Z.land (w1 (p + i)%nat) (w2 (p + i)%nat)) in
           let b := pop32 (Z.land (w1 (p + i + 1)%nat) (w2 (p + i + 1)%nat)) in
           let c := pop32 (Z.land (w1 (p + i + 2)%nat) (w2 (p + i + 2)%nat)) in
           let d := pop32 (Z.land (w1 (p + i + 3)%nat) (w2 (p + i + 3)%nat)) in
           let tdiff := u64 (tdiff + u32 (a + b + c + d)) in
           let a := pop32 (Z.lor (w1 p) (w2 p)) in
           let b := pop32 (Z.lor (w1 (p + 1)%nat) (w2 (p + 1)%nat)) in
           let c := pop32 (Z.lor (w1 (p + 2)%nat) (w2 (p + 2)%nat)) in
           let d := pop32 (Z.lor (w1 (p + 3)%nat) (w2 (p + 3)%nat)) in
           let tcomm := u64 (tcomm + u32 (a + b + c + d)) in
           (tdiff, tcomm, (p + 4)%nat))
        (0, 0, O) in
    let st :=
      for_loop (Z.to_nat rem) 0
        (fun _ st =>
           let '(tdiff, tcomm, p) := st in
           let tdiff := pop32 (Z.land (w1 p) (w2 p)) in
           let tcomm := u64 (tcomm + pop32 (Z.lor (w1 p) (w2 p))) in
           (tdiff, tcomm, Datatypes.S p))
        st in
    let '(tdiff, tcomm, _) := st in
    if tdiff =? 0 then F64.one
    else if tcomm =? 0 then F64.zero
    else F64.div (F64.of_Z tdiff) (F64.of_Z tcomm).

(** The cubic combiner, evaluated in [double]:
    [((0.012985 + .263439 * fm + -.683234 * cp + 1.592623 * cube) + 0.06348)
     / 1.2489]. *)
Definition combiner (fm cp cube : spec_float) : spec_float :=
  F64.div
    (F64.add
       (F64.add
          (F64.add
             (F64.add (F64.lit 12985 1000000)
                      (F64.mul (F64.lit 263439 1000000) fm))
             (F64.mul (fneg (F64.lit 683234 1000000)) cp))
          (F64.mul (F64.lit 1592623 1000000) cube))
       (F64.lit 6348 100000))
    (F64.lit 12489 10000).

Section Libm.
(** [pow] of the C library; its results are not specified bit for bit, so
    it is a parameter. Annex F of the C standard fixes [pow(+1, y) = 1]. *)
Variable c_pow : spec_float -> spec_float -> spec_float.

(** [match_cpfm]; [None] stands for a NULL pointer. *)
Definition match_cpfm (a b : option FPrint) : spec_float :=
  match a, b with
  | Some a, Some b =>
      let sl_a := F32.of_Z (songlen a) in
      let sl_b := F32.of_Z (songlen b) in
      let songlen_diff := fabs (F32.sub sl_a sl_b) in
      if fgt (F64.of_float songlen_diff)
             (F64.mul (F64.of_float (F32.lit 1 10))
                      (fmin (F64.of_float sl_a) (F64.of_float sl_b)))
      then F64.zero
      else
        let fm := match_fooid_fp (r a) (dom a) (r b) (dom b) in
        let cp := match_chromab (cprint a) (cprint_len a)
                                (cprint b) (cprint_len b) in
        combiner fm cp (c_pow cp (F64.of_Z 3))
  | _, _ => F64.zero
  end.
End Libm.

(* ================================================================== *)
(** * Union keys ([fplib.c]) *)
(* ================================================================== *)

(** [for (i = 0; i < n; i++) u32[i] |= a32[i];] over the word views. *)
Definition or_words32 (n : nat) (u a : list Z) : list Z :=
  for_loop n 0 (fun i u => store32 u i (Z.lor (load32 u i) (load32 a i))) u.

(** The [dom] merge: 16 words, then the 16-bit tail. *)
Definition or_dom (dom_u dom_a : list Z) : list Z :=
  let dom_u := or_words32 DOM_LEN32 dom_u dom_a in
  store16 dom_u DOM_END16
    (Z.lor (load16 dom_u DOM_END16) (load16 dom_a DOM_END16)).

(** [for (l = 0; l < cp_len; l++) cp_u[l] |= cp_a[l];] on the [uint32_t]
    views of the two [int32_t] arrays. *)
Definition or_cprint (cp_len : nat) (cp_u cp_a : list Z) : list Z :=
  for_loop cp_len 0
    (fun l cp_u => wr cp_u l (i32 (Z.lor (u32 (rd cp_u l)) (u32 (rd cp_a l)))))
    cp_u.

(** [fprint_merge_one].  The code writes [a->cprint_len] codewords into
    [u->cprint]; when the array of [u] is shorter the write is out of bounds
    (undefined behaviour), which is [None] here. *)
Definition fprint_merge_one (u : FPrintUnion) (a : FPrint) : option FPrintUnion :=
  let cp_len := cprint_len a in
  if (cp_len <=? Z.of_nat (length (u_cprint u)))
     && (cp_len <=? Z.of_nat (length (cprint a))) then
    let r_u := or_words32 R_SIZE32 (u_r u) (r a) in
    let dom_u := or_dom (u_dom u) (dom a) in
    let cp_u := or_cprint (Z.to_nat cp_len) (u_cprint u) (cprint a) in
    let min_sl :=
      if min_songlen u >? 0 then min_u32 (min_songlen u) (songlen a)
      else songlen a in
    let max_sl := max_u32 (max_songlen u) (songlen a) in
    Some (mkFPrintUnion (u_cprint_len u) min_sl (u_bit_rate u) max_sl
                        r_u dom_u cp_u)
  else None.

(** [fprint_merge_one_union]. *)
Definition fprint_merge_one_union (u a : FPrintUnion) : option FPrintUnion :=
  let cp_len := u_cprint_len a in
  if (cp_len <=? Z.of_nat (length (u_cprint u)))
     && (cp_len <=? Z.of_nat (length (u_cprint a))) then
    let r_u := or_words32 R_SIZE32 (u_r u) (u_r a) in
    let dom_u := or_dom (u_dom u) (u_dom a) in
    let cp_u := or_cprint (Z.to_nat cp_len) (u_cprint u) (u_cprint a) in
    let min_sl :=
      if min_songlen u >? 0 then min_u32 (min_songlen u) (min_songlen a)
      else min_songlen a in
    let max_sl := max_u32 (max_songlen u) (max_songlen a) in
    Some (mkFPrintUnion (u_cprint_len u) min_sl (u_bit_rate u) max_sl
                        r_u dom_u cp_u)
  else None.

(** The part of [x] that [y] does not cover: [x ^ (x & y)]. *)
Definition uncovered (x y : Z) : Z := Z.lxor x (Z.land x y).

(** [diff_r] of the union matchers: lanes of [r1] not covered by [r2];
    [extra] is OR-ed to the covering side ([try_match_merges]). *)
Definition diff_r_cover (r1 r2 : list Z) (extra : nat -> Z) : Z :=
  rdiff_weight
    (for_loop R_SIZE32 0
       (fun i rdiff =>
          rdiff_fooid32
            (uncovered (load32 r1 i) (Z.lor (load32 r2 i) (extra i))) rdiff)
       (0, 0, 0, 0)).

Definition diff_dom_cover (dom1 dom2 : list Z)
           (extra32 : nat -> Z) (extra16 : Z) : Z :=
  let diff_dom :=
    for_loop DOM_LEN32 0
      (fun j diff_dom =>
         u32 (diff_dom
              + pop32 (uncovered (load32 dom1 j)
                                 (Z.lor (load32 dom2 j) (extra32 j)))))
      0 in
  let z1 := load16 dom1 DOM_END16 in
  let z2 := u16 (Z.lor (load16 dom2 DOM_END16) extra16) in
  u32 (diff_dom + pop16 (u16 (uncovered z1 z2))).

(** [diff_cp += ((x == (x & y)) || cmp_low_bit(x, y))] *)
Definition cover_or_low_bit (x y : Z) : Z :=
  b2z ((x =? Z.land x y) || negb (cmp_low_bit x y =? 0)).

(** The sum of [cover_or_low_bit] over [k = from, ..., from + n - 1]. *)
Definition diff_cp_loop (n from : nat) (x y : nat -> Z) (diff_cp : Z) : Z :=
  for_loop n from (fun k diff_cp => u32 (diff_cp + cover_or_low_bit (x k) (y k)))
    diff_cp.

(** The cubic combiner as the union matchers evaluate it: [chroma] cubed in
    [float], the rest in [double], the result stored in a [float] and
    clamped with [fmaxf(fminf(comb, 1.0), 0.0)]. *)
Definition comb_clamped (fooid chroma : spec_float) : spec_float :=
  let cube := F32.mul (F32.mul chroma chroma) chroma in
  let comb :=
    F32.of_double
      (combiner (F64.of_float fooid) (F64.of_float chroma) (F64.of_float cube)) in
  fmax (fmin comb F32.one) F32.zero.

(** [perc = (float)(diff) / maxdiff; conf = ...; fooid = fmaxf(fminf(conf,
    1.0), 0.0)] of [match_fprint_merge] and [match_merges]. *)
Definition fooid_of_diff32 (diff : Z) : spec_float :=
  let maxdiff := F64.of_Z MAX_TOTDIFF in
  let perc := F32.of_double (F64.div (F64.of_float (F32.of_Z diff)) maxdiff) in
  let conf := F32.of_double (conf64 (F64.of_float perc)) in
  fmax (fmin conf F32.one) F32.zero.

Definition match_fprint_merge (a : FPrint) (u : FPrintUnion) : spec_float :=
  let cp_len := min_st (u_cprint_len u) (cprint_len a) in
  let diff_r := diff_r_cover (r a) (u_r u) (fun _ => 0) in
  let diff_dom := diff_dom_cover (dom a) (u_dom u) (fun _ => 0) 0 in
  let fooid := fooid_of_diff32 (u32 (diff_r + diff_dom)) in
  let diff_cp :=
    diff_cp_loop (Z.to_nat cp_len) 0
      (fun k => u32 (rd (cprint a) k)) (fun k => u32 (rd (u_cprint u) k)) 0 in
  let chroma :=
    if cp_len >? 0 then F32.div (F32.of_Z diff_cp) (F32.of_Z (cprint_len a))
    else F32.zero in
  comb_clamped fooid chroma.

Definition match_merges (u1 u2 : FPrintUnion) : spec_float :=
  let cp_len := min_st (u_cprint_len u1) (u_cprint_len u2) in
  if (max_songlen u1 <? min_songlen u2) || (max_songlen u2 <? min_songlen u1)
  then F32.zero
  else
    let diff_r := diff_r_cover (u_r u1) (u_r u2) (fun _ => 0) in
    let diff_dom := diff_dom_cover (u_dom u1) (u_dom u2) (fun _ => 0) 0 in
    let fooid := fooid_of_diff32 (u32 (diff_r + diff_dom)) in
    let diff_cp :=
      diff_cp_loop (Z.to_nat cp_len) 0
        (fun k => u32 (rd (u_cprint u1) k)) (fun k => u32 (rd (u_cprint u2) k))
        0 in
    let chroma :=
      if cp_len >? 0 then F32.div (F32.of_Z diff_cp) (F32.of_Z (u_cprint_len u1))
      else F32.zero in
    comb_clamped fooid chroma.

(** [try_match_merges]: here [perc], [conf] and the first clamp are computed
    in [double] and then stored in [float] variables. *)
Definition try_match_merges (u1 u2 : FPrintUnion) (a : FPrint) : spec_float :=
  let maxdiff := F64.of_Z MAX_TOTDIFF in
  let diff_r := diff_r_cover (u_r u1) (u_r u2) (fun i => load32 (r a) i) in
  let diff_dom :=
    diff_dom_cover (u_dom u1) (u_dom u2) (fun j => load32 (dom a) j)
                   (load16 (dom a) DOM_END16) in
  let perc := F32.of_double (F64.div (F64.of_Z (u32 (diff_r + diff_dom))) maxdiff) in
  let conf := F32.of_double (conf64 (F64.of_float perc)) in
  let fooid :=
    F32.of_double (fmax (fmin (F64.of_float conf) F64.one) F64.zero) in
  let cp_u1 (k : nat) := u32 (rd (u_cprint u1) k) in
  let cp_u2 (k : nat) := u32 (rd (u_cprint u2) k) in
  let cp_a (k : nat) := u32 (rd (cprint a) k) in
  let cp_len :=
    min_st (min_st (u_cprint_len u1) (u_cprint_len u2)) (cprint_len a) in
  let diff_cp :=
    diff_cp_loop (Z.to_nat cp_len) 0 cp_u1 (fun k => Z.lor (cp_u2 k) (cp_a k)) 0 in
  let '(cp_len, diff_cp) :=
    if u_cprint_len u1 >? cp_len then
      if cprint_len a >? cp_len then
        let cp_len' := min_st (u_cprint_len u1) (cprint_len a) in
        (cp_len',
         diff_cp_loop (Z.to_nat (cp_len' - u_cprint_len u2))
                      (Z.to_nat (u_cprint_len u2)) cp_u1 cp_a diff_cp)
      else if u_cprint_len u2 >? cp_len then
        let cp_len' := min_st (u_cprint_len u1) (u_cprint_len u2) in
        (cp_len',
         diff_cp_loop (Z.to_nat (cp_len' - cprint_len a))
                      (Z.to_nat (cprint_len a)) cp_u1 cp_u2 diff_cp)
      else (cp_len, diff_cp)
    else (cp_len, diff_cp) in
  let chroma :=
    if cp_len >? 0 then F32.div (F32.of_Z diff_cp) (F32.of_Z (u_cprint_len u1))
    else F32.zero in
  comb_clamped fooid chroma.

(* ================================================================== *)
(** * Text form ([fplib.c]) *)
(* ================================================================== *)

Definition NUL : ascii := "000"%char.

(** ** The C library functions the codec calls *)

Definition digit_char (d : Z) : ascii := ascii_of_nat (48 + Z.to_nat d).

Fixpoint dec_digits (fuel : nat) (n : Z) (acc : list ascii) : list ascii :=
  match fuel with
  | O => acc
  | Datatypes.S f =>
      let acc' := digit_char (n mod 10) :: acc in
      if n / 10 =? 0 then acc' else dec_digits f (n / 10) acc'
  end.

(** ["%u"] of a value below [2^64], ["%d"] of an [int]. *)
Definition fmt_u (n : Z) : list ascii := dec_digits 20 n [].
Definition fmt_d (n : Z) : list ascii :=
  if n <? 0 then "-"%char :: fmt_u (- n) else fmt_u n.

Definition hex_char (d : Z) : ascii :=
  if d <? 10 then ascii_of_nat (48 + Z.to_nat d)
  else ascii_of_nat (55 + Z.to_nat d).

(** ["%02X"] of a [uint8_t]. *)
Definition fmt_02X (b : Z) : list ascii := [hex_char (b / 16); hex_char (b mod 16)].

(** Characters written into a buffer from offset [off]; the buffer is never
    extended. *)
Fixpoint write_at (buf : list ascii) (off : nat) (s : list ascii) : list ascii :=
  match buf, off with
  | [], _ => []
  | b :: t, Datatypes.S o => b :: write_at t o s
  | b :: t, O =>
      match s with
      | [] => b :: t
      | c :: s' => c :: write_at t O s'
      end
  end.

(** [snprintf(&buf[off], size, ...)] with formatted text [s]: at most
    [size - 1] characters and a NUL are written; the length of [s] is
    returned. *)
Definition snprintf (buf : list ascii) (off size : nat) (s : list ascii)
  : list ascii * Z :=
  (write_at buf off (firstn (size - 1) s ++ [NUL]), Z.of_nat (length s)).

(** The characters of a buffer up to its first NUL. *)
Fixpoint c_str (buf : list ascii) : list ascii :=
  match buf with
  | [] => []
  | c :: t => if Ascii.eqb c NUL then [] else c :: c_str t
  end.

Definition strlen (buf : list ascii) : Z := Z.of_nat (length (c_str buf)).

(** [strncpy(&buf[off], src, n)]: the string [src], NUL-padded to [n]. *)
Definition strncpy (buf : list ascii) (off : nat) (src : list ascii) (n : nat)
  : list ascii :=
  let s := firstn n (c_str src) in
  write_at buf off (s ++ repeat NUL (n - length s)).

(** [s[i]]; a string ends with a NUL. *)
Definition char_at (s : list ascii) (i : nat) : ascii := nth i s NUL.

Definition is_space (c : ascii) : bool :=
  let n := nat_of_ascii c in (Nat.eqb n 32) || ((9 <=? n)%nat && (n <=? 13)%nat).

Definition digit_val (base : Z) (c : ascii) : option Z :=
  let n := Z.of_nat (nat_of_ascii c) in
  let v :=
    if (48 <=? n) && (n <=? 57) then n - 48
    else if (65 <=? n) && (n <=? 70) then n - 55
    else if (97 <=? n) && (n <=? 102) then n - 87
    else 99 in
  if v <? base then Some v else None.

Fixpoint skip_space (s : list ascii) : list ascii :=
  match s with
  | c :: t => if is_space c then skip_space t else s
  | [] => []
  end.

(** Digits of [base], at most [width] of them: the value read so far, how
    many were read, and the rest of the input. *)
Fixpoint scan_digits (base : Z) (width : nat) (s : list ascii) (acc : Z) (n : nat)
  : Z * nat * list ascii :=
  match width, s with
  | Datatypes.S w, c :: t =>
      match digit_val base c with
      | Some v => scan_digits base w t (acc * base + v) (Datatypes.S n)
      | None => (acc, n, s)
      end
  | _, _ => (acc, n, s)
  end.

(** An unsigned conversion of [sscanf] ([%u], [%2hhX]): white space is
    skipped, a sign is accepted and counts in the field width, at least one
    digit is required, the value is that of [strtoul] (saturating at
    [ULONG_MAX]) converted to the target type by the caller. A [0x] prefix
    is not recognised: the [0] is read as a digit. *)
Definition scan_unsigned (base : Z) (width : nat) (s : list ascii)
  : option (Z * list ascii) :=
  let s := skip_space s in
  let '(neg, width, s) :=
    match width, s with
    | Datatypes.S w, c :: t =>
        if Ascii.eqb c "-"%char then (true, w, t)
        else if Ascii.eqb c "+"%char then (false, w, t)
        else (false, width, s)
    | _, _ => (false, width, s)
    end in
  let '(v, n, rest) := scan_digits base width s 0 O in
  match n with
  | O => None
  | _ =>
      let v := if v <? 2 ^ 64 then v else 2 ^ 64 - 1 in
      Some (if neg then u64 (- v) else v, rest)
  end.

(** A literal character of a [sscanf] format. *)
Definition scan_lit (c : ascii) (s : list ascii) : option (list ascii) :=
  match s with
  | c' :: t => if Ascii.eqb c c' then Some t else None
  | [] => None
  end.

(** [strtol(s, NULL, 10)] on the digit strings the parser builds (an
    optional ['-'] and at most 11 digits): no digits give 0. *)
Definition strtol10 (s : list ascii) : Z :=
  match s with
  | c :: t =>
      if Ascii.eqb c "-"%char
      then - (fst (fst (scan_digits 10 (length t) t 0 O)))
      else fst (fst (scan_digits 10 (length s) s 0 O))
  | [] => 0
  end.

(** ** [fprint_to_string] *)

Definition BASE_SIZE : nat := 24.

(** The text [BASEFMT = "(%u,%u,%u,"] produces for the three header fields
    (the two [int32_t] fields are printed as [unsigned]). *)
Definition fmt_base (songlen bit_rate num_errors : Z) : list ascii :=
  "("%char :: fmt_u (u32 songlen)
    ++ ","%char :: fmt_u (u32 bit_rate)
    ++ ","%char :: fmt_u (u32 num_errors) ++ [","%char].

(** The buffer [fprint_to_string] returns ([None] is the NULL record). The
    state of the three loops is the buffer and [out_len]. *)
Definition fprint_to_string (fp : option FPrint) : list ascii :=
  match fp with
  | None => strncpy [NUL] 0 [] 1
  | Some fp =>
      let cprint_len := cprint_len fp in
      let '(base, base_sz) :=
        snprintf (repeat NUL BASE_SIZE) 0 BASE_SIZE
                 (fmt_base (songlen fp) (bit_rate fp) (num_errors fp)) in
      let str_sz :=
        base_sz + (2 * Z.of_nat R_SIZE + 1) + (2 * Z.of_nat DOM_SIZE + 1)
        + 12 * cprint_len + 2 in
      let tmpstr := repeat NUL (Z.to_nat str_sz) in
      let tmpstr := strncpy tmpstr 0 base (Z.to_nat str_sz) in
      let out_len := base_sz in
      let hex (a : list Z) (i : nat) (st : list ascii * Z) :=
        let '(tmpstr, out_len) := st in
        let '(tmpstr, n) := snprintf tmpstr (Z.to_nat out_len) 3 (fmt_02X (rd a i)) in
        (tmpstr, out_len + n) in
      let '(tmpstr, out_len) := for_loop R_SIZE 0 (hex (r fp)) (tmpstr, out_len) in
      let tmpstr := strncpy tmpstr (Z.to_nat out_len) [","%char] 2 in
      let out_len := out_len + 1 in
      let '(tmpstr, out_len) := for_loop DOM_SIZE 0 (hex (dom fp)) (tmpstr, out_len) in
      let tmpstr := strncpy tmpstr (Z.to_nat out_len) [","%char] 2 in
      let out_len := out_len + 1 in
      let '(tmpstr, out_len) :=
        for_loop (Z.to_nat cprint_len) 0
          (fun j st =>
             let '(tmpstr, out_len) := st in
             let '(tmpstr, n) :=
               snprintf tmpstr (Z.to_nat out_len) 13
                        (fmt_d (rd (cprint fp) j) ++ [" "%char]) in
             (tmpstr, out_len + n))
          (tmpstr, out_len) in
      let out_len := out_len - 1 in
      let tmpstr := strncpy tmpstr (Z.to_nat out_len) [")"%char] 2 in
      let out_len := out_len + 1 in
      firstn (Z.to_nat (out_len + 1)) tmpstr
  end.

(** ** [fprint_from_string] *)

(** [sscanf(fp_str, "(%u,%u,%u,", ...)] when it returns 3. *)
Definition sscanf_base (s : list ascii) : option (Z * Z * Z) :=
  match scan_lit "("%char s with
  | None => None
  | Some s =>
  match scan_unsigned 10 (length s) s with
  | None => None
  | Some (songlen, s) =>
  match scan_lit ","%char s with
  | None => None
  | Some s =>
  match scan_unsigned 10 (length s) s with
  | None => None
  | Some (bit_rate, s) =>
  match scan_lit ","%char s with
  | None => None
  | Some s =>
  match scan_unsigned 10 (length s) s with
  | None => None
  | Some (num_errors, _) => Some (u32 songlen, u32 bit_rate, u32 num_errors)
  end end end end end end.

(** [while (n_commas < 3) if (fp_str[fp_str_ix++] == ',') n_commas++;]
    The index after the third comma; [None] when the string ends first (the
    code then reads past its end). *)
Fixpoint skip_commas (fuel : nat) (s : list ascii) (n_commas : nat) (ix : nat)
  : option nat :=
  if (3 <=? n_commas)%nat then Some ix
  else
    match fuel with
    | O => None
    | Datatypes.S f =>
        if Ascii.eqb (char_at s ix) ","%char
        then skip_commas f s (Datatypes.S n_commas) (Datatypes.S ix)
        else skip_commas f s n_commas (Datatypes.S ix)
    end.

(** [sscanf(&fp_str[ix], "%2hhX...", ...)] with [n] conversions: the bytes
    read when all [n] succeed. *)
Fixpoint sscanf_hex (n : nat) (s : list ascii) : option (list Z) :=
  match n with
  | O => Some []
  | Datatypes.S n' =>
      match scan_unsigned 16 2 s with
      | None => None
      | Some (v, rest) =>
          match sscanf_hex n' rest with
          | None => None
          | Some vs => Some (u8 v :: vs)
          end
      end
  end.

(** The loops over the [r] and [dom] blocks: [per] conversions per call,
    the index advanced by [2 * per] after each call. *)
Fixpoint scan_block (calls per : nat) (s : list ascii) (ix : nat)
  : option (list Z * nat) :=
  match calls with
  | O => Some ([], ix)
  | Datatypes.S c =>
      match sscanf_hex per (skipn ix (c_str s)) with
      | None => None
      | Some vs =>
          match scan_block c per s (ix + 2 * per) with
          | None => None
          | Some (ws, ix') => Some (vs ++ ws, ix')
          end
      end
  end.

(** The state of the codeword loop. *)
Record cp_state : Type := mkCpState {
  st_cprint : list Z;        (* cprint[0 .. cprint_ix) *)
  st_cpn_str : list ascii;   (* cpn_str[0 .. cp_char_ix) *)
  st_ix : nat                (* fp_str_ix *)
}.

(** The codeword loop, [c] the character under examination; one character
    is consumed per iteration, so the length of the string bounds it.
    [None] is the [error] exit. *)
Fixpoint scan_cprint (fuel : nat) (s : list ascii) (c : ascii) (st : cp_state)
  : option (list Z) :=
  match fuel with
  | O => None
  | Datatypes.S f =>
      if Ascii.eqb c NUL then Some (st_cprint st)
      else if (12 <=? length (st_cpn_str st))%nat then None
      else if Ascii.eqb c " "%char || Ascii.eqb c ")"%char then
        let cprint := st_cprint st ++ [i32 (strtol10 (st_cpn_str st))] in
        if Ascii.eqb c ")"%char then Some cprint
        else scan_cprint f s (char_at s (st_ix st))
                         (mkCpState cprint [] (Datatypes.S (st_ix st)))
      else if (Nat.leb 48 (nat_of_ascii c) && Nat.leb (nat_of_ascii c) 57)
              || (Nat.eqb (length (st_cpn_str st)) 0 && Ascii.eqb c "-"%char) then
        scan_cprint f s (char_at s (st_ix st))
                    (mkCpState (st_cprint st) (st_cpn_str st ++ [c])
                               (Datatypes.S (st_ix st)))
      else None
  end.

Definition fprint_from_string (fp_str : list ascii) : option FPrint :=
  let fp_str_len := strlen fp_str in
  if fp_str_len <? 11 + 2 * Z.of_nat R_SIZE + 2 * Z.of_nat DOM_SIZE then None
  else
    match sscanf_base (c_str fp_str) with
    | None => None
    | Some (songlen, bit_rate, num_errors) =>
    match skip_commas (length (c_str fp_str)) (c_str fp_str) 0 0 with
    | None => None
    | Some fp_str_ix =>
    match scan_block (R_SIZE / 4) 4 fp_str fp_str_ix with
    | None => None
    | Some (r, fp_str_ix) =>
    if negb (Ascii.eqb (char_at (c_str fp_str) fp_str_ix) ","%char) then None
    else
    match scan_block (DOM_SIZE / 2) 2 fp_str (Datatypes.S fp_str_ix) with
    | None => None
    | Some (dom, fp_str_ix) =>
    if negb (Ascii.eqb (char_at (c_str fp_str) fp_str_ix) ","%char) then None
    else
    let fp_str_ix := Datatypes.S fp_str_ix in
    match scan_cprint (Datatypes.S (length (c_str fp_str))) (c_str fp_str)
                      (char_at (c_str fp_str) fp_str_ix)
                      (mkCpState [] [] (Datatypes.S fp_str_ix)) with
    | None => None
    | Some cp =>
        let cprint_len := Z.of_nat (length cp) in
        let fp := new_fprint cprint_len in
        Some (mkFPrint cprint_len songlen (i32 bit_rate) (i32 num_errors) r dom
                       (cp ++ skipn (length cp) (cprint fp)))
    end end end end end.

(* ================================================================== *)
(** * Index operators ([pgfprint.c]) *)
(* ================================================================== *)

Definition MAX_KEY_CP_LEN : Z := 240.
Definition KEY_CP_START_IX1 : Z := 464.
Definition KEY_CP_END_IX1 : Z := 704.
Definition KEY_CP_START_IX2 : Z := 704.
Definition KEY_CP_END_IX2 : Z := 944.

(** An entry of the vector handed to the operators: its key ([None] when
    the datum is NULL or empty) and whether its page is a leaf
    ([GIST_LEAF]). *)
Record GISTENTRY : Type := mkGISTENTRY {
  key : option FPrint;
  on_leaf_page : bool
}.

(** The result of [fprint_picksplit]: the offsets written to [spl_left] and
    [spl_right], their counts, and the two page keys. *)
Record GIST_SPLITVEC : Type := mkSPLITVEC {
  spl_left : list Z;
  spl_nleft : Z;
  spl_ldatum : FPrintUnion;
  spl_right : list Z;
  spl_nright : Z;
  spl_rdatum : FPrintUnion
}.

(** [struct Match]. *)
Record Match : Type := mkMatch {
  ix1 : Z;               (* int *)
  ix2 : Z;               (* int *)
  songlen_diff : Z;      (* uint32_t *)
  val : spec_float       (* double *)
}.

Definition cmp_matches (m1 m2 : Match) : Z :=
  if songlen_diff m1 >? songlen_diff m2 then 1
  else if songlen_diff m1 <? songlen_diff m2 then -1
  else if fgt (val m1) (val m2) then 1
  else if flt (val m1) (val m2) then -1
  else 0.

(** An array of [n] codewords that keeps the first entries of [old]; the
    entries the allocator adds are not initialised and hold [junk]. *)
Definition resize (junk : nat -> Z) (old : list Z) (n : nat) : list Z :=
  firstn n old ++ map junk (seq (length old) (n - length old)).

(** [memcpy(dst, src, CALC_FP_SIZE(cprint_len))] into a buffer of that
    size: the header and [max(cprint_len, 1)] codewords. *)
Definition copy_key (a : FPrint) : FPrint :=
  mkFPrint (cprint_len a) (songlen a) (bit_rate a) (num_errors a) (r a) (dom a)
           (firstn (Z.to_nat (max_st (cprint_len a) 1)) (cprint a)).

Definition copy_ukey (u : FPrintUnion) : FPrintUnion :=
  mkFPrintUnion (u_cprint_len u) (min_songlen u) (u_bit_rate u) (max_songlen u)
                (u_r u) (u_dom u)
                (firstn (Z.to_nat (max_st (u_cprint_len u) 1)) (u_cprint u)).

Section Host.
(** What the host supplies and the C text leaves open: [pow] of the C
    library, the order [qsort] gives to elements that compare equal, and
    the contents of memory that [malloc] and [realloc] return
    ([junk site k] is the [k]-th codeword of the block allocated at
    [site]). Allocations are taken to succeed. *)
Variable c_pow : spec_float -> spec_float -> spec_float.
Variable qsort : (Match -> Match -> Z) -> list Match -> list Match.
Variable junk : nat -> nat -> Z.

(** [deserialize_fprint]: a copy of the key cut to at most 240 codewords;
    [None] for a NULL datum or a [cprint_len] of 100000 or more. *)
Definition deserialize_fprint (site : nat) (toasted : option FPrint)
  : option FPrint :=
  match toasted with
  | None => None
  | Some fp =>
      if cprint_len fp <? 100000 then
        let key_cp_len := min_st MAX_KEY_CP_LEN (cprint_len fp) in
        let start :=
          if cprint_len fp >=? KEY_CP_END_IX2 then KEY_CP_START_IX2
          else if cprint_len fp >=? KEY_CP_END_IX1 then KEY_CP_START_IX1
          else 0 in
        Some (mkFPrint key_cp_len (songlen fp) (bit_rate fp) (num_errors fp)
                (r fp) (dom fp)
                (resize (junk site)
                   (firstn (Z.to_nat key_cp_len)
                           (skipn (Z.to_nat start) (cprint fp)))
                   (Z.to_nat (max_st key_cp_len 1))))
      else None
  end.

(** [check_union_size]: the union grown to the length of [fp_n], at most
    240 codewords. *)
Definition check_union_size (site : nat) (fp_u : FPrintUnion) (fp_n : FPrint)
  : FPrintUnion :=
  let n_cplen := min_st (cprint_len fp_n) MAX_KEY_CP_LEN in
  if n_cplen >? u_cprint_len fp_u then
    mkFPrintUnion n_cplen (min_songlen fp_u) (u_bit_rate fp_u)
                  (max_songlen fp_u) (u_r fp_u) (u_dom fp_u)
                  (resize (junk site) (u_cprint fp_u)
                          (Z.to_nat (max_st n_cplen 1)))
  else fp_u.

(** The macros [ASSIGN_IX] and [ASSIGN_IXU]: the offset appended to a
    side, the union of that side grown and merged. *)
Definition ASSIGN_IX (ix : nat) (fpx : FPrint) (fp_u : FPrintUnion)
           (side : list Z) : option (FPrintUnion * list Z) :=
  let side := side ++ [u16 (Z.of_nat ix + 1)] in
  let fp_u := check_union_size (2 * ix + 1) fp_u fpx in
  match fprint_merge_one fp_u fpx with
  | Some fp_u => Some (fp_u, side)
  | None => None
  end.

Definition ASSIGN_IXU (ix : nat) (fpux : FPrintUnion) (fp_u : FPrintUnion)
           (side : list Z) : option (FPrintUnion * list Z) :=
  let side := side ++ [u16 (Z.of_nat ix + 1)] in
  let fp_u := check_union_size (2 * ix + 1) fp_u (as_fprint fpux) in
  match fprint_merge_one_union fp_u fpux with
  | Some fp_u => Some (fp_u, side)
  | None => None
  end.

(** The assignment of entry [ix], by the macro for the kind of split. *)
Definition assign (leaf_split : bool) (ix : nat) (fp1 : FPrint)
           (fp_u : FPrintUnion) (side : list Z) :=
  if leaf_split then ASSIGN_IX ix fp1 fp_u side
  else ASSIGN_IXU ix (as_union fp1) fp_u side.

(** [WISH_F(a, b, 0.1)]; the cube is taken in [int]. *)
Definition WISH_F (a b : Z) : spec_float :=
  F64.mul (fneg (F64.of_Z (i32 (i32 (i32 (a - b) * (a - b)) * (a - b)))))
          (F64.lit 1 10).

(** The two sides while entries are assigned. *)
Record split_state : Type := mkSplit {
  left : list Z;
  right : list Z;
  fp_ul : FPrintUnion;
  fp_ur : FPrintUnion
}.

Definition to_left (leaf_split : bool) (k : nat) (fp1 : FPrint)
           (s : split_state) : option split_state :=
  match assign leaf_split k fp1 (fp_ul s) (left s) with
  | Some (u, side) => Some (mkSplit side (right s) u (fp_ur s))
  | None => None
  end.

Definition to_right (leaf_split : bool) (k : nat) (fp1 : FPrint)
           (s : split_state) : option split_state :=
  match assign leaf_split k fp1 (fp_ur s) (right s) with
  | Some (u, side) => Some (mkSplit (left s) side (fp_ul s) u)
  | None => None
  end.

(** The bounds of an entry: its [songlen] on a leaf page, its envelope
    (read through the cast to [FPrintUnion]) otherwise. *)
Definition lower (leaf_split : bool) (fp : FPrint) : Z :=
  if leaf_split then songlen fp else min_songlen (as_union fp).
Definition upper (leaf_split : bool) (fp : FPrint) : Z :=
  if leaf_split then songlen fp else max_songlen (as_union fp).

(** The state of the loop that deserialises entries 2 .. maxoff. *)
Record seed_state : Type := mkSeeds {
  seed_left : nat;
  seed_right : nat;
  min_sl : Z;
  max_sl : Z;
  allisequal : bool
}.

Definition seed_step (leaf_split : bool) (ix : nat) (fp1 : FPrint)
           (s : seed_state) : seed_state :=
  if min_sl s >? lower leaf_split fp1 then
    mkSeeds ix (seed_right s) (lower leaf_split fp1) (max_sl s) false
  else if max_sl s <? upper leaf_split fp1 then
    mkSeeds (seed_left s) ix (min_sl s) (upper leaf_split fp1) false
  else s.

Fixpoint scan_entries (leaf_split : bool) (ix : nat) (entv : list GISTENTRY)
         (raw_vec : list FPrint) (s : seed_state)
  : option (list FPrint * seed_state) :=
  match entv with
  | [] => Some (raw_vec, s)
  | e :: rest =>
      match deserialize_fprint (2 * ix) (key e) with
      | None => None
      | Some fp1 =>
          scan_entries leaf_split (Datatypes.S ix) rest (raw_vec ++ [fp1])
                       (seed_step leaf_split ix fp1 s)
      end
  end.

Definition raw (raw_vec : list FPrint) (k : nat) : FPrint :=
  nth k raw_vec (new_fprint 0).

(** A side's first key: a copy of the seed with both ends of the envelope
    set to [sl]. *)
Definition seed_union (fp : FPrint) (sl : Z) : FPrintUnion :=
  let u := as_union (copy_key fp) in
  mkFPrintUnion (u_cprint_len u) sl (u_bit_rate u) sl (u_r u) (u_dom u)
                (u_cprint u).

(** The pairwise matches of the all-equal case, for [k < l]. *)
Definition pair_matches (leaf_split : bool) (raw_vec : list FPrint)
  : list Match :=
  let n := length raw_vec in
  flat_map
    (fun k =>
       map (fun l =>
              let fp1 := raw raw_vec k in
              let fp2 := raw raw_vec l in
              mkMatch (Z.of_nat k) (Z.of_nat l) 0
                (if leaf_split then match_cpfm c_pow (Some fp1) (Some fp2)
                 else F64.of_float (match_fprint_merge fp1 (as_union fp2))))
           (seq (Datatypes.S k) (n - Datatypes.S k)))
    (seq 0 n).

(** The middle split of the all-equal case: entries [1 .. n-2] in order,
    the first [max_clust_sz - 1] of them to the left. *)
Fixpoint split_middle (leaf_split : bool) (raw_vec : list FPrint)
         (max_clust_sz : Z) (ks : list nat) (s : split_state)
  : option split_state :=
  match ks with
  | [] => Some s
  | k :: ks' =>
      let fp1 := raw raw_vec k in
      match (if Z.of_nat k <? max_clust_sz then to_left leaf_split k fp1 s
             else to_right leaf_split k fp1 s) with
      | None => None
      | Some s' => split_middle leaf_split raw_vec max_clust_sz ks' s'
      end
  end.

(** The general case: the sort key of entry [k]. *)
Definition entry_match (leaf_split : bool) (min_songlen max_songlen : Z)
           (ul ur : FPrintUnion) (old : Match) (k : nat) (fp1 : FPrint)
  : Match :=
  let tmatch_left := F64.of_float (try_match_merges ur ul fp1) in
  let tmatch_right := F64.of_float (try_match_merges ul ur fp1) in
  mkMatch (Z.of_nat k) (ix2 old)
    (min_u32 (u32 (upper leaf_split fp1 - min_songlen))
             (u32 (max_songlen - lower leaf_split fp1)))
    (fmin tmatch_left tmatch_right).

(** The assignment loop of the general case over the sorted matches. *)
Fixpoint split_general (leaf_split : bool) (raw_vec : list FPrint)
         (min_songlen max_songlen : Z) (sl sr : nat)
         (ms : list Match) (s : split_state) : option split_state :=
  match ms with
  | [] => Some s
  | m :: ms' =>
      let k := Z.to_nat (ix1 m) in
      if Nat.eqb k sl || Nat.eqb k sr then
        split_general leaf_split raw_vec min_songlen max_songlen sl sr ms' s
      else
        let fp1 := raw raw_vec k in
        let dl := u32 (upper leaf_split fp1 - min_songlen) in
        let dr := u32 (max_songlen - lower leaf_split fp1) in
        let n_left := Z.of_nat (length (left s)) in
        let n_right := Z.of_nat (length (right s)) in
        let next :=
          if dl <? dr then to_left leaf_split k fp1 s
          else if dl >? dr then to_right leaf_split k fp1 s
          else
            let tmatch_left :=
              F64.of_float (try_match_merges (fp_ur s) (fp_ul s) fp1) in
            let tmatch_right :=
              F64.of_float (try_match_merges (fp_ul s) (fp_ur s) fp1) in
            if flt tmatch_left (F64.add tmatch_right (WISH_F n_left n_right))
            then to_left leaf_split k fp1 s
            else if fgt tmatch_left tmatch_right then to_right leaf_split k fp1 s
            else if n_left <? n_right then to_left leaf_split k fp1 s
            else to_right leaf_split k fp1 s in
        match next with
        | None => None
        | Some s' =>
            split_general leaf_split raw_vec min_songlen max_songlen sl sr ms' s'
        end
  end.

(** [picksplit_assign]: the two keys and the counts handed back. *)
Definition picksplit_assign (s : split_state) : GIST_SPLITVEC :=
  mkSPLITVEC (left s) (Z.of_nat (length (left s))) (copy_ukey (fp_ul s))
             (right s) (Z.of_nat (length (right s))) (copy_ukey (fp_ur s)).

(** [fprint_picksplit] on the entries [entv[1 .. maxoff]]. [None] stands
    for the exits through [elog(ERROR, ...)] and for an empty vector. The
    [Match] records are allocated without being initialised; every field
    is written before it is read ([ix2] is not read in the general case),
    so [blank] stands for a fresh one. *)
Definition fprint_picksplit (entv : list GISTENTRY) : option GIST_SPLITVEC :=
  match entv with
  | [] => None
  | e1 :: rest =>
  match deserialize_fprint 0 (key e1) with
  | None => None
  | Some fp1 =>
  let leaf_split := on_leaf_page e1 in
  match scan_entries leaf_split 1 rest [fp1]
          (mkSeeds 0 0 (lower leaf_split fp1) (upper leaf_split fp1) true) with
  | None => None
  | Some (raw_vec, seeds) =>
  let n_entries := Z.of_nat (length entv) in
  let max_clust_sz :=
    i32 (if n_entries mod 2 =? 0 then Z.shiftr n_entries 1
         else Z.shiftr n_entries 1 + 1) in
  let min_songlen := min_sl seeds in
  let max_songlen := max_sl seeds in
  if n_entries <? 3 then
    if n_entries =? 1 then None
    else
      let '(i1, i2) :=
        if allisequal seeds then (O, 1%nat)
        else (seed_left seeds, seed_right seeds) in
      let fp1 := raw raw_vec i1 in
      let fp2 := raw raw_vec i2 in
      let ul := as_union (copy_key fp1) in
      let ur := as_union (copy_key fp2) in
      let ul := if leaf_split then seed_union fp1 (songlen fp1) else ul in
      let ur := if leaf_split then seed_union fp2 (songlen fp2) else ur in
      Some (mkSPLITVEC [u16 (Z.of_nat i1 + 1)] 1 ul
                       [u16 (Z.of_nat i2 + 1)] 1 ur)
  else
    let n := length raw_vec in
    let n_matches := (n * (n - 1) / 2)%nat in
    let blank := mkMatch 0 0 0 F64.zero in
    let general (matches : list Match) (sl sr : nat) :=
      let ul := seed_union (raw raw_vec sl) min_songlen in
      let ur := seed_union (raw raw_vec sr) max_songlen in
      let matches :=
        map (fun k =>
               entry_match leaf_split min_songlen max_songlen ul ur
                           (nth k matches blank) k (raw raw_vec k))
            (seq 0 n) in
      let matches := qsort cmp_matches matches in
      match split_general leaf_split raw_vec min_songlen max_songlen sl sr
              matches
              (mkSplit [u16 (Z.of_nat sl + 1)] [u16 (Z.of_nat sr + 1)] ul ur)
      with
      | None => None
      | Some s => Some (picksplit_assign s)
      end in
    if allisequal seeds then
      let matches := qsort cmp_matches (pair_matches leaf_split raw_vec) in
      if fgt (val (nth (n_matches - 1) matches blank)) (F64.lit 4 10) then
        let m := nth 0 matches blank in
        general matches (Z.to_nat (ix1 m)) (Z.to_nat (ix2 m))
      else
        let ul := seed_union (raw raw_vec 0) min_songlen in
        let ur := seed_union (raw raw_vec (n - 1)) max_songlen in
        match split_middle leaf_split raw_vec max_clust_sz
                (seq 1 (n - 2))
                (mkSplit [1] [u16 n_entries] ul ur) with
        | None => None
        | Some s => Some (picksplit_assign s)
        end
    else
      general (repeat blank n_matches) (seed_left seeds) (seed_right seeds)
  end end end.
End Host.

(** ** [fprint_same] *)

(** The first [n] bytes of [x], least significant first. *)
Definition le_bytes (n : nat) (x : Z) : list Z :=
  map (fun k => byte_of x (Z.of_nat k)) (seq 0 n).

(** The binary image of a key: the struct as it lies in memory; [pad] are
    the two bytes between [dom] and [cprint]. *)
Definition fp_image (pad : list Z) (u : FPrintUnion) : list Z :=
  le_bytes 8 (u_cprint_len u) ++ le_bytes 4 (min_songlen u)
    ++ le_bytes 4 (u32 (u_bit_rate u)) ++ le_bytes 4 (max_songlen u)
    ++ u_r u ++ u_dom u ++ firstn 2 pad
    ++ flat_map (fun c => le_bytes 4 (u32 c)) (u_cprint u).

(** [cprint_len] read from an image. *)
Definition image_cprint_len (g : list Z) : Z :=
  fold_right (fun b acc => b + 256 * acc) 0 (firstn 8 g).

(** [memcmp(a, b, n)]: the sign of the first difference. *)
Fixpoint memcmp (a b : list Z) (n : nat) : Z :=
  match n with
  | O => 0
  | Datatypes.S n' =>
      let x := hd 0 a in
      let y := hd 0 b in
      if x <? y then -1
      else if x >? y then 1
      else memcmp (tl a) (tl b) n'
  end.

(** [fprint_same] on the images of its two arguments; the value is what
    the code stores in [*res]. *)
Definition fprint_same (g0 g1 : list Z) : bool :=
  let key_fp1 := g0 in
  let leaf_key_fp2 := g1 in
  if image_cprint_len leaf_key_fp2 =? image_cprint_len key_fp1 then
    negb (memcmp leaf_key_fp2 key_fp1
                 (Z.to_nat (CALC_FP_SIZE (image_cprint_len key_fp1))) =? 0)
  else false.

(** A sorting function to stand for [qsort] where one is needed: insertion
    sort, which keeps the order of elements that compare equal. *)
Fixpoint insert_match (cmp : Match -> Match -> Z) (m : Match) (l : list Match)
  : list Match :=
  match l with
  | [] => [m]
  | h :: t => if cmp m h <=? 0 then m :: l else h :: insert_match cmp m t
  end.

Definition insertion_sort (cmp : Match -> Match -> Z) (l : list Match)
  : list Match :=
  fold_right (insert_match cmp) [] l.

(** A function to stand for [pow] where one is needed; the code only calls
    [pow(cp, 3)], and this one cubes by two multiplications. *)
Definition cube_pow (x y : spec_float) : spec_float :=
  F64.mul (F64.mul x x) x.

(** Freshly allocated memory that happens to hold zeros. *)
Definition zero_junk (site k : nat) : Z := 0.

(* ================================================================== *)
(** * Predicates and inputs used by the properties *)
(* ================================================================== *)

(** Values that are not negative: [+0], positive finite, [+inf], or NaN. *)
Definition nonneg_or_nan (x : spec_float) : bool :=
  match x with
  | S754_zero false | S754_finite false _ _ | S754_infinity false | S754_nan => true
  | _ => false
  end.

(** The bytes of [u] with those of [a] OR-ed into the first [n]. *)
Definition or_bytes (n : nat) (u a : list Z) (j : nat) : Z :=
  if (j <? n)%nat then Z.lor (rd u j) (rd a j) else rd u j.

(** [x] is [u] with the first [n] entries of [a] OR-ed in (byte arrays, and
    codeword arrays). *)
Definition merged (n : nat) (u a x : list Z) : Prop :=
  length x = length u /\ Forall is_u8 x /\ forall j, rd x j = or_bytes n u a j.

Definition merged_cp (n : nat) (u a x : list Z) : Prop :=
  length x = length u /\ Forall is_i32 x /\ forall j, rd x j = or_bytes n u a j.

(** The first [n] entries of [x] are covered by those of [y]:
    [x[i] & y[i] = x[i]]. *)
Definition covers (n : nat) (x y : list Z) : Prop :=
  forall i, (i < n)%nat -> Z.land (rd x i) (rd y i) = rd x i.

Definition covers_b (n : nat) (x y : list Z) : bool :=
  forallb (fun i => Z.land (rd x i) (rd y i) =? rd x i) (seq 0 n).

(** A record is covered by a key: [r], [dom] and the [cprint] prefix of the
    record's length bit by bit, [songlen] by the envelope. *)
Record covered (u : FPrintUnion) (a : FPrint) : Prop := {
  cov_r : covers R_SIZE (r a) (u_r u);
  cov_dom : covers DOM_SIZE (dom a) (u_dom u);
  cov_len : cprint_len a <= u_cprint_len u;
  cov_cprint : covers (Z.to_nat (cprint_len a)) (cprint a) (u_cprint u);
  cov_songlen : min_songlen u <= songlen a <= max_songlen u
}.

Definition covered_b (u : FPrintUnion) (a : FPrint) : bool :=
  covers_b R_SIZE (r a) (u_r u) && covers_b DOM_SIZE (dom a) (u_dom u)
  && (cprint_len a <=? u_cprint_len u)
  && covers_b (Z.to_nat (cprint_len a)) (cprint a) (u_cprint u)
  && (min_songlen u <=? songlen a) && (songlen a <=? max_songlen u).

(** Decision procedures for the well-formedness predicates. *)
Definition all_in (lo hi : Z) (l : list Z) : bool :=
  forallb (fun x => (lo <=? x) && (x <? hi)) l.

Definition valid_fprint_b (a : FPrint) : bool :=
  Nat.eqb (length (r a)) R_SIZE && Nat.eqb (length (dom a)) DOM_SIZE
  && (cprint_len a =? Z.of_nat (length (cprint a)))
  && (1 <=? cprint_len a) && (cprint_len a <=? INT_MAX)
  && all_in 0 (2 ^ 32) [songlen a]
  && all_in (- 2 ^ 31) (2 ^ 31) [bit_rate a; num_errors a]
  && all_in 0 (2 ^ 8) (r a) && all_in 0 (2 ^ 8) (dom a)
  && all_in (- 2 ^ 31) (2 ^ 31) (cprint a).

Definition valid_union_b (u : FPrintUnion) : bool :=
  Nat.eqb (length (u_r u)) R_SIZE && Nat.eqb (length (u_dom u)) DOM_SIZE
  && (u_cprint_len u =? Z.of_nat (length (u_cprint u)))
  && (1 <=? u_cprint_len u) && (u_cprint_len u <=? INT_MAX)
  && all_in 0 (2 ^ 32) [min_songlen u; max_songlen u]
  && all_in (- 2 ^ 31) (2 ^ 31) [u_bit_rate u]
  && all_in 0 (2 ^ 8) (u_r u) && all_in 0 (2 ^ 8) (u_dom u)
  && all_in (- 2 ^ 31) (2 ^ 31) (u_cprint u).

(** The score [match_cpfm] gives to a record against itself: the combiner
    at [fm = cp = 1]. *)
Definition self_score : spec_float := combiner F64.one F64.one F64.one.

(** The Tanimoto score as the specification words it: both sums over the
    compared prefix, [tcomm = 0] giving 0 and [tdiff = 0] giving 1. *)
Definition tanimoto_sums (cp1 cp2 : list Z) (n : nat) : Z * Z :=
  for_loop n 0
    (fun i st =>
       let '(tdiff, tcomm) := st in
       (tdiff + pop32 (Z.land (u32 (rd cp1 i)) (u32 (rd cp2 i))),
        tcomm + pop32 (Z.lor (u32 (rd cp1 i)) (u32 (rd cp2 i)))))
    (0, 0).

Definition match_chromat_spec (cp1 : list Z) (cp1_len : Z)
                              (cp2 : list Z) (cp2_len : Z) : spec_float :=
  let '(tdiff, tcomm) := tanimoto_sums cp1 cp2 (Z.to_nat (Z.min cp1_len cp2_len)) in
  if tcomm =? 0 then F64.zero
  else if tdiff =? 0 then F64.one
  else F64.div (F64.of_Z tdiff) (F64.of_Z tcomm).

(** An entry of a key is within the bounds [deserialize_fprint] accepts. *)
Definition entry_ok (e : GISTENTRY) : Prop :=
  exists fp, key e = Some fp /\ 0 <= cprint_len fp < 100000.

(** What [deserialize_fprint] returns: at most 240 codewords in an array
    of [max(cprint_len, 1)] entries. *)
Definition key_ok (fp : FPrint) : Prop :=
  0 <= cprint_len fp <= 240
  /\ Z.of_nat (length (cprint fp)) = Z.max (cprint_len fp) 1.

Definition union_ok (u : FPrintUnion) : Prop :=
  0 <= u_cprint_len u <= 240
  /\ u_cprint_len u <= Z.of_nat (length (u_cprint u)).

(** Both unions are well formed and both sides hold an entry. *)
Definition split_ok (s : split_state) : Prop :=
  union_ok (fp_ul s) /\ union_ok (fp_ur s)
  /\ (1 <= length (left s))%nat /\ (1 <= length (right s))%nat.


(** ** Sample inputs *)

(** A record with a negative codeword. *)
Definition sample_fp : FPrint :=
  mkFPrint 3 200 128 0 (repeat 0xA5 348) (repeat 0x3C 66)
           [1234; -2147483648; 0].

(** The key made of [sample_fp] alone. *)
Definition sample_union : FPrintUnion :=
  mkFPrintUnion 3 200 128 200 (repeat 0xA5 348) (repeat 0x3C 66)
                [1234; -2147483648; 0].

(** A record whose header prints in 27 characters: [bit_rate] and
    [num_errors] are -1 and print as 4294967295. *)
Definition wide_header_fp : FPrint :=
  mkFPrint 3 200 (-1) (-1) (repeat 0xA5 348) (repeat 0x3C 66)
           [1234; -2147483648; 0].

(** Two keys over the same [songlen], one with an empty [r], one with a
    full [r]. *)
Definition empty_key : FPrintUnion :=
  mkFPrintUnion 1 100 0 100 (repeat 0 348) (repeat 0 66) [0].
Definition full_key : FPrintUnion :=
  mkFPrintUnion 1 100 0 100 (repeat 255 348) (repeat 0 66) [0].

(** A key with every bit of [r] and [dom] set, four codewords and a wider
    envelope: it covers [sample_union]. *)
Definition wide_key : FPrintUnion :=
  mkFPrintUnion 4 150 128 250 (repeat 255 348) (repeat 255 66) [-1; -1; -1; 7].

(** A key whose [min_songlen] is 0 and a record it covers. *)
Definition zero_min_key : FPrintUnion :=
  mkFPrintUnion 1 0 0 10 (repeat 0 348) (repeat 0 66) [0].
Definition short_song : FPrint :=
  mkFPrint 1 5 0 0 (repeat 0 348) (repeat 0 66) [0].

(** Four leaf entries with [songlen] 100, 200, 101 and 103. *)
Definition leaf_entry (sl : Z) : GISTENTRY :=
  mkGISTENTRY
    (Some (mkFPrint 3 sl 128 0 (repeat 0xA5 348) (repeat 0x3C 66)
                    [1234; -2147483648; 0]))
    true.
Definition four_leaves : list GISTENTRY :=
  [leaf_entry 100; leaf_entry 200; leaf_entry 101; leaf_entry 103].

(** The images of two keys of one codeword that differ in [min_songlen]. *)
Definition image_a : list Z := fp_image [0; 0] empty_key.
Definition image_b : list Z := fp_image [0; 0] zero_min_key.

(** ** The canonical text form *)

(** Characters of the text form. *)
Definition dec_char (c : ascii) : Prop := exists d, 0 <= d < 10 /\ c = digit_char d.
Definition hex_digit_char (c : ascii) : Prop := exists d, 0 <= d < 16 /\ c = hex_char d.

(** A text without NUL characters. *)
Definition no_nul (t : list ascii) : Prop :=
  Forall (fun c => Ascii.eqb c NUL = false) t.

(** The text of a block of bytes, of the codewords (each followed by a
    space), and of a whole record: header, the two blocks, the codewords
    with the last space replaced by the closing parenthesis. *)
Definition hex_text (l : list Z) : list ascii := flat_map fmt_02X l.
Definition cprint_text (l : list Z) : list ascii :=
  flat_map (fun c => fmt_d c ++ [" "%char]) l.
Definition canonical_text (x : FPrint) : list ascii :=
  fmt_base (songlen x) (bit_rate x) (num_errors x)
    ++ hex_text (r x) ++ ","%char :: hex_text (dom x)
    ++ ","%char :: removelast (cprint_text (cprint x)) ++ [")"%char].

(** ** Tactics *)

(** Bits of bytes at indices that are negative or at least 8 are false;
    [high] is the lemma for the second case. *)
Ltac byte_bits high :=
  repeat match goal with
    | |- context [Z.testbit ?b ?i] =>
        first [ rewrite (Z.testbit_neg_r b i) by lia
              | rewrite (high b i ltac:(assumption)) by lia ]
    end;
  rewrite ?orb_false_r, ?orb_false_l, ?andb_false_r, ?andb_true_r.

(* ================================================================== *)
(** * Properties *)
(* ================================================================== *)

(** ** Machine integers *)

Lemma land_ones_low (n x : Z) : 0 <= n -> 0 <= x < 2 ^ n -> Z.land (Z.ones n) x = x.
Proof.
  intros Hn Hx. rewrite Z.land_comm, Z.land_ones by assumption.
  apply Z.mod_small; assumption.
Qed.

Lemma lxor_range (n x y : Z) :
  0 <= n -> 0 <= x < 2 ^ n -> 0 <= y < 2 ^ n -> 0 <= Z.lxor x y < 2 ^ n.
Proof.
  intros Hn Hx Hy.
  assert (Hp : 0 < 2 ^ n) by (apply Z.pow_pos_nonneg; lia).
  assert (H0 : 0 <= Z.lxor x y) by (apply Z.lxor_nonneg; lia).
  split; [assumption|].
  destruct (Z.eq_dec (Z.lxor x y) 0) as [E|E]; [rewrite E; lia|].
  assert (Hn0 : 0 < n).
  { destruct (Z.eq_dec n 0) as [->|]; [|lia].
    exfalso. apply E. replace x with 0 by lia. replace y with 0 by lia.
    reflexivity. }
  apply Z.log2_lt_pow2; [lia|].
  eapply Z.le_lt_trans; [apply Z.log2_lxor; lia|].
  apply Z.max_lub_lt.
  - destruct (Z.eq_dec x 0) as [->|]; [simpl; lia|].
    apply (proj1 (Z.log2_lt_pow2 x n ltac:(lia))). lia.
  - destruct (Z.eq_dec y 0) as [->|]; [simpl; lia|].
    apply (proj1 (Z.log2_lt_pow2 y n ltac:(lia))). lia.
Qed.

Lemma select_mask (n x y : Z) (b : bool) :
  0 <= n -> 0 <= x < 2 ^ n -> 0 <= y < 2 ^ n ->
  Z.lxor (Z.land (if b then Z.ones n else 0) (Z.lxor x y)) y = if b then x else y.
Proof.
  intros Hn Hx Hy. destruct b.
  - rewrite land_ones_low by (auto using lxor_range).
    rewrite Z.lxor_assoc, Z.lxor_nilpotent, Z.lxor_0_r. reflexivity.
  - rewrite Z.land_0_l, Z.lxor_0_l. reflexivity.
Qed.

Lemma mask64 (b : bool) : u64 (- i64 (b2z b)) = if b then Z.ones 64 else 0.
Proof. destruct b; reflexivity. Qed.

Lemma mask32 (b : bool) : u32 (- i32 (b2z b)) = if b then Z.ones 32 else 0.
Proof. destruct b; reflexivity. Qed.

Lemma max_st_spec (x y : Z) : is_u64 x -> is_u64 y -> max_st x y = Z.max x y.
Proof.
  unfold is_u64, max_st. intros Hx Hy.
  rewrite mask64, select_mask by lia.
  destruct (Z.ltb_spec y x); lia.
Qed.

Lemma min_st_spec (x y : Z) : is_u64 x -> is_u64 y -> min_st x y = Z.min x y.
Proof.
  unfold is_u64, min_st. intros Hx Hy.
  rewrite mask64, select_mask by lia.
  rewrite Z.gtb_ltb. destruct (Z.ltb_spec x y); lia.
Qed.

Lemma max_u32_spec (x y : Z) : is_u32 x -> is_u32 y -> max_u32 x y = Z.max x y.
Proof.
  unfold is_u32, max_u32. intros Hx Hy.
  rewrite mask32, select_mask by lia.
  destruct (Z.ltb_spec y x); lia.
Qed.

Lemma min_u32_spec (x y : Z) : is_u32 x -> is_u32 y -> min_u32 x y = Z.min x y.
Proof.
  unfold is_u32, min_u32. intros Hx Hy.
  rewrite mask32, select_mask by lia.
  rewrite Z.gtb_ltb. destruct (Z.ltb_spec x y); lia.
Qed.

(** ** Loops *)

Lemma for_loop_ext {S : Type} (f g : nat -> S -> S) (n : nat) :
  forall start s,
    (forall i s', (start <= i < start + n)%nat -> f i s' = g i s') ->
    for_loop n start f s = for_loop n start g s.
Proof.
  induction n as [|n IH]; intros start s H; simpl; [reflexivity|].
  rewrite H by lia. apply IH. intros i s' Hi. apply H. lia.
Qed.

Lemma for_loop_inv {S : Type} (P : S -> Prop) (f : nat -> S -> S) (n : nat) :
  forall start s,
    P s -> (forall i s', (start <= i < start + n)%nat -> P s' -> P (f i s')) ->
    P (for_loop n start f s).
Proof.
  induction n as [|n IH]; intros start s Hs H; simpl; [assumption|].
  apply IH; [apply H; [lia|assumption]|].
  intros i s' Hi. apply H. lia.
Qed.

Lemma for_loop_plus {S : Type} (f : nat -> S -> S) (n m : nat) :
  forall start s,
    for_loop (n + m) start f s = for_loop m (start + n) f (for_loop n start f s).
Proof.
  induction n as [|n IH]; intros start s; simpl.
  - rewrite Nat.add_0_r. reflexivity.
  - rewrite IH. f_equal. lia.
Qed.

(** ** Floating point *)

(** A finite value divided by itself is exactly 1. *)
Lemma F64_div_self (s : bool) (m : positive) (e : Z) :
  F64.div (S754_finite s m e) (S754_finite s m e) = F64.one.
Proof.
  unfold F64.div, SFdiv, SFdiv_core_binary.
  replace (Zdigits2 (Z.pos m) + e - (Zdigits2 (Z.pos m) + e)) with 0 by lia.
  replace (e - e) with 0 by lia.
  change (Z.min (fexp F64.prec F64.emax 0) 0) with (-53).
  change (0 - -53) with 53.
  cbv beta iota zeta.
  rewrite Z.shiftl_mul_pow2 by lia.
  destruct (Z.div_eucl (Z.pos m * 2 ^ 53) (Z.pos m)) as [q r] eqn:E.
  assert (Hq : q = 2 ^ 53).
  { change q with (fst (q, r)). rewrite <- E.
    change (fst (Z.div_eucl (Z.pos m * 2 ^ 53) (Z.pos m)))
      with ((Z.pos m * 2 ^ 53) / Z.pos m).
    rewrite Z.mul_comm. apply Z.div_mul. lia. }
  assert (Hr : r = 0).
  { change r with (snd (q, r)). rewrite <- E.
    change (snd (Z.div_eucl (Z.pos m * 2 ^ 53) (Z.pos m)))
      with ((Z.pos m * 2 ^ 53) mod Z.pos m).
    rewrite Z.mul_comm. apply Z.mod_mul. lia. }
  subst q r.
  assert (Hl : new_location (Z.pos m) 0 = loc_Exact).
  { unfold new_location. destruct (Z.even (Z.pos m)); reflexivity. }
  rewrite Hl. rewrite xorb_nilpotent. reflexivity.
Qed.

Lemma digits2_pos_iter (p : positive) (k : positive) :
  digits2_pos (Pos.iter xO p k) = (digits2_pos p + k)%positive.
Proof.
  induction k as [|k IH] using Pos.peano_ind.
  - simpl. lia.
  - rewrite Pos.iter_succ. simpl. rewrite IH. lia.
Qed.

Lemma digits2_pos_bound (p : positive) (n : Z) :
  0 <= n -> Z.pos p < 2 ^ n -> Z.pos (digits2_pos p) <= n.
Proof.
  revert n. induction p as [p IH|p IH|]; intros n Hn H; simpl.
  - assert (0 < n) by (destruct (Z.eq_dec n 0) as [->|]; [simpl in H|]; lia).
    replace n with (Z.succ (n - 1)) in H by lia. rewrite Z.pow_succ_r in H by lia.
    specialize (IH (n - 1)). lia.
  - assert (0 < n) by (destruct (Z.eq_dec n 0) as [->|]; [simpl in H|]; lia).
    replace n with (Z.succ (n - 1)) in H by lia. rewrite Z.pow_succ_r in H by lia.
    specialize (IH (n - 1)). lia.
  - destruct (Z.eq_dec n 0) as [->|]; [simpl in H|]; lia.
Qed.

(** Rounding a 53-bit mantissa in range leaves it as it is. *)
Lemma F64_round_aux_exact (m : positive) (e : Z) :
  Z.pos (digits2_pos m) = 53 -> -1074 <= e <= 971 ->
  binary_round_aux F64.prec F64.emax false (Z.pos m) e loc_Exact
  = S754_finite false m e.
Proof.
  intros Hd He.
  assert (Hs : fexp F64.prec F64.emax (Zdigits2 (Z.pos m) + e) - e = 0).
  { unfold fexp, emin, F64.prec, F64.emax. simpl Zdigits2. lia. }
  unfold binary_round_aux, shr_fexp. rewrite Hs.
  cbn [shr shr_record_of_loc shr_m loc_of_shr_record round_nearest_even].
  rewrite Hs. cbn [shr shr_record_of_loc shr_m].
  assert (Hle : (e <=? F64.emax - F64.prec) = true)
    by (apply Z.leb_le; unfold F64.emax, F64.prec; lia).
  rewrite Hle. reflexivity.
Qed.

(** An integer below [2^53] converts to a finite, positive [double]. *)
Lemma F64_of_Z_finite (n : Z) :
  0 < n < 2 ^ 53 -> exists m e, F64.of_Z n = S754_finite false m e.
Proof.
  intros Hn. destruct n as [|p|p]; try lia.
  unfold F64.of_Z, binary_normalize, binary_round.
  pose proof (digits2_pos_bound p 53 ltac:(lia) ltac:(lia)) as Hd.
  assert (Hf : fexp F64.prec F64.emax (Z.pos (digits2_pos p) + 0)
               = Z.pos (digits2_pos p) - 53).
  { unfold fexp, emin, F64.prec, F64.emax. lia. }
  rewrite Hf. unfold shl_align.
  destruct (Z.pos (digits2_pos p) - 53 - 0) as [|q|q] eqn:Eq; try lia.
  - rewrite F64_round_aux_exact by lia. eauto.
  - rewrite F64_round_aux_exact; [eauto| |lia].
    rewrite digits2_pos_iter. lia.
Qed.

Lemma F64_div_of_Z_self (n : Z) :
  0 < n < 2 ^ 53 -> F64.div (F64.of_Z n) (F64.of_Z n) = F64.one.
Proof.
  intros Hn. destruct (F64_of_Z_finite n Hn) as (m & e & ->).
  apply F64_div_self.
Qed.

Lemma round_aux_nonneg (prec emax mx ex : Z) (lx : location) :
  nonneg_or_nan (binary_round_aux prec emax false mx ex lx) = true.
Proof.
  unfold binary_round_aux.
  destruct (shr_fexp prec emax mx ex lx) as [mrs' e'].
  destruct (shr_fexp prec emax _ e' loc_Exact) as [mrs'' e''].
  destruct (shr_m mrs''); [reflexivity| |reflexivity].
  destruct (e'' <=? emax - prec); reflexivity.
Qed.

Lemma round_nonneg (prec emax : Z) (m : positive) (e : Z) :
  nonneg_or_nan (binary_round prec emax false m e) = true.
Proof.
  unfold binary_round. destruct (shl_align _ _ _) as [mz ez].
  apply round_aux_nonneg.
Qed.

Lemma F32_of_Z_nonneg (n : Z) : 0 <= n -> nonneg_or_nan (F32.of_Z n) = true.
Proof.
  intros Hn. destruct n as [|p|p]; [reflexivity| |lia].
  apply round_nonneg.
Qed.

Lemma F64_of_float_nonneg (x : spec_float) :
  nonneg_or_nan x = true -> nonneg_or_nan (F64.of_float x) = true.
Proof.
  destruct x as [s|s| |s m e]; simpl; try (intros; assumption).
  destruct s; [discriminate|]. intros _. apply round_nonneg.
Qed.

(** [x - x] is [+0], or NaN when [x] is not finite. *)
Lemma F32_sub_self (x : spec_float) :
  nonneg_or_nan x = true ->
  F32.sub x x = S754_zero false \/ F32.sub x x = S754_nan.
Proof.
  destruct x as [s|s| |s m e]; simpl; intros H.
  - destruct s; [discriminate|]. left. reflexivity.
  - destruct s; [discriminate|]. right. reflexivity.
  - right. reflexivity.
  - left. unfold F32.sub, SFsub. rewrite Z.sub_diag. reflexivity.
Qed.

Lemma fmin_self (x : spec_float) : fmin x x = x.
Proof.
  unfold fmin. destruct (is_nan x); [reflexivity|].
  destruct (flt x x); reflexivity.
Qed.

Lemma F64_mul_nonneg (c x : spec_float) :
  nonneg_or_nan c = true -> nonneg_or_nan x = true ->
  nonneg_or_nan (F64.mul c x) = true.
Proof.
  destruct c as [sc|sc| |sc mc ec]; destruct x as [sx|sx| |sx mx ex];
    simpl; intros Hc Hx; try reflexivity; try discriminate;
    try (destruct sc; [discriminate|]); try (destruct sx; [discriminate|]);
    try reflexivity.
  apply round_aux_nonneg.
Qed.

(** Nothing that is not negative lies below [+0]. *)
Lemma not_below_zero (z y : spec_float) :
  z = S754_zero false \/ z = S754_nan -> nonneg_or_nan y = true ->
  fgt z y = false.
Proof.
  intros [-> | ->] Hy; destruct y as [s|s| |s m e]; simpl in Hy;
    try reflexivity; destruct s; try discriminate; reflexivity.
Qed.

(** The [songlen] gate of [match_cpfm] lets a record through against
    itself. *)
Lemma songlen_gate_self (s : Z) :
  0 <= s ->
  fgt (F64.of_float (fabs (F32.sub (F32.of_Z s) (F32.of_Z s))))
      (F64.mul (F64.of_float (F32.lit 1 10))
               (fmin (F64.of_float (F32.of_Z s)) (F64.of_float (F32.of_Z s))))
  = false.
Proof.
  intros Hs. rewrite fmin_self.
  pose proof (F32_of_Z_nonneg s Hs) as Hx.
  apply not_below_zero.
  - destruct (F32_sub_self _ Hx) as [-> | ->]; [left|right]; reflexivity.
  - apply F64_mul_nonneg; [reflexivity|]. apply F64_of_float_nonneg, Hx.
Qed.

(** ** A record against itself *)

Lemma hdist_r_self (a : list Z) : hdist_r a a = 0.
Proof.
  unfold hdist_r.
  rewrite (for_loop_ext _ (fun _ rdiff => rdiff_fooid32 0 rdiff)).
  - reflexivity.
  - intros i s _. rewrite Z.lxor_nilpotent. reflexivity.
Qed.

Lemma diff_dom_fooid_self (a : list Z) : diff_dom_fooid a a = 0.
Proof.
  unfold diff_dom_fooid.
  rewrite (for_loop_ext _ (fun _ d => u32 (u32 (d + pop32 0) + pop32 0))).
  - rewrite Z.lxor_nilpotent. reflexivity.
  - intros i s _. rewrite !Z.lxor_nilpotent. reflexivity.
Qed.

Lemma match_fooid_fp_self (ra da : list Z) :
  match_fooid_fp ra da ra da = F64.one.
Proof.
  unfold match_fooid_fp. rewrite hdist_r_self, diff_dom_fooid_self.
  reflexivity.
Qed.

Lemma cmp_low_bit_refl (x : Z) : cmp_low_bit x x = 1.
Proof. unfold cmp_low_bit. rewrite Z.eqb_refl. reflexivity. Qed.

Lemma chromab_step_self (cp : list Z) (sm : Z) (p : nat) :
  0 <= sm < 2 ^ 32 - 1 ->
  chromab_step cp cp (sm, p) = (sm + 1, Datatypes.S p).
Proof.
  intros H. unfold chromab_step. rewrite cmp_low_bit_refl.
  unfold u32. rewrite Z.mod_small by lia. reflexivity.
Qed.

Lemma chromab_steps_self (cp : list Z) (n : nat) :
  forall start sm p,
    0 <= sm -> sm + Z.of_nat n < 2 ^ 32 ->
    for_loop n start (fun _ st => chromab_step cp cp st) (sm, p)
    = (sm + Z.of_nat n, (p + n)%nat).
Proof.
  induction n as [|n IH]; intros start sm p H0 H; cbn [for_loop].
  - f_equal; [lia|lia].
  - rewrite chromab_step_self by lia. rewrite IH by lia. f_equal; lia.
Qed.

Lemma chromab_quads_self (cp : list Z) (n : nat) :
  forall start sm p,
    0 <= sm -> sm + 4 * Z.of_nat n < 2 ^ 32 ->
    for_loop n start
      (fun _ st =>
         chromab_step cp cp
           (chromab_step cp cp (chromab_step cp cp (chromab_step cp cp st))))
      (sm, p)
    = (sm + 4 * Z.of_nat n, (p + 4 * n)%nat).
Proof.
  induction n as [|n IH]; intros start sm p H0 H; cbn [for_loop].
  - f_equal; lia.
  - rewrite !chromab_step_self by lia. rewrite IH by lia. f_equal; lia.
Qed.

(** [match_chromab] of a stream against itself is exactly 1. *)
Lemma match_chromab_self (cp : list Z) (n : Z) :
  1 <= n < 2 ^ 32 -> match_chromab cp n cp n = F64.one.
Proof.
  intros Hn. unfold match_chromab.
  rewrite min_st_spec, max_st_spec by (unfold is_u64; lia).
  rewrite Z.min_id, Z.max_id.
  destruct (Z.eqb_spec n 0) as [|_]; [lia|].
  rewrite Z.shiftr_div_pow2 by lia. change (2 ^ 2) with 4.
  pose proof (Z.div_mod n 4 ltac:(lia)) as Hdm.
  pose proof (Z.mod_pos_bound n 4 ltac:(lia)) as Hm.
  assert (Hq : 0 <= n / 4) by (apply Z.div_pos; lia).
  rewrite chromab_quads_self by lia.
  rewrite chromab_steps_self by lia.
  cbn [fst]. rewrite !Z2Nat.id by lia.
  replace (0 + 4 * (n / 4) + n mod 4) with n by lia.
  destruct (Z.eqb_spec n 0) as [|_]; [lia|].
  apply F64_div_of_Z_self. lia.
Qed.

(** ** Bytes and words *)

Lemma u8_high_bits (b t : Z) : is_u8 b -> 8 <= t -> Z.testbit b t = false.
Proof.
  unfold is_u8. intros Hb Ht.
  destruct (Z.eq_dec b 0) as [->|Hn]; [apply Z.testbit_0_l|].
  apply Z.bits_above_log2; [lia|].
  eapply Z.lt_le_trans; [|exact Ht].
  apply Z.log2_lt_pow2; lia.
Qed.

Lemma testbit_255 (t : Z) : 0 <= t -> Z.testbit 255 t = (t <? 8).
Proof.
  intros Ht. change 255 with (Z.ones 8). apply Z.testbit_ones_nonneg; lia.
Qed.

Lemma byte_of_words (b0 b1 b2 b3 : Z) (k : Z) :
  is_u8 b0 -> is_u8 b1 -> is_u8 b2 -> is_u8 b3 ->
  byte_of (Z.lor b0 (Z.lor (Z.shiftl b1 8) (Z.lor (Z.shiftl b2 16) (Z.shiftl b3 24)))) k
  = if k =? 0 then b0 else if k =? 1 then b1 else if k =? 2 then b2
    else if k =? 3 then b3 else
    byte_of (Z.lor b0 (Z.lor (Z.shiftl b1 8) (Z.lor (Z.shiftl b2 16) (Z.shiftl b3 24)))) k.
Proof.
  intros H0 H1 H2 H3.
  destruct (Z.eqb_spec k 0) as [->|]; [|destruct (Z.eqb_spec k 1) as [->|];
    [|destruct (Z.eqb_spec k 2) as [->|]; [|destruct (Z.eqb_spec k 3) as [->|];
       [|reflexivity]]]];
    unfold byte_of; apply Z.bits_inj'; intros t Ht;
    rewrite Z.land_spec, testbit_255, Z.shiftr_spec, !Z.lor_spec, !Z.shiftl_spec by lia;
    destruct (Z.ltb_spec t 8); byte_bits u8_high_bits; try reflexivity; f_equal; lia.
Qed.

Lemma wr_length (l : list Z) : forall i v, length (wr l i v) = length l.
Proof.
  induction l as [|h t IH]; intros [|i] v; simpl; try reflexivity.
  rewrite IH. reflexivity.
Qed.

Lemma rd_wr_same (l : list Z) :
  forall i v, (i < length l)%nat -> rd (wr l i v) i = v.
Proof.
  unfold rd. induction l as [|h t IH]; intros [|i] v H; simpl in *;
    try lia; try reflexivity.
  apply IH. lia.
Qed.

Lemma rd_wr_other (l : list Z) :
  forall i j v, i <> j -> rd (wr l i v) j = rd l j.
Proof.
  unfold rd. induction l as [|h t IH]; intros [|i] [|j] v H; simpl;
    try reflexivity; try congruence.
  apply IH. congruence.
Qed.

Lemma Forall_wr (P : Z -> Prop) (l : list Z) :
  forall i v, Forall P l -> P v -> Forall P (wr l i v).
Proof.
  induction l as [|h t IH]; intros [|i] v Hl Hv; simpl; inversion Hl; subst;
    constructor; auto.
Qed.

Lemma rd_u8 (l : list Z) (i : nat) : Forall is_u8 l -> is_u8 (rd l i).
Proof.
  intros H. unfold rd. destruct (Nat.lt_ge_cases i (length l)) as [Hi|Hi].
  - rewrite Forall_forall in H. apply H, nth_In, Hi.
  - rewrite nth_overflow by assumption. unfold is_u8. lia.
Qed.

Lemma byte_of_u8 (w k : Z) : is_u8 (byte_of w k).
Proof.
  unfold byte_of, is_u8. change 255 with (Z.ones 8).
  rewrite Z.land_ones by lia. apply Z.mod_pos_bound. lia.
Qed.

Lemma byte_of_lor (x y k : Z) :
  byte_of (Z.lor x y) k = Z.lor (byte_of x k) (byte_of y k).
Proof.
  unfold byte_of. rewrite Z.shiftr_lor. apply Z.land_lor_distr_l.
Qed.

Lemma byte_of_load32 (l : list Z) (i k : nat) :
  Forall is_u8 l -> (k < 4)%nat ->
  byte_of (load32 l i) (Z.of_nat k) = rd l (4 * i + k).
Proof.
  intros Hl Hk. unfold load32.
  rewrite byte_of_words by (apply rd_u8; assumption).
  destruct k as [|[|[|[|k]]]]; try lia; simpl Z.of_nat; cbn [Z.eqb Pos.eqb];
    f_equal; lia.
Qed.

Lemma rd_store32 (l : list Z) (i : nat) (w : Z) (j : nat) :
  (4 * i + 3 < length l)%nat ->
  rd (store32 l i w) j
  = if ((4 * i <=? j) && (j <? 4 * i + 4))%nat
    then byte_of w (Z.of_nat (j - 4 * i)) else rd l j.
Proof.
  intros Hlen. unfold store32.
  destruct (Nat.eq_dec j (4 * i + 3)) as [->|N3].
  { rewrite rd_wr_same by (rewrite !wr_length; lia).
    replace (4 * i + 3 - 4 * i)%nat with 3%nat by lia.
    destruct (Nat.leb_spec (4 * i) (4 * i + 3)); [|lia].
    destruct (Nat.ltb_spec (4 * i + 3) (4 * i + 4)); [|lia]. reflexivity. }
  rewrite rd_wr_other by congruence.
  destruct (Nat.eq_dec j (4 * i + 2)) as [->|N2].
  { rewrite rd_wr_same by (rewrite !wr_length; lia).
    replace (4 * i + 2 - 4 * i)%nat with 2%nat by lia.
    destruct (Nat.leb_spec (4 * i) (4 * i + 2)); [|lia].
    destruct (Nat.ltb_spec (4 * i + 2) (4 * i + 4)); [|lia]. reflexivity. }
  rewrite rd_wr_other by congruence.
  destruct (Nat.eq_dec j (4 * i + 1)) as [->|N1].
  { rewrite rd_wr_same by (rewrite !wr_length; lia).
    replace (4 * i + 1 - 4 * i)%nat with 1%nat by lia.
    destruct (Nat.leb_spec (4 * i) (4 * i + 1)); [|lia].
    destruct (Nat.ltb_spec (4 * i + 1) (4 * i + 4)); [|lia]. reflexivity. }
  rewrite rd_wr_other by congruence.
  destruct (Nat.eq_dec j (4 * i)) as [->|N0].
  { rewrite rd_wr_same by lia.
    replace (4 * i - 4 * i)%nat with 0%nat by lia.
    destruct (Nat.leb_spec (4 * i) (4 * i)); [|lia].
    destruct (Nat.ltb_spec (4 * i) (4 * i + 4)); [|lia]. reflexivity. }
  rewrite rd_wr_other by congruence.
  destruct (Nat.leb_spec (4 * i) j); [|reflexivity].
  destruct (Nat.ltb_spec j (4 * i + 4)); [lia|reflexivity].
Qed.

Lemma store32_length (l : list Z) (i : nat) (w : Z) :
  length (store32 l i w) = length l.
Proof. unfold store32. rewrite !wr_length. reflexivity. Qed.

Lemma store32_u8 (l : list Z) (i : nat) (w : Z) :
  Forall is_u8 l -> Forall is_u8 (store32 l i w).
Proof.
  intros H. unfold store32. repeat apply Forall_wr; auto using byte_of_u8.
Qed.

Lemma or_word_step (u a x : list Z) (k : nat) :
  Forall is_u8 a -> (4 * k + 4 <= length u)%nat ->
  merged (4 * k) u a x ->
  merged (4 * Datatypes.S k) u a
         (store32 x k (Z.lor (load32 x k) (load32 a k))).
Proof.
  intros Ha Hlen (Hl & H8 & Hrd). split; [|split].
  - rewrite store32_length. assumption.
  - apply store32_u8. assumption.
  - intros j. rewrite rd_store32 by lia. unfold or_bytes.
    destruct (Nat.leb_spec (4 * k) j) as [Hlo|Hlo]; cbn [andb].
    + destruct (Nat.ltb_spec j (4 * k + 4)) as [Hhi|Hhi].
      * destruct (Nat.ltb_spec j (4 * Datatypes.S k)); [|lia].
        rewrite byte_of_lor, !byte_of_load32 by (assumption || lia).
        replace (4 * k + (j - 4 * k))%nat with j by lia.
        rewrite Hrd. unfold or_bytes.
        destruct (Nat.ltb_spec j (4 * k)); [lia|reflexivity].
      * destruct (Nat.ltb_spec j (4 * Datatypes.S k)); [lia|].
        rewrite Hrd. unfold or_bytes.
        destruct (Nat.ltb_spec j (4 * k)); [lia|reflexivity].
    + destruct (Nat.ltb_spec j (4 * Datatypes.S k)); [|lia].
      rewrite Hrd. unfold or_bytes.
      destruct (Nat.ltb_spec j (4 * k)); [reflexivity|lia].
Qed.

Lemma or_words32_from (u a : list Z) (n : nat) :
  Forall is_u8 a ->
  forall start x,
    (4 * (start + n) <= length u)%nat ->
    merged (4 * start) u a x ->
    merged (4 * (start + n)) u a
      (for_loop n start
         (fun i u => store32 u i (Z.lor (load32 u i) (load32 a i))) x).
Proof.
  intros Ha. induction n as [|n IH]; intros start x Hlen Hx; cbn [for_loop].
  - rewrite Nat.add_0_r. assumption.
  - replace (start + Datatypes.S n)%nat with (Datatypes.S start + n)%nat by lia.
    apply IH; [lia|]. apply or_word_step; [assumption|lia|assumption].
Qed.

Lemma or_words32_spec (n : nat) (u a : list Z) :
  Forall is_u8 u -> Forall is_u8 a -> (4 * n <= length u)%nat ->
  merged (4 * n) u a (or_words32 n u a).
Proof.
  intros Hu Ha Hlen. unfold or_words32.
  apply (or_words32_from u a n Ha 0%nat u); [assumption|].
  split; [reflexivity|split; [assumption|]]. intros j. reflexivity.
Qed.

Lemma byte_of_pair (b0 b1 : Z) (k : nat) :
  is_u8 b0 -> is_u8 b1 -> (k < 2)%nat ->
  byte_of (Z.lor b0 (Z.shiftl b1 8)) (Z.of_nat k)
  = if Nat.eqb k 0 then b0 else b1.
Proof.
  intros H0 H1 Hk. destruct k as [|[|k]]; try lia; cbn [Nat.eqb Z.of_nat];
    unfold byte_of; apply Z.bits_inj'; intros t Ht;
    rewrite Z.land_spec, testbit_255, Z.shiftr_spec, !Z.lor_spec, !Z.shiftl_spec by lia;
    destruct (Z.ltb_spec t 8); byte_bits u8_high_bits; try reflexivity; f_equal; lia.
Qed.

Lemma byte_of_load16 (l : list Z) (i k : nat) :
  Forall is_u8 l -> (k < 2)%nat ->
  byte_of (load16 l i) (Z.of_nat k) = rd l (2 * i + k).
Proof.
  intros Hl Hk. unfold load16.
  rewrite byte_of_pair by (try apply rd_u8; assumption).
  destruct k as [|[|k]]; try lia; cbn [Nat.eqb]; f_equal; lia.
Qed.

Lemma rd_store16 (l : list Z) (i : nat) (w : Z) (j : nat) :
  (2 * i + 1 < length l)%nat ->
  rd (store16 l i w) j
  = if ((2 * i <=? j) && (j <? 2 * i + 2))%nat
    then byte_of w (Z.of_nat (j - 2 * i)) else rd l j.
Proof.
  intros Hlen. unfold store16.
  destruct (Nat.eq_dec j (2 * i + 1)) as [->|N1].
  { rewrite rd_wr_same by (rewrite !wr_length; lia).
    replace (2 * i + 1 - 2 * i)%nat with 1%nat by lia.
    destruct (Nat.leb_spec (2 * i) (2 * i + 1)); [|lia].
    destruct (Nat.ltb_spec (2 * i + 1) (2 * i + 2)); [|lia]. reflexivity. }
  rewrite rd_wr_other by congruence.
  destruct (Nat.eq_dec j (2 * i)) as [->|N0].
  { rewrite rd_wr_same by lia.
    replace (2 * i - 2 * i)%nat with 0%nat by lia.
    destruct (Nat.leb_spec (2 * i) (2 * i)); [|lia].
    destruct (Nat.ltb_spec (2 * i) (2 * i + 2)); [|lia]. reflexivity. }
  rewrite rd_wr_other by congruence.
  destruct (Nat.leb_spec (2 * i) j); [|reflexivity].
  destruct (Nat.ltb_spec j (2 * i + 2)); [lia|reflexivity].
Qed.

(** [or_dom] ORs all 66 bytes. *)
Lemma or_dom_spec (u a : list Z) :
  Forall is_u8 u -> Forall is_u8 a -> length u = DOM_SIZE ->
  merged DOM_SIZE u a (or_dom u a).
Proof.
  intros Hu Ha Hlen. unfold or_dom, DOM_SIZE in *.
  destruct (or_words32_spec DOM_LEN32 u a Hu Ha) as (Hl & H8 & Hrd);
    [unfold DOM_LEN32; lia|].
  unfold DOM_LEN32, DOM_END16 in *.
  set (x := or_words32 16 u a) in *.
  split; [|split].
  - unfold store16. rewrite !wr_length. assumption.
  - unfold store16. repeat apply Forall_wr; auto using byte_of_u8.
  - intros j. rewrite rd_store16 by lia. unfold or_bytes.
    destruct (Nat.leb_spec (2 * 32) j) as [Hlo|Hlo]; cbn [andb].
    + destruct (Nat.ltb_spec j (2 * 32 + 2)) as [Hhi|Hhi].
      * destruct (Nat.ltb_spec j 66); [|lia].
        rewrite byte_of_lor, !byte_of_load16 by (assumption || lia).
        replace (2 * 32 + (j - 2 * 32))%nat with j by lia.
        rewrite Hrd. unfold or_bytes.
        destruct (Nat.ltb_spec j (4 * 16)); [lia|reflexivity].
      * destruct (Nat.ltb_spec j 66); [lia|].
        rewrite Hrd. unfold or_bytes.
        destruct (Nat.ltb_spec j (4 * 16)); [lia|reflexivity].
    + destruct (Nat.ltb_spec j 66); [|lia].
      rewrite Hrd. unfold or_bytes.
      destruct (Nat.ltb_spec j (4 * 16)); [reflexivity|lia].
Qed.

Lemma or_r_spec (u a : list Z) :
  Forall is_u8 u -> Forall is_u8 a -> length u = R_SIZE ->
  merged R_SIZE u a (or_words32 R_SIZE32 u a).
Proof.
  intros Hu Ha Hlen.
  apply (or_words32_spec R_SIZE32 u a Hu Ha). rewrite Hlen. unfold R_SIZE, R_SIZE32. lia.
Qed.

(** ** 32-bit codewords *)

Lemma u32_lor (x y : Z) : Z.lor (u32 x) (u32 y) = u32 (Z.lor x y).
Proof.
  unfold u32. rewrite <- !Z.land_ones by lia.
  symmetry. apply Z.land_lor_distr_l.
Qed.

Lemma i32_u32 (w : Z) : is_i32 w -> i32 (u32 w) = w.
Proof.
  unfold is_i32, i32, u32. intros H.
  rewrite Zplus_mod_idemp_l. rewrite Z.mod_small by lia. lia.
Qed.

Lemma land_bound_l (n a b : Z) :
  0 <= n -> 0 <= a < 2 ^ n -> 0 <= Z.land a b < 2 ^ n.
Proof.
  intros Hn Ha.
  assert (E : Z.land a b = Z.land a b mod 2 ^ n).
  { rewrite <- Z.land_ones by assumption.
    rewrite <- Z.land_assoc, (Z.land_comm b), Z.land_assoc.
    rewrite Z.land_ones, Z.mod_small by assumption. reflexivity. }
  rewrite E. apply Z.mod_pos_bound. apply Z.pow_pos_nonneg; lia.
Qed.

Lemma lor_neg_bound (n x y : Z) :
  0 <= n -> - 2 ^ n <= x < 0 -> - 2 ^ n <= Z.lor x y < 0.
Proof.
  intros Hn Hx.
  assert (Hl : 0 <= Z.lnot (Z.lor x y) < 2 ^ n).
  { rewrite Z.lnot_lor. apply land_bound_l; [assumption|].
    unfold Z.lnot. rewrite <- Z.sub_1_r. lia. }
  unfold Z.lnot in Hl. rewrite <- Z.sub_1_r in Hl. lia.
Qed.

Lemma lor_nonneg_bound (n x y : Z) :
  0 <= n -> 0 <= x < 2 ^ n -> 0 <= y < 2 ^ n -> 0 <= Z.lor x y < 2 ^ n.
Proof.
  intros Hn Hx Hy.
  assert (E : Z.lor x y = Z.lor x y mod 2 ^ n).
  { rewrite <- Z.land_ones by assumption.
    rewrite Z.land_lor_distr_l, !Z.land_ones by assumption.
    rewrite !Z.mod_small by assumption. reflexivity. }
  rewrite E. apply Z.mod_pos_bound. apply Z.pow_pos_nonneg; lia.
Qed.

Lemma lor_i32 (x y : Z) : is_i32 x -> is_i32 y -> is_i32 (Z.lor x y).
Proof.
  unfold is_i32. intros Hx Hy.
  destruct (Z.neg_nonneg_cases x) as [Nx|Px].
  - pose proof (lor_neg_bound 31 x y ltac:(lia) ltac:(lia)). lia.
  - destruct (Z.neg_nonneg_cases y) as [Ny|Py].
    + rewrite Z.lor_comm.
      pose proof (lor_neg_bound 31 y x ltac:(lia) ltac:(lia)). lia.
    + pose proof (lor_nonneg_bound 31 x y ltac:(lia) ltac:(lia) ltac:(lia)). lia.
Qed.

(** The OR of two codewords through their [uint32_t] views is the OR of
    the [int32_t] values. *)
Lemma or32_signed (x y : Z) :
  is_i32 x -> is_i32 y -> i32 (Z.lor (u32 x) (u32 y)) = Z.lor x y.
Proof.
  intros Hx Hy. rewrite u32_lor. apply i32_u32, lor_i32; assumption.
Qed.

Lemma rd_i32 (l : list Z) (i : nat) : Forall is_i32 l -> is_i32 (rd l i).
Proof.
  intros H. unfold rd. destruct (Nat.lt_ge_cases i (length l)) as [Hi|Hi].
  - rewrite Forall_forall in H. apply H, nth_In, Hi.
  - rewrite nth_overflow by assumption. unfold is_i32. lia.
Qed.

Lemma or_cprint_from (u a : list Z) (n : nat) :
  Forall is_i32 a ->
  forall start x,
    (start + n <= length u)%nat ->
    merged_cp start u a x ->
    merged_cp (start + n) u a
      (for_loop n start
         (fun l cp_u => wr cp_u l (i32 (Z.lor (u32 (rd cp_u l)) (u32 (rd a l)))))
         x).
Proof.
  intros Ha. induction n as [|n IH]; intros start x Hlen Hx; cbn [for_loop].
  - rewrite Nat.add_0_r. assumption.
  - replace (start + Datatypes.S n)%nat with (Datatypes.S start + n)%nat by lia.
    apply IH; [lia|]. destruct Hx as (Hl & H32 & Hrd).
    rewrite or32_signed by (apply rd_i32; assumption).
    split; [|split].
    + rewrite wr_length. assumption.
    + apply Forall_wr; [assumption|]. apply lor_i32; apply rd_i32; assumption.
    + intros j. unfold or_bytes. destruct (Nat.eq_dec start j) as [->|N].
      * rewrite rd_wr_same by lia. rewrite Hrd. unfold or_bytes.
        destruct (Nat.ltb_spec j j); [lia|].
        destruct (Nat.ltb_spec j (Datatypes.S j)); [reflexivity|lia].
      * rewrite rd_wr_other by assumption. rewrite Hrd. unfold or_bytes.
        destruct (Nat.ltb_spec j start); destruct (Nat.ltb_spec j (Datatypes.S start));
          try reflexivity; lia.
Qed.

Lemma or_cprint_spec (n : nat) (u a : list Z) :
  Forall is_i32 u -> Forall is_i32 a -> (n <= length u)%nat ->
  merged_cp n u a (or_cprint n u a).
Proof.
  intros Hu Ha Hlen. unfold or_cprint.
  apply (or_cprint_from u a n Ha 0%nat u); [assumption|].
  split; [reflexivity|split; [assumption|]]. intros j. reflexivity.
Qed.

(** Pointwise-equal arrays of the same length are equal. *)
Lemma rd_ext (x y : list Z) :
  length x = length y -> (forall j, rd x j = rd y j) -> x = y.
Proof.
  intros Hl H. apply (nth_ext x y 0 0 Hl). intros j _. apply H.
Qed.

Lemma lor_cover (a u : Z) : Z.land a (Z.lor u a) = a.
Proof.
  apply Z.bits_inj'; intros t _. rewrite Z.land_spec, Z.lor_spec.
  destruct (Z.testbit a t), (Z.testbit u t); reflexivity.
Qed.

Lemma lor_covered (a u : Z) : Z.land a u = a -> Z.lor u a = u.
Proof.
  intros H. apply Z.bits_inj'; intros t _. rewrite Z.lor_spec.
  rewrite <- H at 1. rewrite Z.land_spec.
  destruct (Z.testbit a t), (Z.testbit u t); reflexivity.
Qed.

Lemma covers_b_spec (n : nat) (x y : list Z) :
  covers_b n x y = true -> covers n x y.
Proof.
  unfold covers_b, covers. rewrite forallb_forall. intros H i Hi.
  apply Z.eqb_eq, H, in_seq. lia.
Qed.

Lemma merged_covers (n : nat) (u a x : list Z) :
  (forall j, rd x j = or_bytes n u a j) -> covers n a x.
Proof.
  intros H i Hi. rewrite H. unfold or_bytes.
  destruct (Nat.ltb_spec i n); [|lia]. apply lor_cover.
Qed.

Lemma merged_same (n : nat) (u a x : list Z) :
  length x = length u -> (forall j, rd x j = or_bytes n u a j) ->
  covers n a u -> x = u.
Proof.
  intros Hl H Hc. apply rd_ext; [assumption|]. intros j. rewrite H.
  unfold or_bytes. destruct (Nat.ltb_spec j n); [|reflexivity].
  apply lor_covered, Hc. assumption.
Qed.

Lemma merge_one_defined (u : FPrintUnion) (a : FPrint) :
  valid_union u -> valid_fprint a -> cprint_len a <= u_cprint_len u ->
  (cprint_len a <=? Z.of_nat (length (u_cprint u)))
  && (cprint_len a <=? Z.of_nat (length (cprint a))) = true.
Proof.
  intros Vu Va Hlen. destruct Vu, Va. apply andb_true_intro.
  split; apply Z.leb_le; lia.
Qed.

(** C6. For a key [u] and a record [a] with [u.cprint_len >= a.cprint_len],
    [fprint_merge_one(u, a)] returns a key that covers [a]:
    [a.r & u.r = a.r], [a.dom & u.dom = a.dom], the prefix of [u.cprint] of
    the length of [a.cprint] covers [a.cprint], and
    [u.min_songlen <= a.songlen <= u.max_songlen]. *)
Theorem fprint_merge_one_covers (u : FPrintUnion) (a : FPrint) :
  valid_union u -> valid_fprint a -> cprint_len a <= u_cprint_len u ->
  exists u', fprint_merge_one u a = Some u' /\ covered u' a.
Proof.
  intros Vu Va Hlen. unfold fprint_merge_one.
  rewrite merge_one_defined by assumption.
  eexists. split; [reflexivity|].
  pose proof Vu as Vu'. pose proof Va as Va'. destruct Vu', Va'.
  constructor; cbn [u_r u_dom u_cprint u_cprint_len min_songlen max_songlen].
  - destruct (or_r_spec (u_r u) (r a)) as (_ & _ & H); auto.
    eapply merged_covers; eassumption.
  - destruct (or_dom_spec (u_dom u) (dom a)) as (_ & _ & H); auto.
    eapply merged_covers; eassumption.
  - assumption.
  - destruct (or_cprint_spec (Z.to_nat (cprint_len a)) (u_cprint u) (cprint a))
      as (_ & _ & H); auto; [lia|].
    eapply merged_covers; eassumption.
  - rewrite max_u32_spec by assumption. split; [|lia].
    destruct (Z.gtb_spec (min_songlen u) 0); [|lia].
    rewrite min_u32_spec by assumption. lia.
Qed.

(** C7, amended. Merging a record into a key that already covers it leaves
    every field of the key unchanged, provided the key's [min_songlen] is
    not 0 (or the record's [songlen] is 0): the code takes a [min_songlen]
    of 0 for a minimum not yet set and replaces it. *)
Theorem fprint_merge_one_idempotent (u : FPrintUnion) (a : FPrint) :
  valid_union u -> valid_fprint a -> covered u a ->
  0 < min_songlen u \/ songlen a = 0 ->
  fprint_merge_one u a = Some u.
Proof.
  intros Vu Va C Hmin. unfold fprint_merge_one.
  rewrite merge_one_defined by (try assumption; apply C).
  pose proof Vu as Vu'. pose proof Va as Va'. destruct Vu', Va', C.
  destruct u as [ulen umin ubr umax ur udom ucp].
  cbn [u_r u_dom u_cprint u_cprint_len min_songlen max_songlen u_bit_rate] in *.
  f_equal. f_equal.
  - unfold is_u32 in *. destruct (Z.gtb_spec umin 0).
    + rewrite min_u32_spec by assumption. lia.
    + lia.
  - rewrite max_u32_spec by assumption. lia.
  - destruct (or_r_spec ur (r a)) as (Hl & _ & H); auto.
    eapply merged_same; eassumption.
  - destruct (or_dom_spec udom (dom a)) as (Hl & _ & H); auto.
    eapply merged_same; eassumption.
  - destruct (or_cprint_spec (Z.to_nat (cprint_len a)) ucp (cprint a))
      as (Hl & _ & H); auto; [lia|].
    eapply merged_same; eassumption.
Qed.

(* ================================================================== *)
(** * The text form read back *)
(* ================================================================== *)

(** ** Decimal and hexadecimal text *)

Lemma small_cases (d n : Z) (P : Z -> Prop) :
  0 <= d < n ->
  (forall k, (k < Z.to_nat n)%nat -> P (Z.of_nat k)) -> P d.
Proof.
  intros Hd H. rewrite <- (Z2Nat.id d) by lia. apply H. lia.
Qed.

Lemma digit_char_props (d : Z) :
  0 <= d < 10 ->
  digit_val 10 (digit_char d) = Some d
  /\ is_space (digit_char d) = false
  /\ Ascii.eqb (digit_char d) "-"%char = false
  /\ Ascii.eqb (digit_char d) "+"%char = false
  /\ Ascii.eqb (digit_char d) ","%char = false
  /\ Ascii.eqb (digit_char d) NUL = false
  /\ Ascii.eqb (digit_char d) " "%char = false
  /\ Ascii.eqb (digit_char d) ")"%char = false
  /\ (Nat.leb 48 (nat_of_ascii (digit_char d))
      && Nat.leb (nat_of_ascii (digit_char d)) 57) = true.
Proof.
  intros Hd. pattern d. apply (small_cases d 10); [assumption|].
  intros k Hk. change (Z.to_nat 10) with 10%nat in Hk.
  do 10 (destruct k as [|k]; [vm_compute; repeat split; reflexivity|]). lia.
Qed.

Lemma hex_char_props (d : Z) :
  0 <= d < 16 ->
  digit_val 16 (hex_char d) = Some d
  /\ is_space (hex_char d) = false
  /\ Ascii.eqb (hex_char d) "-"%char = false
  /\ Ascii.eqb (hex_char d) "+"%char = false
  /\ Ascii.eqb (hex_char d) ","%char = false
  /\ Ascii.eqb (hex_char d) NUL = false.
Proof.
  intros Hd. pattern d. apply (small_cases d 16); [assumption|].
  intros k Hk. change (Z.to_nat 16) with 16%nat in Hk.
  do 16 (destruct k as [|k]; [vm_compute; repeat split; reflexivity|]). lia.
Qed.

Lemma dec_digits_acc (fuel : nat) :
  forall n acc, dec_digits fuel n acc = dec_digits fuel n [] ++ acc.
Proof.
  induction fuel as [|f IH]; intros n acc; cbn [dec_digits]; [reflexivity|].
  destruct (n / 10 =? 0); [reflexivity|].
  rewrite (IH (n / 10) (_ :: acc)), (IH (n / 10) [_]).
  rewrite <- app_assoc. reflexivity.
Qed.

(** The digits of [n], by the last digit. *)
Lemma dec_digits_step (f : nat) (n : Z) :
  dec_digits (Datatypes.S f) n []
  = if n / 10 =? 0 then [digit_char (n mod 10)]
    else dec_digits f (n / 10) [] ++ [digit_char (n mod 10)].
Proof.
  cbn [dec_digits]. destruct (n / 10 =? 0); [reflexivity|]. apply dec_digits_acc.
Qed.

Lemma dec_digits_length (fuel : nat) :
  forall n, 0 <= n < 10 ^ Z.of_nat fuel -> (1 <= fuel)%nat ->
  (1 <= length (dec_digits fuel n []) <= fuel)%nat.
Proof.
  induction fuel as [|f IH]; intros n Hn Hf; [lia|].
  rewrite dec_digits_step. destruct (Z.eqb_spec (n / 10) 0) as [E|E].
  - simpl. lia.
  - rewrite length_app. simpl length.
    destruct f as [|f'].
    { exfalso. apply E. apply Z.div_small. simpl in Hn. lia. }
    assert (H : 0 <= n / 10 < 10 ^ Z.of_nat (Datatypes.S f')).
    { split; [apply Z.div_pos; lia|].
      apply Z.div_lt_upper_bound; [lia|].
      rewrite <- Z.pow_succ_r by lia. rewrite <- Nat2Z.inj_succ. lia. }
    specialize (IH _ H ltac:(lia)). lia.
Qed.

(** Scanning the digits of [n] adds [n] to the value read so far. *)
Lemma scan_dec_digits (fuel : nat) :
  forall n w rest a k,
    0 <= n < 10 ^ Z.of_nat fuel ->
    (length (dec_digits fuel n []) <= w)%nat ->
    scan_digits 10 w (dec_digits fuel n [] ++ rest) a k
    = scan_digits 10 (w - length (dec_digits fuel n [])) rest
        (a * 10 ^ Z.of_nat (length (dec_digits fuel n [])) + n)
        (k + length (dec_digits fuel n [])).
Proof.
  induction fuel as [|f IH]; intros n w rest a k Hn Hw.
  - cbn [dec_digits app length]. simpl in Hn. replace n with 0 by lia.
    rewrite Nat.sub_0_r, Nat.add_0_r. f_equal. simpl. lia.
  - rewrite dec_digits_step in *.
    assert (Hm : 0 <= n mod 10 < 10) by (apply Z.mod_pos_bound; lia).
    destruct (digit_char_props (n mod 10) Hm) as (Hv & _).
    destruct (Z.eqb_spec (n / 10) 0) as [E|E].
    + cbn [length app] in *. destruct w as [|w]; [lia|].
      cbn [scan_digits]. rewrite Hv.
      pose proof (Z.div_mod n 10 ltac:(lia)) as Hdm.
      change (10 ^ Z.of_nat 1) with 10.
      replace (Datatypes.S w - 1)%nat with w by lia.
      replace (k + 1)%nat with (Datatypes.S k) by lia.
      replace (a * 10 + n) with (a * 10 + n mod 10) by lia. reflexivity.
    + rewrite length_app in *. cbn [length] in *.
      rewrite <- app_assoc. cbn [app].
      assert (H : 0 <= n / 10 < 10 ^ Z.of_nat f).
      { split; [apply Z.div_pos; lia|].
        apply Z.div_lt_upper_bound; [lia|].
        rewrite <- Z.pow_succ_r by lia. rewrite <- Nat2Z.inj_succ. lia. }
      rewrite IH by (assumption || lia).
      set (L := length (dec_digits f (n / 10) [])) in *.
      destruct (w - L)%nat as [|w'] eqn:Ew; [lia|].
      cbn [scan_digits]. rewrite Hv.
      replace (w - (L + 1))%nat with w' by lia.
      replace (k + (L + 1))%nat with (Datatypes.S (k + L)) by lia.
      rewrite Nat2Z.inj_add, Z.pow_add_r by lia.
      pose proof (Z.div_mod n 10 ltac:(lia)) as Hdm.
      change (10 ^ Z.of_nat 1) with 10.
      replace (a * (10 ^ Z.of_nat L * 10) + n)
        with ((a * 10 ^ Z.of_nat L + n / 10) * 10 + n mod 10) by lia.
      reflexivity.
Qed.


Lemma dec_digits_chars (fuel : nat) :
  forall n, 0 <= n -> Forall dec_char (dec_digits fuel n []).
Proof.
  induction fuel as [|f IH]; intros n Hn; [constructor|].
  rewrite dec_digits_step.
  assert (Hm : 0 <= n mod 10 < 10) by (apply Z.mod_pos_bound; lia).
  assert (Hc : dec_char (digit_char (n mod 10))) by (eexists; eauto).
  destruct (n / 10 =? 0); [constructor; [assumption|constructor]|].
  apply Forall_app. split; [apply IH, Z.div_pos; lia|].
  constructor; [assumption|constructor].
Qed.

Lemma fmt_u_u32 (n : Z) :
  is_u32 n ->
  (1 <= length (fmt_u n) <= 10)%nat /\ Forall dec_char (fmt_u n)
  /\ forall w rest a k,
       (length (fmt_u n) <= w)%nat ->
       scan_digits 10 w (fmt_u n ++ rest) a k
       = scan_digits 10 (w - length (fmt_u n)) rest
           (a * 10 ^ Z.of_nat (length (fmt_u n)) + n) (k + length (fmt_u n)).
Proof.
  unfold is_u32. intros Hn.
  assert (E : fmt_u n = dec_digits 10 n []).
  { unfold fmt_u.
    assert (G : forall f m, (1 <= f)%nat -> 0 <= m < 10 ^ Z.of_nat f ->
                forall g, (f <= g)%nat -> dec_digits g m [] = dec_digits f m []).
    { induction f as [|f IH]; intros m Hf Hm g Hg; [lia|].
      destruct g as [|g]; [lia|]. rewrite !dec_digits_step.
      destruct (Z.eqb_spec (m / 10) 0); [reflexivity|].
      destruct f as [|f'].
      { exfalso. simpl in Hm. assert (m / 10 = 0) by (apply Z.div_small; lia). lia. }
      rewrite (IH (m / 10)); [reflexivity|lia| |lia].
      split; [apply Z.div_pos; lia|].
      apply Z.div_lt_upper_bound; [lia|].
      rewrite <- Z.pow_succ_r by lia. rewrite <- Nat2Z.inj_succ. lia. }
    apply (G 10%nat); [lia| |lia]. change (10 ^ Z.of_nat 10) with 10000000000. lia. }
  rewrite E.
  assert (Hr : 0 <= n < 10 ^ Z.of_nat 10)
    by (change (10 ^ Z.of_nat 10) with 10000000000; lia).
  split; [apply dec_digits_length; [assumption|lia]|].
  split; [apply dec_digits_chars; lia|].
  intros w rest a k Hw. apply scan_dec_digits; assumption.
Qed.

Lemma dec_char_props (c : ascii) :
  dec_char c ->
  is_space c = false
  /\ Ascii.eqb c "-"%char = false /\ Ascii.eqb c "+"%char = false
  /\ Ascii.eqb c ","%char = false /\ Ascii.eqb c NUL = false
  /\ Ascii.eqb c " "%char = false /\ Ascii.eqb c ")"%char = false
  /\ (Nat.leb 48 (nat_of_ascii c) && Nat.leb (nat_of_ascii c) 57) = true.
Proof.
  intros (d & Hd & ->). destruct (digit_char_props d Hd) as (_ & H). exact H.
Qed.

Lemma scan_digits_stop (base : Z) (w : nat) (c : ascii) (rest : list ascii)
      (a : Z) (k : nat) :
  digit_val base c = None ->
  scan_digits base w (c :: rest) a k = (a, k, c :: rest).
Proof.
  intros H. destruct w; cbn [scan_digits]; [reflexivity|]. rewrite H. reflexivity.
Qed.

(** [%u] reads back what [%u] printed, when a character that is not a digit
    follows. *)
Lemma scan_unsigned_fmt_u (n : Z) (w : nat) (c : ascii) (rest : list ascii) :
  is_u32 n -> digit_val 10 c = None -> (length (fmt_u n) <= w)%nat ->
  scan_unsigned 10 w (fmt_u n ++ c :: rest) = Some (n, c :: rest).
Proof.
  intros Hn Hc Hw. destruct (fmt_u_u32 n Hn) as (Hlen & Hch & Hscan).
  unfold scan_unsigned.
  destruct (fmt_u n) as [|d ds] eqn:E; [simpl in Hlen; lia|].
  inversion Hch as [|? ? Hd Hds]; subst.
  destruct (dec_char_props d Hd) as (Hsp & Hm & Hp & _).
  cbn [app skip_space]. rewrite Hsp.
  destruct w as [|w']; [simpl in Hw; lia|]. rewrite Hm, Hp.
  change (d :: ds ++ c :: rest) with ((d :: ds) ++ c :: rest).
  rewrite Hscan by lia. rewrite scan_digits_stop by assumption.
  cbn [length Nat.add]. unfold is_u32 in Hn.
  rewrite Z.mul_0_l, Z.add_0_l.
  destruct (Z.ltb_spec n (2 ^ 64)); [reflexivity|lia].
Qed.

Lemma fmt_02X_scan (b : Z) (rest : list ascii) :
  is_u8 b ->
  scan_unsigned 16 2 (fmt_02X b ++ rest) = Some (b, rest)
  /\ Forall hex_digit_char (fmt_02X b).
Proof.
  unfold is_u8. intros Hb.
  assert (H1 : 0 <= b / 16 < 16)
    by (split; [apply Z.div_pos; lia|apply Z.div_lt_upper_bound; lia]).
  assert (H2 : 0 <= b mod 16 < 16) by (apply Z.mod_pos_bound; lia).
  destruct (hex_char_props _ H1) as (V1 & S1 & M1 & P1 & _).
  destruct (hex_char_props _ H2) as (V2 & _).
  split.
  - unfold scan_unsigned, fmt_02X. cbn [app skip_space]. rewrite S1, M1, P1.
    cbn [scan_digits]. rewrite V1, V2.
    pose proof (Z.div_mod b 16 ltac:(lia)).
    replace ((0 * 16 + b / 16) * 16 + b mod 16) with b by lia.
    destruct (Z.ltb_spec b (2 ^ 64)); [reflexivity|lia].
  - repeat constructor; eexists; eauto.
Qed.

(** [%d] of an [int32_t]: at most 11 characters, read back by [strtol]. *)
Lemma fmt_d_i32 (c : Z) :
  is_i32 c ->
  (1 <= length (fmt_d c) <= 11)%nat
  /\ strtol10 (fmt_d c) = c
  /\ exists h t, fmt_d c = h :: t /\ Forall dec_char t
                 /\ (dec_char h \/ h = "-"%char).
Proof.
  unfold is_i32. intros Hc. unfold fmt_d.
  destruct (Z.ltb_spec c 0) as [Hneg|Hpos].
  - assert (Hu : is_u32 (- c)) by (unfold is_u32; lia).
    destruct (fmt_u_u32 _ Hu) as (Hlen & Hch & Hscan).
    split; [cbn [length]; lia|]. split.
    + unfold strtol10. cbn [Ascii.eqb Bool.eqb].
      specialize (Hscan (length (fmt_u (- c))) [] 0 0%nat ltac:(lia)).
      rewrite app_nil_r in Hscan. rewrite Hscan, Nat.sub_diag. cbn [scan_digits fst].
      lia.
    + do 2 eexists. split; [reflexivity|]. split; [assumption|right; reflexivity].
  - assert (Hu : is_u32 c) by (unfold is_u32; lia).
    destruct (fmt_u_u32 _ Hu) as (Hlen & Hch & Hscan).
    split; [lia|].
    destruct (fmt_u c) as [|d ds] eqn:E; [simpl in Hlen; lia|].
    inversion Hch as [|? ? Hd Hds]; subst.
    destruct (dec_char_props d Hd) as (_ & Hm & _).
    split.
    + unfold strtol10. rewrite Hm.
      specialize (Hscan (length (d :: ds)) [] 0 0%nat ltac:(lia)).
      rewrite app_nil_r in Hscan. rewrite Hscan, Nat.sub_diag. cbn [scan_digits fst].
      lia.
    + do 2 eexists. split; [reflexivity|]. split; [assumption|left; assumption].
Qed.


(** ** Writing into a zeroed buffer *)

Lemma write_at_app (w z s : list ascii) :
  write_at (w ++ z) (length w) s = w ++ write_at z 0 s.
Proof.
  induction w as [|c w IH]; cbn [app length write_at].
  - destruct z; reflexivity.
  - rewrite IH. reflexivity.
Qed.

Lemma write_at_zeros (s : list ascii) :
  forall k, (length s <= k)%nat ->
  write_at (repeat NUL k) 0 s = s ++ repeat NUL (k - length s).
Proof.
  induction s as [|c s IH]; intros k Hk.
  - destruct k; reflexivity.
  - cbn [length] in *. destruct k as [|k]; [lia|].
    cbn [repeat write_at app Nat.sub]. rewrite IH by lia. reflexivity.
Qed.

Lemma repeat_cons_nul (k : nat) :
  (1 <= k)%nat -> NUL :: repeat NUL (k - 1) = repeat NUL k.
Proof. intros H. destruct k; [lia|]. simpl. rewrite Nat.sub_0_r. reflexivity. Qed.

(** Text and its NUL written at the end of what a buffer holds. *)
Lemma write_text (w s : list ascii) (k : nat) :
  (length s + 1 <= k)%nat ->
  write_at (w ++ repeat NUL k) (length w) (s ++ [NUL])
  = (w ++ s) ++ repeat NUL (k - length s).
Proof.
  intros Hk. rewrite write_at_app, write_at_zeros by (rewrite length_app; simpl; lia).
  rewrite length_app. cbn [length]. rewrite <- !app_assoc. f_equal. f_equal.
  cbn [app]. replace (k - (length s + 1))%nat with (k - length s - 1)%nat by lia.
  apply repeat_cons_nul. lia.
Qed.

Lemma snprintf_text (w s : list ascii) (k size : nat) :
  (length s + 1 <= size)%nat -> (length s + 1 <= k)%nat ->
  snprintf (w ++ repeat NUL k) (length w) size s
  = ((w ++ s) ++ repeat NUL (k - length s), Z.of_nat (length s)).
Proof.
  intros Hs Hk. unfold snprintf. rewrite firstn_all2 by lia.
  rewrite write_text by assumption. reflexivity.
Qed.

Lemma c_str_plain (t z : list ascii) :
  Forall (fun c => Ascii.eqb c NUL = false) t -> c_str (t ++ NUL :: z) = t.
Proof.
  induction 1 as [|c t Hc Ht IH]; cbn [app c_str].
  - reflexivity.
  - rewrite Hc, IH. reflexivity.
Qed.

Lemma c_str_plain_end (t : list ascii) :
  Forall (fun c => Ascii.eqb c NUL = false) t -> c_str t = t.
Proof.
  induction 1 as [|c t Hc Ht IH]; cbn [c_str]; [reflexivity|].
  rewrite Hc, IH. reflexivity.
Qed.

Lemma strncpy_text (w s : list ascii) (k : nat) :
  Forall (fun c => Ascii.eqb c NUL = false) s ->
  (length s + 1 <= k)%nat ->
  strncpy (w ++ repeat NUL k) (length w) s (length s + 1)
  = (w ++ s) ++ repeat NUL (k - length s).
Proof.
  intros Hp Hk. unfold strncpy. rewrite c_str_plain_end by assumption.
  rewrite firstn_all2 by lia.
  replace (length s + 1 - length s)%nat with 1%nat by lia.
  cbn [repeat]. apply write_text. assumption.
Qed.

(** ** Loops over arrays as folds *)

Lemma rd_middle (pre : list Z) (x : Z) (post : list Z) :
  rd (pre ++ x :: post) (length pre) = x.
Proof. unfold rd. apply nth_middle. Qed.

Lemma for_loop_fold {S : Type} (f : Z -> S -> S) (a : list Z) :
  forall pre st,
    for_loop (length a) (length pre) (fun i st => f (rd (pre ++ a) i) st) st
    = fold_left (fun st x => f x st) a st.
Proof.
  induction a as [|x a IH]; intros pre st; cbn [length for_loop fold_left].
  - reflexivity.
  - rewrite rd_middle.
    replace (pre ++ x :: a) with ((pre ++ [x]) ++ a) by (rewrite <- app_assoc; reflexivity).
    replace (Datatypes.S (length pre)) with (length (pre ++ [x]))
      by (rewrite length_app; simpl; lia).
    apply IH.
Qed.

Lemma for_loop_fold0 {S : Type} (f : Z -> S -> S) (a : list Z) (st : S) :
  for_loop (length a) 0 (fun i st => f (rd a i) st) st
  = fold_left (fun st x => f x st) a st.
Proof. apply (for_loop_fold f a [] st). Qed.

Lemma fmt_02X_length (b : Z) : length (fmt_02X b) = 2%nat.
Proof. reflexivity. Qed.

Lemma hex_text_length (a : list Z) : length (hex_text a) = (2 * length a)%nat.
Proof.
  induction a as [|x a IH]; [reflexivity|].
  unfold hex_text in *. cbn [flat_map]. rewrite length_app, IH. simpl. lia.
Qed.

(** The hexadecimal loop appends the text of the array. *)
Lemma hex_fold (a : list Z) :
  forall w k,
    (2 * length a + 1 <= k)%nat ->
    fold_left
      (fun (st : list ascii * Z) x =>
         let '(tmpstr, out_len) := st in
         let '(tmpstr, n) := snprintf tmpstr (Z.to_nat out_len) 3 (fmt_02X x) in
         (tmpstr, out_len + n))
      a (w ++ repeat NUL k, Z.of_nat (length w))
    = ((w ++ hex_text a) ++ repeat NUL (k - 2 * length a),
       Z.of_nat (length (w ++ hex_text a))).
Proof.
  induction a as [|x a IH]; intros w k Hk; cbn [fold_left length] in *.
  - unfold hex_text. cbn [flat_map]. rewrite app_nil_r, Nat.sub_0_r. reflexivity.
  - rewrite Nat2Z.id. rewrite snprintf_text by (rewrite fmt_02X_length; lia).
    rewrite fmt_02X_length.
    replace (Z.of_nat (length w) + Z.of_nat 2) with (Z.of_nat (length (w ++ fmt_02X x)))
      by (rewrite length_app, fmt_02X_length; lia).
    rewrite IH by lia.
    unfold hex_text. cbn [flat_map]. rewrite <- !app_assoc.
    replace (k - 2 - 2 * length a)%nat with (k - 2 * Datatypes.S (length a))%nat by lia.
    reflexivity.
Qed.

Lemma cprint_text_length (a : list Z) :
  Forall is_i32 a -> (length (cprint_text a) <= 12 * length a)%nat.
Proof.
  induction 1 as [|x a Hx Ha IH]; [simpl; lia|].
  unfold cprint_text in *. cbn [flat_map]. rewrite !length_app.
  destruct (fmt_d_i32 x Hx) as (Hl & _). simpl length. lia.
Qed.

(** The codeword loop appends each codeword and a space. *)
Lemma cprint_fold (a : list Z) :
  Forall is_i32 a ->
  forall w k,
    (12 * length a + 1 <= k)%nat ->
    fold_left
      (fun (st : list ascii * Z) x =>
         let '(tmpstr, out_len) := st in
         let '(tmpstr, n) :=
           snprintf tmpstr (Z.to_nat out_len) 13 (fmt_d x ++ [" "%char]) in
         (tmpstr, out_len + n))
      a (w ++ repeat NUL k, Z.of_nat (length w))
    = ((w ++ cprint_text a) ++ repeat NUL (k - length (cprint_text a)),
       Z.of_nat (length (w ++ cprint_text a))).
Proof.
  induction 1 as [|x a Hx Ha IH]; intros w k Hk; cbn [fold_left length] in *.
  - unfold cprint_text. cbn [flat_map length]. rewrite app_nil_r, Nat.sub_0_r.
    reflexivity.
  - destruct (fmt_d_i32 x Hx) as (Hl & _).
    assert (Hl' : (length (fmt_d x ++ [" "%char]) <= 12)%nat)
      by (rewrite length_app; simpl; lia).
    rewrite Nat2Z.id. rewrite snprintf_text by lia.
    replace (Z.of_nat (length w) + Z.of_nat (length (fmt_d x ++ [" "%char])))
      with (Z.of_nat (length (w ++ fmt_d x ++ [" "%char])))
      by (rewrite !length_app; lia).
    rewrite IH by lia.
    unfold cprint_text. cbn [flat_map]. rewrite <- !app_assoc.
    rewrite <- Nat.sub_add_distr, <- length_app, <- app_assoc. reflexivity.
Qed.


Lemma hex_loop (a : list Z) (w : list ascii) (k : nat) :
  (2 * length a + 1 <= k)%nat ->
  for_loop (length a) 0
    (fun i (st : list ascii * Z) =>
       let '(tmpstr, out_len) := st in
       let '(tmpstr0, n) := snprintf tmpstr (Z.to_nat out_len) 3 (fmt_02X (rd a i)) in
       (tmpstr0, out_len + n))
    (w ++ repeat NUL k, Z.of_nat (length w))
  = ((w ++ hex_text a) ++ repeat NUL (k - 2 * length a),
     Z.of_nat (length (w ++ hex_text a))).
Proof.
  intros Hk.
  rewrite (for_loop_fold0
             (fun x (st : list ascii * Z) =>
                let '(tmpstr, out_len) := st in
                let '(tmpstr0, n) := snprintf tmpstr (Z.to_nat out_len) 3 (fmt_02X x) in
                (tmpstr0, out_len + n)) a).
  apply hex_fold. assumption.
Qed.

Lemma cprint_loop (a : list Z) (w : list ascii) (k : nat) :
  Forall is_i32 a -> (12 * length a + 1 <= k)%nat ->
  for_loop (length a) 0
    (fun j (st : list ascii * Z) =>
       let '(tmpstr, out_len) := st in
       let '(tmpstr0, n) :=
         snprintf tmpstr (Z.to_nat out_len) 13 (fmt_d (rd a j) ++ [" "%char]) in
       (tmpstr0, out_len + n))
    (w ++ repeat NUL k, Z.of_nat (length w))
  = ((w ++ cprint_text a) ++ repeat NUL (k - length (cprint_text a)),
     Z.of_nat (length (w ++ cprint_text a))).
Proof.
  intros Ha Hk.
  rewrite (for_loop_fold0
             (fun x (st : list ascii * Z) =>
                let '(tmpstr, out_len) := st in
                let '(tmpstr0, n) :=
                  snprintf tmpstr (Z.to_nat out_len) 13 (fmt_d x ++ [" "%char]) in
                (tmpstr0, out_len + n)) a).
  apply cprint_fold; assumption.
Qed.

Lemma no_nul_app (a b : list ascii) : no_nul a -> no_nul b -> no_nul (a ++ b).
Proof. intros Ha Hb. apply Forall_app. split; assumption. Qed.

Lemma no_nul_dec (t : list ascii) : Forall dec_char t -> no_nul t.
Proof.
  intros H. eapply Forall_impl; [|exact H].
  intros c Hc. apply (dec_char_props c Hc).
Qed.

Lemma fmt_base_props (s b e : Z) :
  no_nul (fmt_base s b e) /\ (7 <= length (fmt_base s b e) <= 34)%nat.
Proof.
  assert (U : forall z, is_u32 (u32 z))
    by (intros z; unfold is_u32, u32; apply Z.mod_pos_bound; lia).
  destruct (fmt_u_u32 _ (U s)) as (L1 & C1 & _).
  destruct (fmt_u_u32 _ (U b)) as (L2 & C2 & _).
  destruct (fmt_u_u32 _ (U e)) as (L3 & C3 & _).
  unfold fmt_base. split.
  - constructor; [reflexivity|].
    apply no_nul_app; [apply no_nul_dec, C1|]. constructor; [reflexivity|].
    apply no_nul_app; [apply no_nul_dec, C2|]. constructor; [reflexivity|].
    apply no_nul_app; [apply no_nul_dec, C3|]. constructor; [reflexivity|constructor].
  - repeat (cbn [length]; rewrite ?length_app). lia.
Qed.

Lemma cprint_text_last (a : list Z) :
  a <> [] -> cprint_text a = removelast (cprint_text a) ++ [" "%char].
Proof.
  intros Ha. destruct (exists_last Ha) as (a' & c & ->).
  unfold cprint_text. rewrite flat_map_app. cbn [flat_map]. rewrite app_nil_r.
  rewrite !app_assoc. rewrite removelast_last. reflexivity.
Qed.

Lemma put_char (w : list ascii) (c : ascii) (k : nat) :
  Ascii.eqb c NUL = false -> (2 <= k)%nat ->
  strncpy (w ++ repeat NUL k) (length w) [c] 2 = (w ++ [c]) ++ repeat NUL (k - 1).
Proof.
  intros Hc Hk. apply (strncpy_text w [c] k); [|simpl; lia].
  constructor; [assumption|constructor].
Qed.

Lemma close_paren (w : list ascii) (k : nat) :
  (1 <= k)%nat ->
  strncpy ((w ++ [" "%char]) ++ repeat NUL k) (length w) [")"%char] 2
  = (w ++ [")"%char]) ++ repeat NUL k.
Proof.
  intros Hk. unfold strncpy.
  change (firstn 2 (c_str [")"%char]) ++ repeat NUL (2 - length (firstn 2 (c_str [")"%char]))))
    with [")"%char; NUL].
  rewrite <- app_assoc. rewrite write_at_app. cbn [app write_at].
  destruct k as [|k]; [lia|]. cbn [repeat write_at].
  rewrite <- app_assoc. cbn [app]. do 3 f_equal. destruct k; reflexivity.
Qed.

(** What [fprint_to_string] returns when the header fits its buffer. *)
Lemma fprint_to_string_canonical (x : FPrint) :
  valid_fprint x ->
  (length (fmt_base (songlen x) (bit_rate x) (num_errors x)) <= 23)%nat ->
  fprint_to_string (Some x) = canonical_text x ++ [NUL].
Proof.
  intros V Hfit. destruct V as [Lr Ld Lc Pc Us Ib Ie Hr Hd Hc]. unfold fprint_to_string.
  set (hdr := fmt_base (songlen x) (bit_rate x) (num_errors x)) in *.
  destruct (fmt_base_props (songlen x) (bit_rate x) (num_errors x)) as (Hnn & Hlen).
  fold hdr in Hnn, Hlen.
  assert (E1 : snprintf (repeat NUL BASE_SIZE) 0 BASE_SIZE hdr
               = (hdr ++ repeat NUL (24 - length hdr), Z.of_nat (length hdr))).
  { apply (snprintf_text [] hdr 24 24); lia. }
  rewrite E1. cbv beta iota zeta.
  set (N := Z.to_nat (Z.of_nat (length hdr) + (2 * Z.of_nat R_SIZE + 1)
                      + (2 * Z.of_nat DOM_SIZE + 1) + 12 * cprint_len x + 2)).
  assert (HN : N = (length hdr + 832 + 12 * length (cprint x))%nat).
  { unfold N, R_SIZE, DOM_SIZE. lia. }
  assert (E2 : strncpy (repeat NUL N) 0 (hdr ++ repeat NUL (24 - length hdr)) N
               = hdr ++ repeat NUL (N - length hdr)).
  { unfold strncpy.
    replace (24 - length hdr)%nat with (Datatypes.S (23 - length hdr)) by lia.
    cbn [repeat]. rewrite c_str_plain by assumption.
    rewrite firstn_all2 by lia.
    rewrite write_at_zeros by (rewrite length_app, repeat_length; lia).
    rewrite length_app, repeat_length.
    replace (N - (length hdr + (N - length hdr)))%nat with 0%nat by lia.
    cbn [repeat]. rewrite app_nil_r. reflexivity. }
  rewrite E2.
  rewrite <- Lr at 1. rewrite hex_loop by lia.
  replace (Z.to_nat (Z.of_nat (length (hdr ++ hex_text (r x)))))
    with (length (hdr ++ hex_text (r x))) by lia.
  rewrite put_char; [|reflexivity|rewrite Lr; unfold R_SIZE; lia].
  replace (Z.of_nat (length (hdr ++ hex_text (r x))) + 1)
    with (Z.of_nat (length ((hdr ++ hex_text (r x)) ++ [","%char])))
    by (rewrite (length_app _ [","%char]); cbn [length]; lia).
  rewrite <- Ld at 1.
  rewrite hex_loop by (rewrite Lr, Ld; unfold R_SIZE, DOM_SIZE; lia).
  set (w2 := ((hdr ++ hex_text (r x)) ++ [","%char]) ++ hex_text (dom x)).
  replace (Z.to_nat (Z.of_nat (length w2))) with (length w2) by lia.
  rewrite put_char;
    [|reflexivity|rewrite Lr, Ld; unfold R_SIZE, DOM_SIZE; lia].
  replace (Z.of_nat (length w2) + 1)
    with (Z.of_nat (length (w2 ++ [","%char])))
    by (rewrite (length_app _ [","%char]); cbn [length]; lia).
  rewrite Lc, Nat2Z.id.
  rewrite cprint_loop;
    [|assumption|rewrite Lr, Ld; unfold R_SIZE, DOM_SIZE; lia].
  set (w3 := w2 ++ [","%char]).
  assert (Hne : cprint x <> []).
  { intros E. rewrite E in Lc. simpl in Lc. lia. }
  pose proof (cprint_text_length (cprint x) Hc) as Hcl.
  pose proof (cprint_text_last _ Hne) as Hlast.
  set (body := removelast (cprint_text (cprint x))) in *.
  rewrite Hlast. rewrite Hlast in Hcl.
  rewrite (length_app body) in *. cbn [length] in *.
  set (k5 := (N - length hdr - 2 * length (r x) - 1
              - 2 * length (dom x) - 1 - (length body + 1))%nat).
  assert (Hk5 : (1 <= k5)%nat).
  { unfold k5. rewrite Lr, Ld. unfold R_SIZE, DOM_SIZE. lia. }
  replace (Z.to_nat (Z.of_nat (length (w3 ++ body ++ [" "%char])) - 1))
    with (length (w3 ++ body)) by (rewrite !length_app; cbn [length]; lia).
  replace (w3 ++ body ++ [" "%char]) with ((w3 ++ body) ++ [" "%char])
    by (rewrite <- app_assoc; reflexivity).
  rewrite close_paren by assumption.
  replace (Z.to_nat (Z.of_nat (length ((w3 ++ body) ++ [" "%char])) - 1 + 1 + 1))
    with (length ((w3 ++ body) ++ [")"%char]) + 1)%nat
    by (rewrite !length_app; cbn [length]; lia).
  destruct k5 as [|k6]; [lia|]. cbn [repeat].
  rewrite firstn_app.
  replace (length ((w3 ++ body) ++ [")"%char]) + 1
           - length ((w3 ++ body) ++ [")"%char]))%nat with 1%nat by lia.
  rewrite firstn_all2 by lia. cbn [firstn].
  unfold canonical_text, w3, w2. fold hdr. fold body.
  repeat (rewrite <- app_assoc || rewrite <- app_comm_cons). reflexivity.
Qed.

(** ** Reading the text back *)

Lemma char_at_skipn (s : list ascii) :
  forall i c rest, skipn i s = c :: rest ->
    char_at s i = c /\ skipn (Datatypes.S i) s = rest.
Proof.
  induction s as [|h t IH]; intros [|i] c rest H; cbn [skipn] in H; try discriminate.
  - inversion H; subst. split; reflexivity.
  - destruct (IH i c rest H) as [H1 H2]. split; [exact H1|exact H2].
Qed.

Lemma skipn_more (s : list ascii) (i : nat) (a b : list ascii) :
  skipn i s = a ++ b -> skipn (i + length a) s = b.
Proof.
  intros H. rewrite Nat.add_comm, <- skipn_skipn, H.
  rewrite skipn_app, skipn_all, Nat.sub_diag. reflexivity.
Qed.

(** The comma loop over characters that are not commas, and over a comma. *)
Lemma skip_commas_plain (s : list ascii) (p : list ascii) :
  Forall (fun c => Ascii.eqb c ","%char = false) p ->
  forall fuel n i rest,
    skipn i s = p ++ rest -> (n < 3)%nat -> (length p <= fuel)%nat ->
    skip_commas fuel s n i = skip_commas (fuel - length p) s n (i + length p).
Proof.
  induction 1 as [|c p Hc Hp IH]; intros fuel n i rest Hs Hn Hf.
  - cbn [length]. rewrite Nat.sub_0_r, Nat.add_0_r. reflexivity.
  - cbn [length app] in *. destruct fuel as [|f]; [lia|].
    destruct (char_at_skipn s i c (p ++ rest) Hs) as [Hc1 Hs1].
    cbn [skip_commas]. destruct (Nat.leb_spec 3 n); [lia|].
    rewrite Hc1, Hc. rewrite (IH f n (Datatypes.S i) rest) by (assumption || lia).
    f_equal; lia.
Qed.

Lemma skip_commas_comma (s : list ascii) (fuel n i : nat) (rest : list ascii) :
  skipn i s = ","%char :: rest -> (n < 3)%nat ->
  skip_commas (Datatypes.S fuel) s n i
  = skip_commas fuel s (Datatypes.S n) (Datatypes.S i).
Proof.
  intros Hs Hn. destruct (char_at_skipn s i _ _ Hs) as [Hc _].
  cbn [skip_commas]. destruct (Nat.leb_spec 3 n); [lia|].
  rewrite Hc. reflexivity.
Qed.

Lemma no_comma_dec (t : list ascii) :
  Forall dec_char t -> Forall (fun c => Ascii.eqb c ","%char = false) t.
Proof.
  intros H. eapply Forall_impl; [|exact H].
  intros c Hc. apply (dec_char_props c Hc).
Qed.

(** The header is read back, and the comma loop stops after it. *)
Lemma header_scan (s b e : Z) (rest : list ascii) :
  sscanf_base (fmt_base s b e ++ rest) = Some (u32 s, u32 b, u32 e)
  /\ skip_commas (length (fmt_base s b e ++ rest)) (fmt_base s b e ++ rest) 0 0
     = Some (length (fmt_base s b e)).
Proof.
  assert (U : forall z, is_u32 (u32 z))
    by (intros z; unfold is_u32, u32; apply Z.mod_pos_bound; lia).
  assert (Uid : forall z, u32 (u32 z) = u32 z)
    by (intros z; unfold u32; apply Z.mod_mod; lia).
  destruct (fmt_u_u32 _ (U s)) as (L1 & C1 & _).
  destruct (fmt_u_u32 _ (U b)) as (L2 & C2 & _).
  destruct (fmt_u_u32 _ (U e)) as (L3 & C3 & _).
  set (D1 := fmt_u (u32 s)) in *. set (D2 := fmt_u (u32 b)) in *.
  set (D3 := fmt_u (u32 e)) in *.
  assert (Et : fmt_base s b e ++ rest
               = "("%char :: D1 ++ ","%char :: D2 ++ ","%char :: D3 ++ ","%char :: rest).
  { unfold fmt_base. fold D1 D2 D3.
    repeat (rewrite <- app_assoc || rewrite <- app_comm_cons). reflexivity. }
  assert (El : length (fmt_base s b e)
               = (length D1 + length D2 + length D3 + 4)%nat).
  { unfold fmt_base. fold D1 D2 D3.
    repeat (cbn [length]; rewrite ?length_app). lia. }
  split.
  - rewrite Et. unfold sscanf_base. cbn [scan_lit Ascii.eqb Bool.eqb].
    unfold D1 at 2. rewrite scan_unsigned_fmt_u;
      [|apply U|reflexivity|unfold D1; rewrite length_app; lia].
    cbn [scan_lit Ascii.eqb Bool.eqb].
    unfold D2 at 2. rewrite scan_unsigned_fmt_u;
      [|apply U|reflexivity|unfold D2; rewrite length_app; lia].
    cbn [scan_lit Ascii.eqb Bool.eqb].
    unfold D3 at 2. rewrite scan_unsigned_fmt_u;
      [|apply U|reflexivity|unfold D3; rewrite length_app; lia].
    rewrite !Uid. reflexivity.
  - rewrite El. rewrite Et.
    set (t := "("%char :: D1 ++ ","%char :: D2 ++ ","%char :: D3 ++ ","%char :: rest).
    assert (Lt : (length D1 + length D2 + length D3 + 4 <= length t)%nat).
    { unfold t. repeat (cbn [length]; rewrite ?length_app). lia. }
    rewrite (skip_commas_plain t ("("%char :: D1)
               ltac:(constructor; [reflexivity|apply no_comma_dec, C1])
               _ 0%nat 0%nat (","%char :: D2 ++ ","%char :: D3 ++ ","%char :: rest))
      by (try reflexivity; cbn [length]; lia).
    cbn [length Nat.add].
    assert (S1 : skipn (Datatypes.S (length D1)) t
                 = ","%char :: D2 ++ ","%char :: D3 ++ ","%char :: rest).
    { apply (skipn_more t 0 ("("%char :: D1)). reflexivity. }
    destruct (length t - Datatypes.S (length D1))%nat as [|f1] eqn:F1; [lia|].
    rewrite (skip_commas_comma t f1 0 _ _ S1) by lia.
    assert (S2 : skipn (Datatypes.S (Datatypes.S (length D1))) t
                 = D2 ++ ","%char :: D3 ++ ","%char :: rest)
      by (apply (char_at_skipn t _ _ _ S1)).
    rewrite (skip_commas_plain t D2 (no_comma_dec _ C2) _ _ _ _ S2) by lia.
    assert (S3 : skipn (Datatypes.S (Datatypes.S (length D1)) + length D2) t
                 = ","%char :: D3 ++ ","%char :: rest)
      by (apply (skipn_more t _ D2), S2).
    destruct (f1 - length D2)%nat as [|f2] eqn:F2; [lia|].
    rewrite (skip_commas_comma t f2 1 _ _ S3) by lia.
    assert (S4 : skipn (Datatypes.S (Datatypes.S (Datatypes.S (length D1)) + length D2)) t
                 = D3 ++ ","%char :: rest)
      by (apply (char_at_skipn t _ _ _ S3)).
    rewrite (skip_commas_plain t D3 (no_comma_dec _ C3) _ _ _ _ S4) by lia.
    assert (S5 : skipn (Datatypes.S (Datatypes.S (Datatypes.S (length D1)) + length D2)
                        + length D3) t
                 = ","%char :: rest)
      by (apply (skipn_more t _ D3), S4).
    destruct (f2 - length D3)%nat as [|f3] eqn:F3; [lia|].
    rewrite (skip_commas_comma t f3 2 _ _ S5) by lia.
    destruct f3; cbn [skip_commas Nat.leb]; f_equal; lia.
Qed.

(** ** The two hexadecimal blocks *)

Lemma hex_text_app (a b : list Z) : hex_text (a ++ b) = hex_text a ++ hex_text b.
Proof. apply flat_map_app. Qed.

Lemma u8_small (b : Z) : is_u8 b -> u8 b = b.
Proof. unfold is_u8, u8. intros H. apply Z.mod_small. lia. Qed.

Lemma sscanf_hex_text (a : list Z) :
  Forall is_u8 a ->
  forall n rest, length a = n -> sscanf_hex n (hex_text a ++ rest) = Some a.
Proof.
  induction 1 as [|b a Hb Ha IH]; intros n rest Hn; subst n.
  - reflexivity.
  - cbn [length sscanf_hex hex_text flat_map]. rewrite <- app_assoc.
    rewrite (proj1 (fmt_02X_scan b _ Hb)). fold (hex_text a).
    rewrite (IH _ rest eq_refl), (u8_small b Hb). reflexivity.
Qed.

Lemma Forall_split {A : Type} (P : A -> Prop) (n : nat) (l : list A) :
  Forall P l -> Forall P (firstn n l) /\ Forall P (skipn n l).
Proof.
  intros H. rewrite <- (firstn_skipn n l) in H. apply Forall_app in H. exact H.
Qed.

Lemma scan_block_text (per : nat) (s : list ascii) (calls : nat) :
  forall (a : list Z) (ix : nat) (rest : list ascii),
    Forall is_u8 a -> length a = (calls * per)%nat ->
    skipn ix (c_str s) = hex_text a ++ rest ->
    scan_block calls per s ix = Some (a, (ix + 2 * length a)%nat)
    /\ skipn (ix + 2 * length a) (c_str s) = rest.
Proof.
  induction calls as [|c IH]; intros a ix rest Ha La Hs.
  - destruct a; [|discriminate]. cbn [scan_block length Nat.mul].
    rewrite Nat.add_0_r. split; [reflexivity|exact Hs].
  - cbn [Nat.mul] in La.
    assert (L1 : length (firstn per a) = per) by (rewrite length_firstn; lia).
    assert (L2 : length (skipn per a) = (c * per)%nat) by (rewrite length_skipn; lia).
    assert (Hs' : skipn ix (c_str s)
                  = hex_text (firstn per a) ++ hex_text (skipn per a) ++ rest).
    { rewrite app_assoc, <- hex_text_app, firstn_skipn. exact Hs. }
    destruct (IH (skipn per a) (ix + 2 * per)%nat rest) as [E1 E2].
    + apply (Forall_split _ per a Ha).
    + exact L2.
    + replace (2 * per)%nat with (length (hex_text (firstn per a)))
        by (rewrite hex_text_length; lia).
      apply skipn_more, Hs'.
    + cbn [scan_block]. rewrite Hs'.
      rewrite (sscanf_hex_text _ (proj1 (Forall_split _ per a Ha)) per _ L1).
      rewrite E1, firstn_skipn.
      replace (ix + 2 * per + 2 * length (skipn per a))%nat
        with (ix + 2 * length a)%nat in * by lia.
      split; [reflexivity|exact E2].
Qed.

(** ** The codeword loop *)

Lemma scan_cprint_char (s : list ascii) (f : nat) (c e : ascii) (cp : list Z)
      (q tl : list ascii) (ix : nat) :
  dec_char c \/ (q = [] /\ c = "-"%char) ->
  (length q < 12)%nat ->
  skipn ix s = e :: tl ->
  scan_cprint (Datatypes.S f) s c (mkCpState cp q ix)
  = scan_cprint f s e (mkCpState cp (q ++ [c]) (Datatypes.S ix)).
Proof.
  intros Hc Hq Hs. destruct (char_at_skipn s ix e tl Hs) as [He _].
  cbn [scan_cprint st_cprint st_cpn_str st_ix].
  destruct (Nat.leb_spec 12 (length q)) as [?|_]; [lia|].
  rewrite He. destruct Hc as [Hc|[-> ->]].
  - destruct (dec_char_props c Hc) as (_ & _ & _ & _ & N & Sp & P & D).
    rewrite N, Sp, P, D. reflexivity.
  - reflexivity.
Qed.

Lemma scan_cprint_digits (s : list ascii) (w : list ascii) :
  Forall dec_char w ->
  forall (f : nat) (c : ascii) (cp : list Z) (q : list ascii) (ix : nat)
         (e : ascii) (rest : list ascii),
    c :: skipn ix s = w ++ e :: rest ->
    (length q + length w < 13)%nat -> (length w <= f)%nat ->
    scan_cprint f s c (mkCpState cp q ix)
    = scan_cprint (f - length w) s e (mkCpState cp (q ++ w) (ix + length w))
    /\ skipn (ix + length w) s = rest.
Proof.
  induction 1 as [|d w Hd Hw IH]; intros f c cp q ix e rest Hs Hq Hf.
  - cbn [app length] in *. inversion Hs; subst.
    rewrite Nat.sub_0_r, Nat.add_0_r, app_nil_r. split; reflexivity.
  - cbn [app length] in *. inversion Hs as [[Hc Hs']]. subst c.
    destruct f as [|f]; [lia|].
    destruct (w ++ e :: rest) as [|e0 tl] eqn:E; [destruct w; discriminate|].
    destruct (char_at_skipn s ix e0 tl Hs') as [_ Hs2].
    rewrite (scan_cprint_char s f d e0 cp q tl ix (or_introl Hd)) by (lia || exact Hs').
    destruct (IH f e0 cp (q ++ [d]) (Datatypes.S ix) e rest) as [E1 E2].
    + rewrite Hs2. symmetry. exact E.
    + rewrite length_app. cbn [length]. lia.
    + lia.
    + rewrite E1, <- app_assoc. cbn [app].
      replace (ix + Datatypes.S (length w))%nat
        with (Datatypes.S ix + length w)%nat by lia.
      replace (Datatypes.S f - Datatypes.S (length w))%nat
        with (f - length w)%nat by lia.
      split; [reflexivity|exact E2].
Qed.

Lemma scan_cprint_word (s : list ascii) (v : Z) :
  is_i32 v ->
  forall (f : nat) (c : ascii) (cp : list Z) (ix : nat) (e : ascii)
         (rest : list ascii),
    c :: skipn ix s = fmt_d v ++ e :: rest ->
    (length (fmt_d v) <= f)%nat ->
    scan_cprint f s c (mkCpState cp [] ix)
    = scan_cprint (f - length (fmt_d v)) s e
        (mkCpState cp (fmt_d v) (ix + length (fmt_d v)))
    /\ skipn (ix + length (fmt_d v)) s = rest.
Proof.
  intros Hv f c cp ix e rest Hs Hf.
  destruct (fmt_d_i32 v Hv) as (L & _ & h & t & E & Ht & Hh).
  rewrite E in *. cbn [app length] in *. inversion Hs as [[Hc Hs']]. subst c.
  destruct f as [|f]; [lia|].
  destruct (t ++ e :: rest) as [|e0 tl] eqn:Et; [destruct t; discriminate|].
  destruct (char_at_skipn s ix e0 tl Hs') as [_ Hs2].
  rewrite (scan_cprint_char s f h e0 cp [] tl ix); [|
    destruct Hh as [Hh| ->]; [left; exact Hh|right; split; reflexivity]
    |cbn [length]; lia|exact Hs'].
  destruct (scan_cprint_digits s t Ht f e0 cp ([] ++ [h]) (Datatypes.S ix) e rest)
    as [E1 E2].
  - rewrite Hs2. symmetry. exact Et.
  - cbn [app length]. lia.
  - lia.
  - rewrite E1. cbn [app].
    replace (ix + Datatypes.S (length t))%nat
      with (Datatypes.S ix + length t)%nat by lia.
    replace (Datatypes.S f - Datatypes.S (length t))%nat
      with (f - length t)%nat by lia.
    split; [reflexivity|exact E2].
Qed.

Lemma scan_cprint_space (s : list ascii) (f : nat) (cp : list Z) (q : list ascii)
      (ix : nat) (e : ascii) (tl : list ascii) :
  (length q < 12)%nat -> skipn ix s = e :: tl ->
  scan_cprint (Datatypes.S f) s " "%char (mkCpState cp q ix)
  = scan_cprint f s e (mkCpState (cp ++ [i32 (strtol10 q)]) [] (Datatypes.S ix)).
Proof.
  intros Hq Hs. destruct (char_at_skipn s ix e tl Hs) as [He _].
  cbn [scan_cprint st_cprint st_cpn_str st_ix].
  destruct (Nat.leb_spec 12 (length q)) as [?|_]; [lia|].
  rewrite He. reflexivity.
Qed.

Lemma scan_cprint_close (s : list ascii) (f : nat) (cp : list Z) (q : list ascii)
      (ix : nat) :
  (length q < 12)%nat ->
  scan_cprint (Datatypes.S f) s ")"%char (mkCpState cp q ix)
  = Some (cp ++ [i32 (strtol10 q)]).
Proof.
  intros Hq. cbn [scan_cprint st_cprint st_cpn_str st_ix].
  destruct (Nat.leb_spec 12 (length q)) as [?|_]; [lia|]. reflexivity.
Qed.

Lemma i32_small (v : Z) : is_i32 v -> i32 v = v.
Proof. unfold is_i32, i32. intros H. rewrite Z.mod_small by lia. lia. Qed.

Lemma scan_cprint_words (s : list ascii) (a : list Z) :
  Forall is_i32 a ->
  forall (last : Z) (f : nat) (c : ascii) (cp : list Z) (ix : nat)
         (rest : list ascii),
    is_i32 last ->
    c :: skipn ix s = cprint_text a ++ fmt_d last ++ ")"%char :: rest ->
    (length (cprint_text a ++ fmt_d last) < f)%nat ->
    scan_cprint f s c (mkCpState cp [] ix) = Some (cp ++ a ++ [last]).
Proof.
  induction 1 as [|v a Hv Ha IH]; intros last f c cp ix rest Hl Hs Hf.
  - cbn [cprint_text flat_map app] in *.
    destruct (fmt_d_i32 last Hl) as (L & V & _).
    destruct (scan_cprint_word s last Hl f c cp ix _ _ Hs) as [E1 _]; [lia|].
    rewrite E1.
    destruct (f - length (fmt_d last))%nat as [|f'] eqn:F; [lia|].
    rewrite scan_cprint_close by lia. rewrite V, (i32_small _ Hl). reflexivity.
  - destruct (fmt_d_i32 v Hv) as (L & V & _).
    assert (Et : cprint_text (v :: a) = fmt_d v ++ " "%char :: cprint_text a).
    { unfold cprint_text. cbn [flat_map]. rewrite <- app_assoc. reflexivity. }
    rewrite Et in Hs, Hf. rewrite <- app_assoc in Hs. cbn [app] in Hs.
    rewrite !length_app in Hf. cbn [length] in Hf.
    destruct (scan_cprint_word s v Hv f c cp ix _ _ Hs) as [E1 E2]; [lia|].
    rewrite E1.
    destruct (cprint_text a ++ fmt_d last ++ ")"%char :: rest) as [|e0 tl] eqn:E.
    { apply app_eq_nil in E as [_ E]. apply app_eq_nil in E as [_ E]. discriminate. }
    destruct (char_at_skipn s _ e0 tl E2) as [_ Hs2].
    destruct (f - length (fmt_d v))%nat as [|f'] eqn:F; [lia|].
    rewrite (scan_cprint_space s f' cp _ _ e0 tl) by (lia || exact E2).
    rewrite V, (i32_small _ Hv).
    rewrite (IH last f' e0 (cp ++ [v]) _ rest Hl).
    + rewrite <- app_assoc. reflexivity.
    + rewrite Hs2. symmetry. exact E.
    + rewrite length_app in *. lia.
Qed.

(** ** The canonical text is a C string that reads back *)

Lemma removelast_cprint_text (a : list Z) (last : Z) :
  removelast (cprint_text (a ++ [last])) = cprint_text a ++ fmt_d last.
Proof.
  unfold cprint_text. rewrite flat_map_app. cbn [flat_map].
  rewrite app_nil_r, app_assoc. apply removelast_last.
Qed.

Lemma no_nul_hex (a : list Z) : Forall is_u8 a -> no_nul (hex_text a).
Proof.
  induction 1 as [|b a Hb Ha IH]; [constructor|].
  unfold hex_text. cbn [flat_map]. apply no_nul_app; [|exact IH].
  eapply Forall_impl; [|exact (proj2 (fmt_02X_scan b [] Hb))].
  intros c (d & Hd & ->). apply (hex_char_props d Hd).
Qed.

Lemma no_nul_fmt_d (v : Z) : is_i32 v -> no_nul (fmt_d v).
Proof.
  intros Hv. destruct (fmt_d_i32 v Hv) as (_ & _ & h & t & E & Ht & Hh).
  rewrite E. constructor; [|apply no_nul_dec, Ht].
  destruct Hh as [Hh| ->]; [apply (dec_char_props h Hh)|reflexivity].
Qed.

Lemma no_nul_cprint (a : list Z) : Forall is_i32 a -> no_nul (cprint_text a).
Proof.
  induction 1 as [|v a Hv Ha IH]; [constructor|].
  unfold cprint_text. cbn [flat_map]. apply no_nul_app; [|exact IH].
  apply no_nul_app; [apply no_nul_fmt_d, Hv|]. constructor; [reflexivity|constructor].
Qed.

Lemma canonical_shape (x : FPrint) (a : list Z) (last : Z) :
  cprint x = a ++ [last] ->
  canonical_text x
  = fmt_base (songlen x) (bit_rate x) (num_errors x)
      ++ hex_text (r x) ++ ","%char :: hex_text (dom x)
      ++ ","%char :: cprint_text a ++ fmt_d last ++ [")"%char].
Proof.
  intros E. unfold canonical_text.
  rewrite E, removelast_cprint_text, <- app_assoc. reflexivity.
Qed.

Lemma fprint_from_string_canonical (x : FPrint) :
  valid_fprint x -> fprint_from_string (canonical_text x ++ [NUL]) = Some x.
Proof.
  intros V. destruct V as [Lr Ld Lc Pc Us Ib Ie Hr Hd Hc].
  assert (Ne : cprint x <> []).
  { intros E. rewrite E in Lc. cbn [length] in Lc. lia. }
  destruct (exists_last Ne) as (a & last & Ecp).
  assert (Ha : Forall is_i32 a /\ Forall is_i32 [last])
    by (apply Forall_app; rewrite <- Ecp; exact Hc).
  destruct Ha as [Ha Hl]. apply Forall_inv in Hl.
  pose proof (canonical_shape x a last Ecp) as Ht.
  set (t := canonical_text x) in *.
  set (B := fmt_base (songlen x) (bit_rate x) (num_errors x)) in *.
  set (W := cprint_text a ++ fmt_d last).
  assert (Ht' : t = B ++ hex_text (r x) ++ ","%char :: hex_text (dom x)
                      ++ ","%char :: W ++ [")"%char]).
  { rewrite Ht. unfold W. rewrite <- app_assoc. reflexivity. }
  destruct (fmt_base_props (songlen x) (bit_rate x) (num_errors x)) as [NB LB].
  fold B in NB, LB.
  destruct (fmt_d_i32 last Hl) as (Ll & _).
  assert (LW : (1 <= length W)%nat) by (unfold W; rewrite length_app; lia).
  assert (Lt : length t = (length B + 2 * 348 + 1 + 2 * 66 + 1 + length W + 1)%nat).
  { rewrite Ht'. repeat (rewrite length_app; cbn [length]).
    rewrite !hex_text_length, Lr, Ld. unfold R_SIZE, DOM_SIZE. lia. }
  assert (Nt : no_nul t).
  { rewrite Ht. apply no_nul_app; [exact NB|].
    apply no_nul_app; [apply no_nul_hex, Hr|]. constructor; [reflexivity|].
    apply no_nul_app; [apply no_nul_hex, Hd|]. constructor; [reflexivity|].
    apply no_nul_app; [apply no_nul_cprint, Ha|].
    apply no_nul_app; [apply no_nul_fmt_d, Hl|]. constructor; [reflexivity|constructor]. }
  assert (Ec : c_str (t ++ [NUL]) = t) by (apply c_str_plain, Nt).
  (* the header and the comma loop *)
  destruct (header_scan (songlen x) (bit_rate x) (num_errors x)
              (hex_text (r x) ++ ","%char :: hex_text (dom x)
                 ++ ","%char :: W ++ [")"%char])) as [E1 E2].
  fold B in E1, E2. rewrite <- Ht' in E1, E2.
  (* the r block *)
  assert (S0 : skipn (length B) t
               = hex_text (r x) ++ ","%char :: hex_text (dom x)
                   ++ ","%char :: W ++ [")"%char]).
  { apply (skipn_more t 0 B). rewrite Ht' at 1. reflexivity. }
  destruct (scan_block_text 4 (t ++ [NUL]) (R_SIZE / 4) (r x) (length B)
              (","%char :: hex_text (dom x) ++ ","%char :: W ++ [")"%char]) Hr)
    as [E3 S1]; [rewrite Lr; reflexivity|rewrite Ec; exact S0|].
  rewrite Ec in S1. destruct (char_at_skipn t _ _ _ S1) as [C1 S2].
  (* the dom block *)
  destruct (scan_block_text 2 (t ++ [NUL]) (DOM_SIZE / 2) (dom x)
              (Datatypes.S (length B + 2 * length (r x)))
              (","%char :: W ++ [")"%char]) Hd)
    as [E4 S3]; [rewrite Ld; reflexivity|rewrite Ec; exact S2|].
  rewrite Ec in S3. destruct (char_at_skipn t _ _ _ S3) as [C2 S4].
  (* the codewords *)
  destruct (W ++ [")"%char]) as [|e0 tl] eqn:EW; [destruct W; discriminate|].
  destruct (char_at_skipn t _ _ _ S4) as [C3 S5].
  assert (E5 : scan_cprint (Datatypes.S (length t)) t e0
                 (mkCpState [] []
                    (Datatypes.S (Datatypes.S
                       (Datatypes.S (length B + 2 * length (r x))
                        + 2 * length (dom x)))))
               = Some ([] ++ a ++ [last])).
  { apply (scan_cprint_words t a Ha last _ _ _ _ [] Hl).
    - rewrite S5, <- EW. unfold W. rewrite <- app_assoc. reflexivity.
    - fold W. lia. }
  unfold fprint_from_string, strlen. rewrite Ec.
  destruct (Z.ltb_spec (Z.of_nat (length t))
              (11 + 2 * Z.of_nat R_SIZE + 2 * Z.of_nat DOM_SIZE)) as [Bad|_].
  { unfold R_SIZE, DOM_SIZE in Bad. lia. }
  rewrite E1, E2, E3, C1.
  change (negb (Ascii.eqb ","%char ","%char)) with false. cbv beta iota.
  rewrite E4, C2.
  change (negb (Ascii.eqb ","%char ","%char)) with false. cbv beta iota zeta.
  rewrite C3, E5. cbn [app]. rewrite <- Ecp.
  unfold new_fprint. cbn [cprint]. rewrite <- Lc.
  destruct (Z.ltb_spec (cprint_len x) 1) as [?|_]; [lia|].
  rewrite skipn_all2 by (rewrite repeat_length, Lc, Nat2Z.id; lia).
  rewrite app_nil_r, (i32_u32 _ Ib), (i32_u32 _ Ie).
  replace (u32 (songlen x)) with (songlen x)
    by (unfold is_u32 in Us; unfold u32; rewrite Z.mod_small; lia).
  destruct x; reflexivity.
Qed.

(** Writing a record whose header fits the 24-byte buffer and reading the
    text back gives the record. *)
Lemma text_roundtrip_narrow_header (x : FPrint) :
  valid_fprint x ->
  (length (fmt_base (songlen x) (bit_rate x) (num_errors x)) <= 23)%nat ->
  fprint_from_string (fprint_to_string (Some x)) = Some x.
Proof.
  intros V L. rewrite (fprint_to_string_canonical x V L).
  apply fprint_from_string_canonical, V.
Qed.


(** ** Deciding well-formedness *)

Lemma all_in_Forall (lo hi : Z) (l : list Z) :
  all_in lo hi l = true -> Forall (fun x => lo <= x < hi) l.
Proof.
  unfold all_in. rewrite forallb_forall, Forall_forall. intros H x Hx.
  specialize (H x Hx). apply andb_prop in H. destruct H as [H1 H2].
  apply Z.leb_le in H1. apply Z.ltb_lt in H2. lia.
Qed.

Lemma valid_fprint_b_ok (a : FPrint) : valid_fprint_b a = true -> valid_fprint a.
Proof.
  unfold valid_fprint_b. intros H.
  repeat (apply andb_prop in H; destruct H as [H ?]).
  repeat match goal with
         | X : all_in _ _ _ = true |- _ => apply all_in_Forall in X
         | X : Nat.eqb _ _ = true |- _ => apply Nat.eqb_eq in X
         | X : (_ =? _) = true |- _ => apply Z.eqb_eq in X
         | X : (_ <=? _) = true |- _ => apply Z.leb_le in X
         end.
  repeat match goal with
         | X : Forall _ (_ :: _) |- _ => inversion X; clear X; subst
         end.
  constructor; unfold is_u32, is_i32; try assumption; lia.
Qed.

Lemma valid_union_b_ok (u : FPrintUnion) : valid_union_b u = true -> valid_union u.
Proof.
  unfold valid_union_b. intros H.
  repeat (apply andb_prop in H; destruct H as [H ?]).
  repeat match goal with
         | X : all_in _ _ _ = true |- _ => apply all_in_Forall in X
         | X : Nat.eqb _ _ = true |- _ => apply Nat.eqb_eq in X
         | X : (_ =? _) = true |- _ => apply Z.eqb_eq in X
         | X : (_ <=? _) = true |- _ => apply Z.leb_le in X
         end.
  repeat match goal with
         | X : Forall _ (_ :: _) |- _ => inversion X; clear X; subst
         end.
  constructor; unfold is_u32, is_i32; try assumption; lia.
Qed.

Lemma covered_b_ok (u : FPrintUnion) (a : FPrint) :
  covered_b u a = true -> covered u a.
Proof.
  unfold covered_b. intros H.
  do 5 (apply andb_prop in H; destruct H as [H ?]).
  repeat match goal with
         | X : (_ <=? _) = true |- _ => apply Z.leb_le in X
         end.
  constructor; auto using covers_b_spec; lia.
Qed.

Lemma sample_fp_valid : valid_fprint sample_fp.
Proof. apply valid_fprint_b_ok. vm_compute. reflexivity. Qed.

Lemma sample_union_valid : valid_union sample_union.
Proof. apply valid_union_b_ok. vm_compute. reflexivity. Qed.

(** ** The composite score of a record against itself *)

Section SelfMatch.
Variable c_pow : spec_float -> spec_float -> spec_float.
Hypothesis c_pow_one : c_pow F64.one (F64.of_Z 3) = F64.one.

Lemma match_cpfm_self_value (a : FPrint) :
  valid_fprint a -> match_cpfm c_pow (Some a) (Some a) = self_score.
Proof.
  intros V. destruct V. unfold match_cpfm, is_u32, INT_MAX in *.
  rewrite songlen_gate_self by lia.
  rewrite match_fooid_fp_self, match_chromab_self by lia.
  rewrite c_pow_one. reflexivity.
Qed.

(** C1. The claim is that [match_cpfm] returns a value in [[0,1]] because
    the combiner is clamped. The code returns the combiner as it is: for
    every valid record, the score against itself is [self_score], the
    combiner at [fm = cp = 1], and that value is greater than 1. *)
Theorem match_cpfm_self_exceeds_one (a : FPrint) :
  valid_fprint a ->
  match_cpfm c_pow (Some a) (Some a) = self_score
  /\ fgt self_score F64.one = true
  /\ fle (match_cpfm c_pow (Some a) (Some a)) F64.one = false.
Proof.
  intros V. rewrite match_cpfm_self_value by assumption.
  repeat split; vm_compute; reflexivity.
Qed.

(** C2. For every valid record [a], [match_cpfm(a, a) >= 0.98], and the
    EQ predicate [FP_ISEQ] is true of a record compared with itself. *)
Theorem match_cpfm_self_match (a : FPrint) :
  valid_fprint a ->
  fle FP_EXACT_CUTOFF (match_cpfm c_pow (Some a) (Some a)) = true
  /\ FP_ISEQ (match_cpfm c_pow (Some a) (Some a)) = true.
Proof.
  intros V. rewrite match_cpfm_self_value by assumption.
  split; vm_compute; reflexivity.
Qed.
End SelfMatch.

Lemma match_cpfm_self_exceeds_one_witness :
  match_cpfm cube_pow (Some sample_fp) (Some sample_fp) = self_score
  /\ fgt self_score F64.one = true
  /\ fle (match_cpfm cube_pow (Some sample_fp) (Some sample_fp)) F64.one = false.
Proof.
  apply (match_cpfm_self_exceeds_one cube_pow).
  - vm_compute. reflexivity.
  - apply valid_fprint_b_ok. vm_compute. reflexivity.
Defined.

Lemma match_cpfm_self_match_witness :
  fle FP_EXACT_CUTOFF (match_cpfm cube_pow (Some sample_fp) (Some sample_fp)) = true
  /\ FP_ISEQ (match_cpfm cube_pow (Some sample_fp) (Some sample_fp)) = true.
Proof.
  apply (match_cpfm_self_match cube_pow).
  - vm_compute. reflexivity.
  - apply valid_fprint_b_ok. vm_compute. reflexivity.
Defined.

(** ** The text form *)

(** C3. The claim is that parsing the text form of any valid record gives
    the record back. [fprint_to_string] formats the header into a buffer of
    [BASE_SIZE = 24] bytes; the header of [wide_header_fp] takes 27
    characters, the text is cut after 23 of them, a NUL follows, and
    [fprint_from_string] rejects the string as too short. *)
Theorem text_roundtrip_fails_on_wide_header :
  valid_fprint wide_header_fp
  /\ strlen (fprint_to_string (Some wide_header_fp)) = 23
  /\ fprint_from_string (fprint_to_string (Some wide_header_fp)) = None.
Proof.
  split; [apply valid_fprint_b_ok; vm_compute; reflexivity|].
  split; vm_compute; reflexivity.
Qed.

(** A record whose header fits comes back unchanged. *)
Lemma text_roundtrip_sample :
  fprint_from_string (fprint_to_string (Some sample_fp)) = Some sample_fp.
Proof. vm_compute. reflexivity. Qed.

(** ** [same] *)

Lemma memcmp_refl (n : nat) : forall g, memcmp g g n = 0.
Proof.
  induction n as [|n IH]; intros g; simpl; [reflexivity|].
  rewrite Z.ltb_irrefl, Z.gtb_ltb, Z.ltb_irrefl. apply IH.
Qed.

(** C4. The claim is that [same] reports two keys as the same exactly when
    their [cprint_len] agree and their images compare equal. The code
    stores [(bool) memcmp(...)]: it reports false for every key compared
    with itself, and true for two keys of equal [cprint_len] whose images
    differ. *)
Theorem fprint_same_inverted :
  (forall g, fprint_same g g = false)
  /\ image_cprint_len image_a = image_cprint_len image_b
  /\ image_a <> image_b
  /\ fprint_same image_a image_b = true.
Proof.
  split; [|split; [|split]].
  - intros g. unfold fprint_same. rewrite Z.eqb_refl, memcmp_refl. reflexivity.
  - vm_compute. reflexivity.
  - vm_compute. discriminate.
  - vm_compute. reflexivity.
Qed.

(** ** Conversion of a length to [float] *)

Lemma shr_1_m (mrs : shr_record) :
  0 <= shr_m mrs -> shr_m (shr_1 mrs) = shr_m mrs / 2.
Proof.
  destruct mrs as [m r s]. cbn [shr_m]. intros H.
  destruct m as [|p|p]; [reflexivity| |lia].
  destruct p as [p|p|]; cbn [shr_1 shr_m].
  - apply Z.div_unique with (r := 1); lia.
  - apply Z.div_unique with (r := 0); lia.
  - reflexivity.
Qed.

Lemma iter_shr_m (p : positive) :
  forall mrs, 0 <= shr_m mrs ->
    shr_m (iter_pos shr_1 p mrs) = shr_m mrs / 2 ^ Z.pos p.
Proof.
  induction p as [p IH|p IH|]; intros mrs H; cbn [iter_pos].
  - assert (H1 : 0 <= shr_m (shr_1 mrs))
      by (rewrite shr_1_m by exact H; apply Z.div_pos; lia).
    assert (H2 : 0 <= shr_m (iter_pos shr_1 p (shr_1 mrs)))
      by (rewrite IH by exact H1; apply Z.div_pos; [exact H1|]; apply Z.pow_pos_nonneg; lia).
    rewrite IH by exact H2. rewrite IH by exact H1. rewrite shr_1_m by exact H.
    assert (0 < 2 ^ Z.pos p) by (apply Z.pow_pos_nonneg; lia).
    assert (E : 2 ^ Z.pos p~1 = 2 * 2 ^ Z.pos p * 2 ^ Z.pos p).
    { assert (E0 : Z.pos p~1 = 1 + Z.pos p + Z.pos p) by lia.
      rewrite E0, !Z.pow_add_r by lia. reflexivity. }
    rewrite E. rewrite !Z.div_div by lia. f_equal; lia.
  - assert (H2 : 0 <= shr_m (iter_pos shr_1 p mrs))
      by (rewrite IH by exact H; apply Z.div_pos; [exact H|]; apply Z.pow_pos_nonneg; lia).
    rewrite IH by exact H2. rewrite IH by exact H.
    assert (0 < 2 ^ Z.pos p) by (apply Z.pow_pos_nonneg; lia).
    assert (E : 2 ^ Z.pos p~0 = 2 ^ Z.pos p * 2 ^ Z.pos p).
    { assert (E0 : Z.pos p~0 = Z.pos p + Z.pos p) by lia.
      rewrite E0, !Z.pow_add_r by lia. reflexivity. }
    rewrite E. rewrite !Z.div_div by lia. f_equal; lia.
  - rewrite shr_1_m by exact H. reflexivity.
Qed.

Lemma digits2_pos_lower (p : positive) :
  2 ^ (Z.pos (digits2_pos p) - 1) <= Z.pos p.
Proof.
  induction p as [p IH|p IH|]; cbn [digits2_pos]; [| |cbn; lia].
  - rewrite Pos2Z.inj_succ.
    replace (Z.succ (Z.pos (digits2_pos p)) - 1)
      with (Z.succ (Z.pos (digits2_pos p) - 1)) by lia.
    rewrite Z.pow_succ_r by lia. lia.
  - rewrite Pos2Z.inj_succ.
    replace (Z.succ (Z.pos (digits2_pos p)) - 1)
      with (Z.succ (Z.pos (digits2_pos p) - 1)) by lia.
    rewrite Z.pow_succ_r by lia. lia.
Qed.

Lemma digits2_pos_upper (p : positive) : Z.pos p < 2 ^ Z.pos (digits2_pos p).
Proof.
  induction p as [p IH|p IH|]; cbn [digits2_pos]; [| |cbn; lia].
  - rewrite Pos2Z.inj_succ, Z.pow_succ_r by lia. lia.
  - rewrite Pos2Z.inj_succ, Z.pow_succ_r by lia. lia.
Qed.

Lemma digits2_pos_unique (p : positive) (k : Z) :
  2 ^ (k - 1) <= Z.pos p < 2 ^ k -> Z.pos (digits2_pos p) = k.
Proof.
  intros [Hl Hu].
  pose proof (digits2_pos_lower p) as Dl. pose proof (digits2_pos_upper p) as Du.
  set (d := Z.pos (digits2_pos p)) in *.
  assert (Hk : 0 < k).
  { destruct (Z.ltb_spec 0 k) as [|Hk]; [assumption|].
    destruct (Z.eq_dec k 0) as [->|]; [simpl in Hu; lia|].
    rewrite (Z.pow_neg_r 2 k) in Hu by lia. lia. }
  destruct (Z.lt_trichotomy d k) as [H | [H | H]]; [|assumption|].
  - pose proof (Z.pow_le_mono_r 2 d (k - 1) ltac:(lia) ltac:(lia)). lia.
  - pose proof (Z.pow_le_mono_r 2 k (d - 1) ltac:(lia) ltac:(lia)). lia.
Qed.

(** The first shift of [binary_round_aux] leaves the 24 leading bits of a
    mantissa of at least 24 bits. *)
Lemma F32_shr_fexp_m (p : positive) (e : Z) (l : location) :
  24 <= Z.pos (digits2_pos p) -> -149 <= e ->
  let d := Z.pos (digits2_pos p) in
  let '(mrs, e') := shr_fexp F32.prec F32.emax (Z.pos p) e l in
  shr_m mrs = Z.pos p / 2 ^ (d - 24) /\ e' = e + (d - 24).
Proof.
  intros Hd He d. unfold shr_fexp.
  assert (Hf : fexp F32.prec F32.emax (Zdigits2 (Z.pos p) + e) - e = d - 24).
  { unfold fexp, emin, F32.prec, F32.emax. cbn [Zdigits2]. fold d. lia. }
  rewrite Hf. unfold shr.
  destruct (d - 24) as [|q|q] eqn:Eq; [| |lia].
  - cbn [shr_record_of_loc shr_m]. destruct l as [|[| |]]; cbn [shr_m];
      rewrite Z.div_1_r; split; (reflexivity || lia).
  - split; [|reflexivity]. rewrite iter_shr_m.
    + destruct l as [|[| |]]; reflexivity.
    + destruct l as [|[| |]]; cbn [shr_record_of_loc shr_m]; lia.
Qed.

Lemma round_nearest_even_step (m : Z) (l : location) :
  round_nearest_even m l = m \/ round_nearest_even m l = m + 1.
Proof.
  destruct l as [|[| |]]; cbn [round_nearest_even]; auto.
  destruct (Z.even m); auto.
Qed.

(** Rounding a mantissa of at least 24 bits gives a finite, positive
    [float] as long as the exponent stays below the largest one. *)
Lemma F32_round_aux_finite (p : positive) (e : Z) (l : location) :
  24 <= Z.pos (digits2_pos p) -> -149 <= e ->
  e + (Z.pos (digits2_pos p) - 24) < 104 ->
  exists m e', binary_round_aux F32.prec F32.emax false (Z.pos p) e l
               = S754_finite false m e'.
Proof.
  intros Hd He Hmax. unfold binary_round_aux.
  pose proof (F32_shr_fexp_m p e l Hd He) as H1. cbv zeta in H1.
  destruct (shr_fexp F32.prec F32.emax (Z.pos p) e l) as [mrs e1].
  destruct H1 as [Hm He1].
  pose proof (digits2_pos_lower p) as Dl. pose proof (digits2_pos_upper p) as Du.
  set (d := Z.pos (digits2_pos p)) in *.
  assert (Hpow : 2 ^ d = 2 ^ 24 * 2 ^ (d - 24))
    by (rewrite <- Z.pow_add_r by lia; f_equal; lia).
  assert (Hpow' : 2 ^ (d - 1) = 2 ^ 23 * 2 ^ (d - 24))
    by (rewrite <- Z.pow_add_r by lia; f_equal; lia).
  assert (Hq : 0 < 2 ^ (d - 24)) by (apply Z.pow_pos_nonneg; lia).
  assert (Hm1 : 2 ^ 23 <= shr_m mrs < 2 ^ 24).
  { rewrite Hm. split.
    - apply Z.div_le_lower_bound; [exact Hq|]. lia.
    - apply Z.div_lt_upper_bound; [exact Hq|]. lia. }
  set (m2 := round_nearest_even (shr_m mrs) (loc_of_shr_record mrs)).
  assert (Hm2 : 2 ^ 23 <= m2 <= 2 ^ 24).
  { destruct (round_nearest_even_step (shr_m mrs) (loc_of_shr_record mrs)) as [E|E];
      unfold m2; rewrite E; lia. }
  destruct m2 as [|p2|p2] eqn:Em2; [lia| |lia].
  destruct (Z.eq_dec (Z.pos p2) (2 ^ 24)) as [Hfull | Hnot].
  - injection Hfull as ->.
    unfold shr_fexp. cbn [Zdigits2 digits2_pos].
    assert (Hf : fexp F32.prec F32.emax (25 + e1) - e1 = 1)
      by (unfold fexp, emin, F32.prec, F32.emax; lia).
    change (Z.pos (Pos.succ (Pos.succ (Pos.succ (Pos.succ (Pos.succ (Pos.succ
             (Pos.succ (Pos.succ (Pos.succ (Pos.succ (Pos.succ (Pos.succ
             (Pos.succ (Pos.succ (Pos.succ (Pos.succ (Pos.succ (Pos.succ
             (Pos.succ (Pos.succ (Pos.succ (Pos.succ (Pos.succ (Pos.succ
             1))))))))))))))))))))))))) with 25.
    rewrite Hf. cbn [shr shr_record_of_loc iter_pos shr_1 shr_m].
    assert (Hle : (e1 + 1 <=? F32.emax - F32.prec) = true)
      by (apply Z.leb_le; unfold F32.emax, F32.prec; lia).
    rewrite Hle. eauto.
  - assert (D2 : Z.pos (digits2_pos p2) = 24)
      by (apply digits2_pos_unique; change (24 - 1) with 23; lia).
    unfold shr_fexp. cbn [Zdigits2]. rewrite D2.
    assert (Hf : fexp F32.prec F32.emax (24 + e1) - e1 = 0)
      by (unfold fexp, emin, F32.prec, F32.emax; lia).
    rewrite Hf. cbn [shr shr_record_of_loc shr_m].
    assert (Hle : (e1 <=? F32.emax - F32.prec) = true)
      by (apply Z.leb_le; unfold F32.emax, F32.prec; lia).
    rewrite Hle. eauto.
Qed.

(** A positive [size_t] converts to a finite, positive [float]. *)
Lemma F32_of_Z_finite (n : Z) :
  0 < n < 2 ^ 64 -> exists m e, F32.of_Z n = S754_finite false m e.
Proof.
  intros Hn. destruct n as [|p|p]; try lia.
  unfold F32.of_Z, binary_normalize, binary_round.
  pose proof (digits2_pos_bound p 64 ltac:(lia) ltac:(lia)) as Hd.
  unfold shl_align.
  destruct (Z.leb_spec 24 (Z.pos (digits2_pos p))) as [Hge | Hlt].
  - assert (Hf : fexp F32.prec F32.emax (Z.pos (digits2_pos p) + 0)
                 = Z.pos (digits2_pos p) - 24)
      by (unfold fexp, emin, F32.prec, F32.emax; lia).
    rewrite Hf.
    destruct (Z.pos (digits2_pos p) - 24 - 0) as [|q|q] eqn:Eq; try lia;
      apply F32_round_aux_finite; lia.
  - assert (Hf : fexp F32.prec F32.emax (Z.pos (digits2_pos p) + 0)
                 = Z.pos (digits2_pos p) - 24)
      by (unfold fexp, emin, F32.prec, F32.emax; lia).
    rewrite Hf.
    destruct (Z.pos (digits2_pos p) - 24 - 0) as [|q|q] eqn:Eq; try lia.
    apply F32_round_aux_finite; rewrite ?digits2_pos_iter; lia.
Qed.

(** A finite [float] divided by itself is exactly 1. *)
Lemma F32_div_self (s : bool) (m : positive) (e : Z) :
  F32.div (S754_finite s m e) (S754_finite s m e) = F32.one.
Proof.
  unfold F32.div, SFdiv, SFdiv_core_binary.
  replace (Zdigits2 (Z.pos m) + e - (Zdigits2 (Z.pos m) + e)) with 0 by lia.
  replace (e - e) with 0 by lia.
  change (Z.min (fexp F32.prec F32.emax 0) 0) with (-24).
  change (0 - -24) with 24.
  cbv beta iota zeta.
  rewrite Z.shiftl_mul_pow2 by lia.
  destruct (Z.div_eucl (Z.pos m * 2 ^ 24) (Z.pos m)) as [q r] eqn:E.
  assert (Hq : q = 2 ^ 24).
  { change q with (fst (q, r)). rewrite <- E.
    change (fst (Z.div_eucl (Z.pos m * 2 ^ 24) (Z.pos m)))
      with ((Z.pos m * 2 ^ 24) / Z.pos m).
    rewrite Z.mul_comm. apply Z.div_mul. lia. }
  assert (Hr : r = 0).
  { change r with (snd (q, r)). rewrite <- E.
    change (snd (Z.div_eucl (Z.pos m * 2 ^ 24) (Z.pos m)))
      with ((Z.pos m * 2 ^ 24) mod Z.pos m).
    rewrite Z.mul_comm. apply Z.mod_mul. lia. }
  subst q r.
  assert (Hl : new_location (Z.pos m) 0 = loc_Exact).
  { unfold new_location. destruct (Z.even (Z.pos m)); reflexivity. }
  rewrite Hl. rewrite xorb_nilpotent. reflexivity.
Qed.

Lemma F32_div_of_Z_self (n : Z) :
  0 < n < 2 ^ 64 -> F32.div (F32.of_Z n) (F32.of_Z n) = F32.one.
Proof.
  intros Hn. destruct (F32_of_Z_finite n Hn) as (m & e & ->).
  apply F32_div_self.
Qed.

(** ** Coverage, word by word *)

Lemma land_lor_cover (a b c d : Z) :
  Z.land a b = a -> Z.land c d = c -> Z.land (Z.lor a c) (Z.lor b d) = Z.lor a c.
Proof.
  intros H1 H2. apply Z.bits_inj'; intros t _.
  rewrite Z.land_spec, !Z.lor_spec. rewrite <- H1, <- H2 at 1 2.
  rewrite !Z.land_spec.
  destruct (Z.testbit a t), (Z.testbit b t), (Z.testbit c t), (Z.testbit d t);
    reflexivity.
Qed.

Lemma land_shiftl_cover (a b k : Z) :
  Z.land a b = a -> Z.land (Z.shiftl a k) (Z.shiftl b k) = Z.shiftl a k.
Proof. intros H. rewrite <- Z.shiftl_land, H. reflexivity. Qed.

Lemma uncovered_covered (x y : Z) : Z.land x y = x -> uncovered x (Z.lor y 0) = 0.
Proof.
  intros H. unfold uncovered. rewrite Z.lor_0_r, H. apply Z.lxor_nilpotent.
Qed.

Lemma load32_covered (n : nat) (x y : list Z) (i : nat) :
  covers n x y -> (4 * i + 3 < n)%nat ->
  Z.land (load32 x i) (load32 y i) = load32 x i.
Proof.
  intros H Hi. unfold load32.
  repeat apply land_lor_cover; try apply land_shiftl_cover; apply H; lia.
Qed.

Lemma load16_covered (n : nat) (x y : list Z) (i : nat) :
  covers n x y -> (2 * i + 1 < n)%nat ->
  Z.land (load16 x i) (load16 y i) = load16 x i.
Proof.
  intros H Hi. unfold load16.
  apply land_lor_cover; try apply land_shiftl_cover; apply H; lia.
Qed.

Lemma load16_u16 (l : list Z) (i : nat) :
  Forall is_u8 l -> u16 (load16 l i) = load16 l i.
Proof.
  intros Hl. unfold u16, load16.
  pose proof (rd_u8 l (2 * i) Hl) as H0. pose proof (rd_u8 l (2 * i + 1) Hl) as H1.
  unfold is_u8 in H0, H1.
  rewrite <- Z.land_ones by lia.
  apply Z.bits_inj'; intros t Ht.
  rewrite Z.land_spec, Z.lor_spec, Z.shiftl_spec by lia.
  rewrite Z.testbit_ones_nonneg by lia.
  destruct (Z.ltb_spec t 16) as [Hlt | Hge].
  - apply andb_true_r.
  - rewrite andb_false_r. symmetry. apply orb_false_iff. split.
    + apply u8_high_bits; [exact H0|lia].
    + apply u8_high_bits; [exact H1|lia].
Qed.

(** The lanes of a zero word only count in [rdiff[0]]. *)
Lemma rdiff_fooid32_zero (rdiff : rdiff_t) :
  rdiff_weight rdiff = 0 -> rdiff_weight (rdiff_fooid32 0 rdiff) = 0.
Proof.
  destruct rdiff as [[[d0 d1] d2] d3]. intros H. unfold rdiff_fooid32.
  change (Z.land 0 3) with 0.
  apply (for_loop_inv (fun rd => rdiff_weight rd = 0)).
  - exact H.
  - intros i [[[e0 e1] e2] e3] _ He. rewrite Z.shiftr_0_l. exact He.
Qed.

Lemma diff_r_cover_covered (r1 r2 : list Z) :
  covers R_SIZE r1 r2 -> diff_r_cover r1 r2 (fun _ => 0) = 0.
Proof.
  intros H. unfold diff_r_cover.
  apply (for_loop_inv (fun rd => rdiff_weight rd = 0)).
  - reflexivity.
  - intros i rd Hi Hrd. rewrite uncovered_covered.
    + apply rdiff_fooid32_zero, Hrd.
    + apply (load32_covered R_SIZE); [exact H|]. unfold R_SIZE32, R_SIZE in *. lia.
Qed.

Lemma diff_dom_cover_covered (dom1 dom2 : list Z) :
  Forall is_u8 dom2 -> covers DOM_SIZE dom1 dom2 ->
  diff_dom_cover dom1 dom2 (fun _ => 0) 0 = 0.
Proof.
  intros V H. unfold diff_dom_cover.
  assert (E : for_loop DOM_LEN32 0
                (fun j diff_dom =>
                   u32 (diff_dom
                        + pop32 (uncovered (load32 dom1 j)
                                           (Z.lor (load32 dom2 j) 0)))) 0 = 0).
  { apply (for_loop_inv (fun d => d = 0)).
    - reflexivity.
    - intros i d Hi ->. rewrite uncovered_covered; [reflexivity|].
      apply (load32_covered DOM_SIZE); [exact H|].
      unfold DOM_LEN32, DOM_SIZE in *. lia. }
  rewrite E. rewrite Z.lor_0_r, load16_u16 by exact V.
  unfold uncovered. rewrite (load16_covered DOM_SIZE) by (exact H || (unfold DOM_END16, DOM_SIZE; lia)).
  rewrite Z.lxor_nilpotent. reflexivity.
Qed.

Lemma u32_land (x y : Z) : Z.land (u32 x) (u32 y) = u32 (Z.land x y).
Proof.
  unfold u32. rewrite <- !Z.land_ones by lia.
  apply Z.bits_inj'; intros t _. rewrite !Z.land_spec.
  destruct (Z.testbit x t), (Z.testbit y t), (Z.testbit (Z.ones 32) t); reflexivity.
Qed.

Lemma cover_or_low_bit_covered (x y : Z) :
  Z.land x y = x -> cover_or_low_bit (u32 x) (u32 y) = 1.
Proof.
  intros H. unfold cover_or_low_bit. rewrite u32_land, H, Z.eqb_refl. reflexivity.
Qed.

(** A loop that adds 1 at every step counts its steps. *)
Lemma diff_cp_loop_all (x y : nat -> Z) (n : nat) :
  forall from d,
    (forall k, (from <= k < from + n)%nat -> cover_or_low_bit (x k) (y k) = 1) ->
    0 <= d -> d + Z.of_nat n < 2 ^ 32 ->
    diff_cp_loop n from x y d = d + Z.of_nat n.
Proof.
  unfold diff_cp_loop.
  induction n as [|n IH]; intros from d H Hd Hn; cbn [for_loop].
  - simpl. lia.
  - rewrite H by lia. unfold u32 at 2. rewrite Z.mod_small by lia.
    rewrite IH; [lia| |lia|lia]. intros k Hk. apply H. lia.
Qed.

Lemma diff_cp_covered (cp1 cp2 : list Z) (n : nat) :
  covers n cp1 cp2 -> Z.of_nat n < 2 ^ 32 ->
  diff_cp_loop n 0 (fun k => u32 (rd cp1 k)) (fun k => u32 (rd cp2 k)) 0
  = Z.of_nat n.
Proof.
  intros H Hn. rewrite diff_cp_loop_all; [reflexivity| |lia|lia].
  intros k Hk. apply cover_or_low_bit_covered, H. lia.
Qed.

Lemma covers_refl (n : nat) (x : list Z) : covers n x x.
Proof. intros i _. apply Z.land_diag. Qed.

(** ** The score of a covered key *)

Lemma songlen_gate (u1 u2 : FPrintUnion) :
  min_songlen u2 <= max_songlen u1 -> min_songlen u1 <= max_songlen u2 ->
  (max_songlen u1 <? min_songlen u2) || (max_songlen u2 <? min_songlen u1) = false.
Proof.
  intros H1 H2. apply orb_false_iff. split; apply Z.ltb_ge; assumption.
Qed.

Lemma match_merges_covered (u1 u2 : FPrintUnion) :
  valid_union u1 -> valid_union u2 ->
  min_songlen u2 <= max_songlen u1 -> min_songlen u1 <= max_songlen u2 ->
  covers R_SIZE (u_r u1) (u_r u2) -> covers DOM_SIZE (u_dom u1) (u_dom u2) ->
  u_cprint_len u1 <= u_cprint_len u2 ->
  covers (Z.to_nat (u_cprint_len u1)) (u_cprint u1) (u_cprint u2) ->
  match_merges u1 u2 = F32.one.
Proof.
  intros V1 V2 G1 G2 Cr Cd Hlen Cc.
  destruct V1 as [_ _ _ P1 _ _ _ _ _ _].
  destruct V2 as [_ _ _ P2 _ _ _ _ D2 _].
  unfold INT_MAX in P1, P2.
  unfold match_merges. rewrite songlen_gate by assumption.
  rewrite min_st_spec by (unfold is_u64; lia).
  rewrite Z.min_l by exact Hlen.
  rewrite diff_r_cover_covered by exact Cr.
  rewrite diff_dom_cover_covered by assumption.
  rewrite diff_cp_covered by (exact Cc || (rewrite Z2Nat.id; lia)).
  rewrite Z2Nat.id by lia.
  destruct (Z.gtb_spec (u_cprint_len u1) 0) as [_|]; [|lia].
  rewrite F32_div_of_Z_self by lia.
  vm_compute. reflexivity.
Qed.

Lemma match_merges_as_record (u1 u2 : FPrintUnion) :
  valid_union u1 -> valid_union u2 ->
  min_songlen u2 <= max_songlen u1 -> min_songlen u1 <= max_songlen u2 ->
  match_merges u1 u2 = match_fprint_merge (as_fprint u1) u2.
Proof.
  intros V1 V2 G1 G2.
  destruct V1 as [_ _ _ P1 _ _ _ _ _ _].
  destruct V2 as [_ _ _ P2 _ _ _ _ _ _].
  unfold INT_MAX in P1, P2.
  unfold match_merges, match_fprint_merge. rewrite songlen_gate by assumption.
  cbn [as_fprint cprint_len r dom cprint].
  rewrite !min_st_spec by (unfold is_u64; lia).
  rewrite (Z.min_comm (u_cprint_len u2)). reflexivity.
Qed.

(** ** [match_merges] *)

(** C5, as stated, fails: [match_merges] scores how much of its first
    argument is covered by its second. A key with an empty [r] is fully
    covered by one with a full [r] (score 1), the reverse is not. *)
Lemma match_merges_not_symmetric :
  valid_union empty_key /\ valid_union full_key
  /\ match_merges empty_key full_key = F32.one
  /\ match_merges full_key empty_key <> match_merges empty_key full_key.
Proof.
  split; [apply valid_union_b_ok; vm_compute; reflexivity|].
  split; [apply valid_union_b_ok; vm_compute; reflexivity|].
  split; [vm_compute; reflexivity|].
  vm_compute. discriminate.
Qed.

(** C5, amended. [match_merges(u1, u2) = match_merges(u2, u1)] when the
    [songlen] envelopes are disjoint (both are 0), and when the two keys
    have the same [r], [dom], [cprint] and [cprint_len], whatever their
    envelopes. Otherwise the score is directional. For well-formed keys
    with overlapping envelopes, [match_merges(u1, u2)] is the score
    [match_fprint_merge] gives to [u1], read as a record, against [u2]; and
    it is 1.0 whenever [u2] covers [u1]: every byte of [u1.r] and [u1.dom]
    and each of the [u1.cprint_len <= u2.cprint_len] codewords of [u1] is
    within the one of [u2], whatever else [u2] holds. *)
Theorem match_merges_directional (u1 u2 : FPrintUnion) :
  (max_songlen u1 < min_songlen u2 \/ max_songlen u2 < min_songlen u1 ->
   match_merges u1 u2 = F32.zero /\ match_merges u2 u1 = F32.zero)
  /\ (u_r u1 = u_r u2 -> u_dom u1 = u_dom u2 -> u_cprint u1 = u_cprint u2 ->
      u_cprint_len u1 = u_cprint_len u2 ->
      match_merges u1 u2 = match_merges u2 u1)
  /\ (valid_union u1 -> valid_union u2 ->
      min_songlen u2 <= max_songlen u1 -> min_songlen u1 <= max_songlen u2 ->
      match_merges u1 u2 = match_fprint_merge (as_fprint u1) u2
      /\ (covers R_SIZE (u_r u1) (u_r u2) ->
          covers DOM_SIZE (u_dom u1) (u_dom u2) ->
          u_cprint_len u1 <= u_cprint_len u2 ->
          covers (Z.to_nat (u_cprint_len u1)) (u_cprint u1) (u_cprint u2) ->
          match_merges u1 u2 = F32.one)).
Proof.
  split; [|split].
  - intros Hd.
    assert (E : (max_songlen u1 <? min_songlen u2)
                || (max_songlen u2 <? min_songlen u1) = true).
    { apply orb_true_iff. destruct Hd; [left|right]; apply Z.ltb_lt; assumption. }
    unfold match_merges. rewrite E. rewrite orb_comm in E. rewrite E.
    split; reflexivity.
  - intros Hr Hdom Hcp Hlen. unfold match_merges.
    rewrite Hr, Hdom, Hcp, Hlen.
    rewrite (orb_comm (max_songlen u1 <? min_songlen u2)). reflexivity.
  - intros V1 V2 G1 G2. split.
    + apply match_merges_as_record; assumption.
    + intros Cr Cd Hlen Cc. apply match_merges_covered; assumption.
Qed.

Lemma match_merges_directional_witness :
  (valid_union sample_union /\ valid_union wide_key
   /\ min_songlen wide_key <= max_songlen sample_union
   /\ min_songlen sample_union <= max_songlen wide_key)
  /\ match_merges sample_union wide_key
     = match_fprint_merge (as_fprint sample_union) wide_key
  /\ match_merges sample_union wide_key = F32.one.
Proof.
  assert (V1 : valid_union sample_union)
    by (apply valid_union_b_ok; vm_compute; reflexivity).
  assert (V2 : valid_union wide_key)
    by (apply valid_union_b_ok; vm_compute; reflexivity).
  assert (G1 : min_songlen wide_key <= max_songlen sample_union)
    by (vm_compute; discriminate).
  assert (G2 : min_songlen sample_union <= max_songlen wide_key)
    by (vm_compute; discriminate).
  destruct (match_merges_directional sample_union wide_key) as (_ & _ & H).
  destruct (H V1 V2 G1 G2) as [Hrec Hone].
  split; [exact (conj V1 (conj V2 (conj G1 G2)))|]. split; [exact Hrec|].
  apply Hone.
  - apply covers_b_spec. vm_compute. reflexivity.
  - apply covers_b_spec. vm_compute. reflexivity.
  - vm_compute. discriminate.
  - apply covers_b_spec. vm_compute. reflexivity.
Defined.


Lemma fprint_merge_one_covers_witness :
  exists u', fprint_merge_one sample_union sample_fp = Some u' /\ covered u' sample_fp.
Proof.
  apply fprint_merge_one_covers.
  - apply valid_union_b_ok. vm_compute. reflexivity.
  - apply valid_fprint_b_ok. vm_compute. reflexivity.
  - vm_compute. discriminate.
Defined.

(** C7, as stated, fails: [zero_min_key] covers [short_song] (its envelope
    is [[0, 10]], the song lasts 5), and merging moves its [min_songlen]
    from 0 to 5. *)
Lemma merge_one_moves_zero_minimum :
  valid_union zero_min_key /\ valid_fprint short_song
  /\ covered zero_min_key short_song
  /\ option_map min_songlen (fprint_merge_one zero_min_key short_song) = Some 5
  /\ fprint_merge_one zero_min_key short_song <> Some zero_min_key.
Proof.
  split; [apply valid_union_b_ok; vm_compute; reflexivity|].
  split; [apply valid_fprint_b_ok; vm_compute; reflexivity|].
  split; [apply covered_b_ok; vm_compute; reflexivity|].
  split; [vm_compute; reflexivity|].
  vm_compute. discriminate.
Qed.

Lemma fprint_merge_one_idempotent_witness :
  fprint_merge_one sample_union sample_fp = Some sample_union.
Proof.
  apply fprint_merge_one_idempotent.
  - apply valid_union_b_ok. vm_compute. reflexivity.
  - apply valid_fprint_b_ok. vm_compute. reflexivity.
  - apply covered_b_ok. vm_compute. reflexivity.
  - left. vm_compute. reflexivity.
Defined.

(** ** [match_chromat] and [match_chromab] *)

(** C9. The claim is that [match_chromat] sums [popcount(cp1[i] & cp2[i])]
    into [tdiff] over the compared prefix and returns [tdiff/tcomm]. In the
    remainder loop the code assigns [tdiff] instead of adding to it: for
    two streams of two codewords [1] the sums are 2 and 2 and the score of
    the specification is 1, while the code returns [1/2]. *)
Theorem match_chromat_assigns_tdiff :
  tanimoto_sums [1; 1] [1; 1] 2 = (2, 2)
  /\ match_chromat_spec [1; 1] 2 [1; 1] 2 = F64.one
  /\ match_chromat [1; 1] 2 [1; 1] 2 = F64.lit 1 2
  /\ match_chromat [1; 1] 2 [1; 1] 2 <> match_chromat_spec [1; 1] 2 [1; 1] 2.
Proof.
  repeat split; try (vm_compute; reflexivity).
  vm_compute. discriminate.
Qed.






(** ** [picksplit] *)

(** *** Each side of a split is given at least one entry *)

Lemma resize_length (junk : nat -> Z) (old : list Z) (n : nat) :
  length (resize junk old n) = n.
Proof.
  unfold resize. rewrite length_app, length_firstn, length_map, length_seq. lia.
Qed.

Lemma or_cprint_length (n : nat) (u a : list Z) :
  length (or_cprint n u a) = length u.
Proof.
  unfold or_cprint.
  apply (for_loop_inv (fun x => length x = length u)); [reflexivity|].
  intros i s' _ H. rewrite wr_length. assumption.
Qed.

Lemma key_ok_cast (fp : FPrint) : key_ok fp -> key_ok (as_fprint (as_union fp)).
Proof. intros H. exact H. Qed.

Lemma key_ok_blank : key_ok (new_fprint 0).
Proof. split; vm_compute; try split; discriminate || reflexivity. Qed.

Lemma raw_ok (raw_vec : list FPrint) (k : nat) :
  Forall key_ok raw_vec -> key_ok (raw raw_vec k).
Proof.
  intros H. unfold raw. destruct (Nat.lt_ge_cases k (length raw_vec)) as [Hk|Hk].
  - rewrite Forall_forall in H. apply H, nth_In, Hk.
  - rewrite nth_overflow by assumption. apply key_ok_blank.
Qed.

Lemma seed_union_ok (fp : FPrint) (sl : Z) : key_ok fp -> union_ok (seed_union fp sl).
Proof.
  intros [Hl Hn]. unfold seed_union, union_ok, copy_key, as_union.
  cbn [u_cprint_len u_cprint cprint_len cprint].
  rewrite max_st_spec by (unfold is_u64; lia).
  rewrite length_firstn. split; [assumption|]. lia.
Qed.

Lemma copy_key_union_ok (fp : FPrint) : key_ok fp -> union_ok (as_union (copy_key fp)).
Proof.
  intros [Hl Hn]. unfold union_ok, copy_key, as_union.
  cbn [u_cprint_len u_cprint cprint_len cprint].
  rewrite max_st_spec by (unfold is_u64; lia).
  rewrite length_firstn. split; [assumption|]. lia.
Qed.

Section SplitCounts.
Variable c_pow : spec_float -> spec_float -> spec_float.
Variable qsort : (Match -> Match -> Z) -> list Match -> list Match.
Variable junk : nat -> nat -> Z.

Lemma deserialize_ok (site : nat) (e : GISTENTRY) :
  entry_ok e ->
  exists fp, deserialize_fprint junk site (key e) = Some fp /\ key_ok fp.
Proof.
  intros (fp & Hk & Hlen). rewrite Hk. unfold deserialize_fprint.
  destruct (Z.ltb_spec (cprint_len fp) 100000); [|lia].
  eexists. split; [reflexivity|].
  unfold key_ok, MAX_KEY_CP_LEN. cbn [cprint_len cprint].
  rewrite min_st_spec by (unfold is_u64; lia).
  rewrite resize_length, max_st_spec by (unfold is_u64; lia). lia.
Qed.

Lemma check_union_size_ok (site : nat) (u : FPrintUnion) (fp : FPrint) :
  union_ok u -> key_ok fp ->
  union_ok (check_union_size junk site u fp)
  /\ cprint_len fp <= u_cprint_len (check_union_size junk site u fp).
Proof.
  intros [Hu Hul] [Hf Hfl]. unfold check_union_size, MAX_KEY_CP_LEN.
  rewrite min_st_spec by (unfold is_u64; lia).
  rewrite Z.min_l by lia.
  destruct (Z.gtb_spec (cprint_len fp) (u_cprint_len u)).
  - unfold union_ok. cbn [u_cprint_len u_cprint].
    rewrite resize_length, max_st_spec by (unfold is_u64; lia). lia.
  - split; [split; assumption|lia].
Qed.

Lemma merge_one_ok (u : FPrintUnion) (a : FPrint) :
  union_ok u -> key_ok a -> cprint_len a <= u_cprint_len u ->
  exists u', fprint_merge_one u a = Some u' /\ union_ok u'.
Proof.
  intros [Hu Hul] [Ha Hal] Hlen. unfold fprint_merge_one.
  assert (E : (cprint_len a <=? Z.of_nat (length (u_cprint u)))
              && (cprint_len a <=? Z.of_nat (length (cprint a))) = true).
  { apply andb_true_intro. split; apply Z.leb_le; lia. }
  rewrite E. eexists. split; [reflexivity|].
  unfold union_ok. cbn [u_cprint_len u_cprint]. rewrite or_cprint_length.
  split; assumption.
Qed.

Lemma merge_one_union_ok (u : FPrintUnion) (a : FPrint) :
  union_ok u -> key_ok a -> cprint_len a <= u_cprint_len u ->
  exists u', fprint_merge_one_union u (as_union a) = Some u' /\ union_ok u'.
Proof.
  intros [Hu Hul] [Ha Hal] Hlen. unfold fprint_merge_one_union, as_union.
  cbn [u_cprint_len u_cprint u_r u_dom min_songlen max_songlen].
  assert (E : (cprint_len a <=? Z.of_nat (length (u_cprint u)))
              && (cprint_len a <=? Z.of_nat (length (cprint a))) = true).
  { apply andb_true_intro. split; apply Z.leb_le; lia. }
  rewrite E. eexists. split; [reflexivity|].
  unfold union_ok. cbn [u_cprint_len u_cprint]. rewrite or_cprint_length.
  split; assumption.
Qed.

Lemma assign_ok (leaf_split : bool) (ix : nat) (fp : FPrint)
      (u : FPrintUnion) (side : list Z) :
  union_ok u -> key_ok fp ->
  exists u' side',
    assign junk leaf_split ix fp u side = Some (u', side')
    /\ union_ok u' /\ length side' = Datatypes.S (length side).
Proof.
  intros Hu Hf. unfold assign, ASSIGN_IX, ASSIGN_IXU. destruct leaf_split.
  - destruct (check_union_size_ok (2 * ix + 1) u fp Hu Hf) as [Hc Hl].
    destruct (merge_one_ok _ fp Hc Hf Hl) as (u' & -> & Hu').
    do 2 eexists. split; [reflexivity|]. split; [assumption|].
    rewrite length_app. simpl. lia.
  - destruct (check_union_size_ok (2 * ix + 1) u _ Hu (key_ok_cast fp Hf))
      as [Hc Hl].
    destruct (merge_one_union_ok _ fp Hc Hf Hl) as (u' & -> & Hu').
    do 2 eexists. split; [reflexivity|]. split; [assumption|].
    rewrite length_app. simpl. lia.
Qed.

Lemma to_left_ok (leaf_split : bool) (k : nat) (fp : FPrint) (s : split_state) :
  split_ok s -> key_ok fp ->
  exists s', to_left junk leaf_split k fp s = Some s' /\ split_ok s'.
Proof.
  intros (Hl & Hr & Nl & Nr) Hf. unfold to_left.
  destruct (assign_ok leaf_split k fp (fp_ul s) (left s) Hl Hf)
    as (u' & side' & -> & Hu' & Hlen).
  eexists. split; [reflexivity|]. unfold split_ok.
  cbn [fp_ul fp_ur left right].
  split; [exact Hu'|split; [exact Hr|split; lia]].
Qed.

Lemma to_right_ok (leaf_split : bool) (k : nat) (fp : FPrint) (s : split_state) :
  split_ok s -> key_ok fp ->
  exists s', to_right junk leaf_split k fp s = Some s' /\ split_ok s'.
Proof.
  intros (Hl & Hr & Nl & Nr) Hf. unfold to_right.
  destruct (assign_ok leaf_split k fp (fp_ur s) (right s) Hr Hf)
    as (u' & side' & -> & Hu' & Hlen).
  eexists. split; [reflexivity|]. unfold split_ok.
  cbn [fp_ul fp_ur left right].
  split; [exact Hl|split; [exact Hu'|split; lia]].
Qed.

Lemma split_middle_ok (leaf_split : bool) (raw_vec : list FPrint)
      (max_clust_sz : Z) (ks : list nat) :
  Forall key_ok raw_vec ->
  forall s, split_ok s ->
    exists s', split_middle junk leaf_split raw_vec max_clust_sz ks s = Some s'
               /\ split_ok s'.
Proof.
  intros Hraw. induction ks as [|k ks IH]; intros s Hs; cbn [split_middle].
  - eauto.
  - destruct (Z.of_nat k <? max_clust_sz).
    + destruct (to_left_ok leaf_split k _ s Hs (raw_ok raw_vec k Hraw))
        as (s' & -> & Hs'). apply IH, Hs'.
    + destruct (to_right_ok leaf_split k _ s Hs (raw_ok raw_vec k Hraw))
        as (s' & -> & Hs'). apply IH, Hs'.
Qed.

Lemma split_general_ok (leaf_split : bool) (raw_vec : list FPrint)
      (min_songlen max_songlen : Z) (sl sr : nat) (ms : list Match) :
  Forall key_ok raw_vec ->
  forall s, split_ok s ->
    exists s',
      split_general junk leaf_split raw_vec min_songlen max_songlen sl sr ms s
      = Some s' /\ split_ok s'.
Proof.
  intros Hraw. induction ms as [|m ms IH]; intros s Hs; cbn [split_general].
  - eauto.
  - destruct (Nat.eqb (Z.to_nat (ix1 m)) sl || Nat.eqb (Z.to_nat (ix1 m)) sr);
      [apply IH, Hs|].
    pose proof (raw_ok raw_vec (Z.to_nat (ix1 m)) Hraw) as Hk.
    destruct (to_left_ok leaf_split (Z.to_nat (ix1 m)) _ s Hs Hk) as (sl' & El & Hsl).
    destruct (to_right_ok leaf_split (Z.to_nat (ix1 m)) _ s Hs Hk) as (sr' & Er & Hsr).
    cbv zeta. rewrite El, Er.
    repeat match goal with
           | |- context [if ?c then _ else _] => destruct c
           end; apply IH; assumption.
Qed.

Lemma scan_entries_ok (leaf_split : bool) (entv : list GISTENTRY) :
  Forall entry_ok entv ->
  forall ix raw_vec s,
    Forall key_ok raw_vec ->
    exists raw_vec' s',
      scan_entries junk leaf_split ix entv raw_vec s = Some (raw_vec', s')
      /\ Forall key_ok raw_vec'
      /\ length raw_vec' = (length raw_vec + length entv)%nat.
Proof.
  induction entv as [|e rest IH]; intros He ix raw_vec s Hraw; cbn [scan_entries].
  - do 2 eexists. split; [reflexivity|]. split; [assumption|]. simpl. lia.
  - inversion He as [|? ? He1 Hrest]; subst.
    destruct (deserialize_ok (2 * ix) e He1) as (fp & -> & Hfp).
    destruct (IH Hrest (Datatypes.S ix) (raw_vec ++ [fp])
                 (seed_step leaf_split ix fp s)) as (raw' & s' & E & Hr & Hl).
    { apply Forall_app. split; [assumption|]. constructor; [assumption|constructor]. }
    do 2 eexists. split; [exact E|]. split; [assumption|].
    rewrite Hl, length_app. simpl. lia.
Qed.

Lemma picksplit_assign_counts (s : split_state) :
  split_ok s ->
  1 <= spl_nleft (picksplit_assign s) /\ 1 <= spl_nright (picksplit_assign s).
Proof.
  intros (_ & _ & Nl & Nr). unfold picksplit_assign. cbn. lia.
Qed.

(** When [n >= 2] entries with keys of fewer than 100000 codewords are
    split, [fprint_picksplit] returns and each side has at least one entry,
    whatever [pow], [qsort] and uninitialised memory are. *)
Theorem picksplit_sides_nonempty (entv : list GISTENTRY) :
  (2 <= length entv)%nat -> Forall entry_ok entv ->
  exists v, fprint_picksplit c_pow qsort junk entv = Some v
            /\ 1 <= spl_nleft v /\ 1 <= spl_nright v.
Proof.
  intros Hn He. destruct entv as [|e1 rest]; [simpl in Hn; lia|].
  inversion He as [|? ? He1 Hrest]; subst.
  unfold fprint_picksplit.
  destruct (deserialize_ok 0 e1 He1) as (fp1 & -> & Hfp1).
  destruct (scan_entries_ok (on_leaf_page e1) rest Hrest 1 [fp1]
              (mkSeeds 0 0 (lower (on_leaf_page e1) fp1)
                       (upper (on_leaf_page e1) fp1) true))
    as (raw_vec & seeds & -> & Hraw & Hlen).
  { constructor; [assumption|constructor]. }
  cbv zeta.
  destruct (Z.ltb_spec (Z.of_nat (length (e1 :: rest))) 3) as [H3|H3].
  - destruct (Z.eqb_spec (Z.of_nat (length (e1 :: rest))) 1) as [H1|_];
      [simpl in Hn, H1; lia|].
    destruct (allisequal seeds); eexists; (split; [reflexivity|]); cbn; lia.
  - assert (Hgen : forall matches sl sr,
      exists v,
        match split_general junk (on_leaf_page e1) raw_vec (min_sl seeds)
                (max_sl seeds) sl sr matches
                (mkSplit [u16 (Z.of_nat sl + 1)] [u16 (Z.of_nat sr + 1)]
                         (seed_union (raw raw_vec sl) (min_sl seeds))
                         (seed_union (raw raw_vec sr) (max_sl seeds)))
        with
        | Some s => Some (picksplit_assign s)
        | None => None
        end = Some v /\ 1 <= spl_nleft v /\ 1 <= spl_nright v).
    { intros matches sl sr.
      destruct (split_general_ok (on_leaf_page e1) raw_vec (min_sl seeds)
                  (max_sl seeds) sl sr matches Hraw
                  (mkSplit [u16 (Z.of_nat sl + 1)] [u16 (Z.of_nat sr + 1)]
                           (seed_union (raw raw_vec sl) (min_sl seeds))
                           (seed_union (raw raw_vec sr) (max_sl seeds))))
        as (s' & -> & Hs').
      { unfold split_ok. cbn [fp_ul fp_ur left right length].
        split; [apply seed_union_ok, raw_ok, Hraw|].
        split; [apply seed_union_ok, raw_ok, Hraw|]. split; lia. }
      eexists. split; [reflexivity|]. apply picksplit_assign_counts, Hs'. }
    destruct (allisequal seeds); [|apply Hgen].
    match goal with |- context [if ?c then _ else _] => destruct c end;
      [apply Hgen|].
    destruct (split_middle_ok (on_leaf_page e1) raw_vec
                (i32 (if Z.of_nat (length (e1 :: rest)) mod 2 =? 0
                      then Z.shiftr (Z.of_nat (length (e1 :: rest))) 1
                      else Z.shiftr (Z.of_nat (length (e1 :: rest))) 1 + 1))
                (seq 1 (length raw_vec - 2)) Hraw
                (mkSplit [1] [u16 (Z.of_nat (length (e1 :: rest)))]
                         (seed_union (raw raw_vec 0) (min_sl seeds))
                         (seed_union (raw raw_vec (length raw_vec - 1))
                                     (max_sl seeds))))
      as (s' & -> & Hs').
    { unfold split_ok. cbn [fp_ul fp_ur left right length].
      split; [apply seed_union_ok, raw_ok, Hraw|].
      split; [apply seed_union_ok, raw_ok, Hraw|]. split; lia. }
    eexists. split; [reflexivity|]. apply picksplit_assign_counts, Hs'.
Qed.
End SplitCounts.

Lemma four_leaves_ok : Forall entry_ok four_leaves.
Proof.
  repeat constructor; eexists; (split; [reflexivity|]); vm_compute;
    split; discriminate || reflexivity.
Qed.


(** C8. The claim is that each side gets at least one entry when [n >= 2]
    and at least two when [n >= 4]. The code gives each side its seed and
    then places every other entry by [songlen] and match alone: of four
    leaves with [songlen] 100, 200, 101 and 103, three go left and one goes
    right. *)
Theorem picksplit_unbalanced :
  length four_leaves = 4%nat
  /\ option_map (fun v => (spl_left v, spl_nleft v, spl_right v, spl_nright v))
       (fprint_picksplit cube_pow insertion_sort zero_junk four_leaves)
     = Some ([1; 3; 4], 3, [2], 1).
Proof. split; vm_compute; reflexivity. Qed.
